(** * File-based lists (fut0lst.cc): a shallow embedding and its properties

    The list lives in page frames of the buffer pool.  A node is the byte
    range of two consecutive 6-byte file addresses (prev, next); the base
    node is a 4-byte length followed by the addresses of the first and the
    last node.  Every function of fut0lst.cc is embedded as a computation
    over the frames and the redo log of the mini-transaction; [ut_a]
    failures abort the computation. *)

From Stdlib Require Import ZArith List Bool Lia.
From coqutil Require Import Byte.
Import ListNotations.
Local Open Scope Z_scope.

(** ** Constants of fil0fil.h and fut0lst.h *)

(** Modelled from the spec: fil0fil.h is not part of the sources.  The null
    page number is "the reserved all-ones 32-bit value". *)
Definition FIL_NULL : Z := 4294967295.

(** Modelled from the spec: fil0fil.h is not part of the sources.  A file
    address "must lie within the page's valid data region", which starts
    after the page header; the header is 38 bytes in fil0fil.h.  The proofs
    use the number only through comparisons with offsets. *)
Definition FIL_PAGE_DATA : Z := 38.

(** Modelled from the spec: "File address, 6 bytes: page(4) + offset(2)";
    fut0lst.cc asserts these three values ([static_assert]). *)
Definition FIL_ADDR_PAGE : Z := 0.
Definition FIL_ADDR_BYTE : Z := 4.
Definition FIL_ADDR_SIZE : Z := 6.

(** Modelled from the spec: fut0lst.h is not part of the sources.  The base
    node is "length(4) ... then two 6-byte addresses immediately following";
    a node is "two consecutive 6-byte file addresses, prev immediately
    followed by next".  fut0lst.cc asserts [FLST_LAST == FLST_FIRST +
    FIL_ADDR_SIZE] and [FLST_NEXT == FLST_PREV + FIL_ADDR_SIZE]. *)
Definition FLST_LEN : Z := 0.
Definition FLST_FIRST : Z := 4.
Definition FLST_LAST : Z := 4 + FIL_ADDR_SIZE.
Definition FLST_PREV : Z := 0.
Definition FLST_NEXT : Z := FIL_ADDR_SIZE.
Definition FLST_BASE_NODE_SIZE : Z := 4 + 2 * FIL_ADDR_SIZE.
Definition FLST_NODE_SIZE : Z := 2 * FIL_ADDR_SIZE.

(** ** Data model *)

(** Modelled from the spec: db0err.h is not part of the sources.  The error
    codes this file returns or passes on: success, "Corruption" (the only
    code fut0lst.cc names besides [DB_SUCCESS]), and codes of "I/O failure"
    that a page fetch may leave in [*err]. *)
Inductive dberr_t : Type :=
| DB_SUCCESS
| DB_CORRUPTION
| DB_IO_ERROR
| DB_PAGE_CORRUPTED
| DB_DECRYPTION_FAILED
| DB_TABLESPACE_DELETED.

Definition dberr_eqb (a b : dberr_t) : bool :=
  match a, b with
  | DB_SUCCESS, DB_SUCCESS | DB_CORRUPTION, DB_CORRUPTION
  | DB_IO_ERROR, DB_IO_ERROR | DB_PAGE_CORRUPTED, DB_PAGE_CORRUPTED
  | DB_DECRYPTION_FAILED, DB_DECRYPTION_FAILED
  | DB_TABLESPACE_DELETED, DB_TABLESPACE_DELETED => true
  | _, _ => false
  end.

(** Modelled from the spec: [fil_addr_t] is "{ page: u32, offset: u16 }";
    fut0lst.cc uses its fields [page] and [boffset]. *)
Record fil_addr_t : Type := { page : Z; boffset : Z }.

Definition fil_addr_null : fil_addr_t := {| page := FIL_NULL; boffset := 0 |}.

(** A [byte*] into a page frame, kept with the block it points into
    ([ut_ad(block->page.is_physical_address(ptr))] ties the two in the
    source): [blk] is the page number of the block, [pos] the offset of the
    byte in the frame. *)
Record byte_ptr : Type := { blk : Z; pos : Z }.

Definition ptr_add (p : byte_ptr) (k : Z) : byte_ptr :=
  {| blk := blk p; pos := pos p + k |}.

Notation "p +! k" := (ptr_add p k) (at level 50, left associativity).

(** Modelled from the spec: page0page.h and buf0buf.h are not part of the
    sources.  [page_align(ptr)] is the start of the frame [ptr] points
    into, [page_offset(ptr)] the offset of [ptr] in it, as a [uint16_t];
    [block->page.frame] is the start of the frame of a block and
    [block->page.id().page_no()] its page number. *)
Definition page_align (p : byte_ptr) : byte_ptr := {| blk := blk p; pos := 0 |}.
Definition page_offset (p : byte_ptr) : Z := pos p mod 65536.
Definition page_frame (block : Z) : byte_ptr := {| blk := block; pos := 0 |}.
Definition page_no (p : byte_ptr) : Z := blk p.

(** The frames of the buffer pool: page number, offset in the frame, byte. *)
Definition frames : Type := Z -> Z -> byte.

Definition load (f : frames) (p : byte_ptr) : byte := f (blk p) (pos p).

Definition store (f : frames) (p : byte_ptr) (b : byte) : frames :=
  fun pg o => if (pg =? blk p) && (o =? pos p) then b else f pg o.

Fixpoint load_bytes (f : frames) (p : byte_ptr) (n : nat) : list byte :=
  match n with
  | O => []
  | S n' => load f p :: load_bytes f (p +! 1) n'
  end.

Fixpoint store_bytes (f : frames) (p : byte_ptr) (bs : list byte) : frames :=
  match bs with
  | [] => f
  | b :: bs' => store_bytes (store f p b) (p +! 1) bs'
  end.

Definition byte_eqb (a b : byte) : bool := byte.unsigned a =? byte.unsigned b.

Fixpoint bytes_eqb (a b : list byte) : bool :=
  match a, b with
  | [], [] => true
  | x :: a', y :: b' => byte_eqb x y && bytes_eqb a' b'
  | _, _ => false
  end.

(** Modelled from the spec: mach0data.h is not part of the sources; the
    fixed-width encoding is big-endian ("4-byte page number followed by
    2-byte offset ... always a fixed big-endian-style fixed-width
    encoding"). *)
Definition mach_write_to_1 (n : Z) : list byte := [byte.of_Z n].

Definition mach_write_to_2 (n : Z) : list byte :=
  [byte.of_Z (Z.shiftr n 8); byte.of_Z n].

Definition mach_write_to_4 (n : Z) : list byte :=
  [byte.of_Z (Z.shiftr n 24); byte.of_Z (Z.shiftr n 16);
   byte.of_Z (Z.shiftr n 8); byte.of_Z n].

Definition mach_read_from_2 (f : frames) (p : byte_ptr) : Z :=
  Z.lor (Z.shiftl (byte.unsigned (load f p)) 8)
        (byte.unsigned (load f (p +! 1))).

Definition mach_read_from_4 (f : frames) (p : byte_ptr) : Z :=
  Z.lor (Z.shiftl (byte.unsigned (load f p)) 24)
   (Z.lor (Z.shiftl (byte.unsigned (load f (p +! 1))) 16)
    (Z.lor (Z.shiftl (byte.unsigned (load f (p +! 2))) 8)
           (byte.unsigned (load f (p +! 3))))).

(** Modelled from the spec: the accessors of fut0lst.h are not part of the
    sources; they are "pure reads (no log interaction) ... byte-offset reads
    relative to the passed-in field location". *)
Definition flst_read_addr (f : frames) (faddr : byte_ptr) : fil_addr_t :=
  {| page := mach_read_from_4 f (faddr +! FIL_ADDR_PAGE);
     boffset := mach_read_from_2 f (faddr +! FIL_ADDR_BYTE) |}.

Definition flst_get_len (f : frames) (base : byte_ptr) : Z :=
  mach_read_from_4 f (base +! FLST_LEN).
Definition flst_get_first (f : frames) (base : byte_ptr) : fil_addr_t :=
  flst_read_addr f (base +! FLST_FIRST).
Definition flst_get_last (f : frames) (base : byte_ptr) : fil_addr_t :=
  flst_read_addr f (base +! FLST_LAST).
Definition flst_get_next_addr (f : frames) (node : byte_ptr) : fil_addr_t :=
  flst_read_addr f (node +! FLST_NEXT).
Definition flst_get_prev_addr (f : frames) (node : byte_ptr) : fil_addr_t :=
  flst_read_addr f (node +! FLST_PREV).

(** ** The mini-transaction *)

(** One record of the redo log: the bytes a logged write covers. *)
Inductive log_rec : Type :=
| LogWrite (dst : byte_ptr) (bytes : list byte)
| LogMemset (dst : byte_ptr) (len : nat) (fill : byte)
| LogMemmove (dst : byte_ptr) (src : byte_ptr) (len : nat).

(** The state the functions work on: the page frames and the log of the
    mini-transaction, oldest record first. *)
Record mtr_t : Type := { m_frames : frames; m_log : list log_rec }.

(** A computation either returns a value and a state, or dies in [ut_a]. *)
Inductive outcome (A : Type) : Type :=
| Done (a : A) (m : mtr_t)
| Crashed.
Arguments Done {A} a m.
Arguments Crashed {A}.

Definition M (A : Type) : Type := mtr_t -> outcome A.

Definition ret {A : Type} (a : A) : M A := fun m => Done a m.

Definition bind {A B : Type} (c : M A) (k : A -> M B) : M B :=
  fun m => match c m with
           | Done a m' => k a m'
           | Crashed => Crashed
           end.

Notation "x <- c ;; k" := (bind c (fun x => k))
  (at level 61, c at next level, right associativity).
Notation "c ;;; k" := (bind c (fun _ => k))
  (at level 61, right associativity).

Definition ut_a (c : bool) : M unit :=
  fun m => if c then Done tt m else Crashed.

Definition gets {A : Type} (g : frames -> A) : M A :=
  fun m => Done (g (m_frames m)) m.

(** A write to a frame that is not logged (a plain [memcpy]). *)
Definition poke (dst : byte_ptr) (bs : list byte) : M unit :=
  fun m => Done tt {| m_frames := store_bytes (m_frames m) dst bs;
                      m_log := m_log m |}.

Definition log_append (r : log_rec) : M unit :=
  fun m => Done tt {| m_frames := m_frames m; m_log := m_log m ++ [r] |}.

(** Modelled from the spec: mtr0log.h is not part of the sources.  The
    primitives are "log_write(page, offset, bytes), log_write_if_changed(...),
    log_memmove(page, dst_offset, src_offset, len), log_memset(page, offset,
    len, fill)".  [mtr_write] and [mtr_memcpy] change the frame and log the
    bytes; [mtr_write_maybe_nop] is skipped when the field already holds the
    value; [mtr_memset] fills and logs; [mtr_memmove] only logs the move
    (the source copies the bytes itself, with [memcpy], before it calls
    it). *)
Definition mtr_memcpy (dst : byte_ptr) (bs : list byte) : M unit :=
  poke dst bs ;;; log_append (LogWrite dst bs).

Definition mtr_write (bs : list byte) (dst : byte_ptr) : M unit :=
  mtr_memcpy dst bs.

Definition mtr_write_maybe_nop (bs : list byte) (dst : byte_ptr) : M unit :=
  old <- gets (fun f => load_bytes f dst (length bs)) ;;
  if bytes_eqb old bs then ret tt else mtr_memcpy dst bs.

Definition mtr_memset (dst : byte_ptr) (len : nat) (fill : byte) : M unit :=
  poke dst (repeat fill len) ;;; log_append (LogMemset dst len fill).

Definition mtr_memmove (dst src : byte_ptr) (len : nat) : M unit :=
  log_append (LogMemmove dst src len).

Definition memcpy (dst src : byte_ptr) (len : nat) : M unit :=
  bs <- gets (fun f => load_bytes f src len) ;;
  poke dst bs.

(** ** fut0lst.cc

    The [ut_ad] assertions of the source are compiled out of release
    builds; they state what the caller owes (latches held, pointers into
    the frames of their blocks, distinct nodes) and come back as hypotheses
    of the theorems.  The [ut_a] assertions are always compiled in. *)

(** Write a file address. *)
Definition flst_write_addr (faddr : byte_ptr) (page boffset : Z) : M unit :=
  ut_a ((page =? FIL_NULL) || (FIL_PAGE_DATA <=? boffset)) ;;;
  ut_a (FIL_PAGE_DATA <=? pos faddr) ;;;
  same_page <- gets (fun f => mach_read_from_4 f (faddr +! FIL_ADDR_PAGE) =? page) ;;
  same_offset <- gets (fun f => mach_read_from_2 f (faddr +! FIL_ADDR_BYTE) =? boffset) ;;
  if same_page : bool then
    if negb same_offset
    then mtr_write (mach_write_to_2 boffset) (faddr +! FIL_ADDR_BYTE)
    else ret tt
  else if same_offset : bool then
    mtr_write (mach_write_to_4 page) (faddr +! FIL_ADDR_PAGE)
  else
    mtr_memcpy (faddr +! FIL_ADDR_PAGE)
               (mach_write_to_4 page ++ mach_write_to_2 boffset).

(** Write 2 null file addresses. *)
Definition flst_zero_both (addr : byte_ptr) : M unit :=
  pg <- gets (fun f => mach_read_from_4 f (addr +! FIL_ADDR_PAGE)) ;;
  (if negb (pg =? FIL_NULL)
   then mtr_memset (addr +! FIL_ADDR_PAGE) 4 (byte.of_Z 255)
   else ret tt) ;;;
  mtr_write_maybe_nop (mach_write_to_2 0) (addr +! FIL_ADDR_BYTE) ;;;
  memcpy (addr +! FIL_ADDR_SIZE) addr (Z.to_nat FIL_ADDR_SIZE) ;;;
  mtr_memmove (addr +! FIL_ADDR_SIZE) addr (Z.to_nat FIL_ADDR_SIZE).

(** Add a node to an empty list. *)
Definition flst_add_to_empty (base add : byte_ptr) : M unit :=
  mtr_write (mach_write_to_1 1) (base +! (FLST_LEN + 3)) ;;;
  flst_write_addr (base +! FLST_FIRST) (page_no add) (page_offset add) ;;;
  memcpy (base +! FLST_LAST) (base +! FLST_FIRST) (Z.to_nat FIL_ADDR_SIZE) ;;;
  mtr_memmove (base +! FLST_LAST) (base +! FLST_FIRST) (Z.to_nat FIL_ADDR_SIZE) ;;;
  flst_zero_both (add +! FLST_PREV).

(** Initialize a list base node. *)
Definition flst_init (base : byte_ptr) : M unit :=
  mtr_write_maybe_nop (mach_write_to_4 0) (base +! FLST_LEN) ;;;
  flst_zero_both (base +! FLST_FIRST).

Section WithPageCache.

(** Modelled from the spec: the page cache is an external collaborator,
    "fetch_page(container, page_number, latch_mode, tolerate_freed) ->
    Result<PageRef, IoError>".  [io] is what fetching a page answers:
    [DB_SUCCESS] when the page is there, the error otherwise. *)
Variable io : Z -> dberr_t.

(** Modelled from the spec: [buf_page_get_gen] returns the block (or
    [nullptr]) and leaves the error code in [*err]. *)
Definition buf_page_get_gen (page_no : Z) : M (option Z * dberr_t) :=
  match io page_no with
  | DB_SUCCESS => ret (Some page_no, DB_SUCCESS)
  | e => ret (None, e)
  end.

(** Insert a node after another one. *)
Definition flst_insert_after (base cur add : byte_ptr) : M dberr_t :=
  next_addr <- gets (fun f => flst_get_next_addr f cur) ;;
  flst_write_addr (add +! FLST_PREV) (page_no cur) (page_offset cur) ;;;
  flst_write_addr (add +! FLST_NEXT) (page next_addr) (boffset next_addr) ;;;
  let a := page_offset add in
  err <- (if page next_addr =? FIL_NULL then
            flst_write_addr (base +! FLST_LAST) (page_no add) a ;;;
            ret DB_SUCCESS
          else
            r <- buf_page_get_gen (page next_addr) ;;
            match r with
            | (Some block, err) =>
                flst_write_addr (page_frame block +! boffset next_addr +! FLST_PREV)
                                (page_no add) a ;;;
                ret err
            | (None, err) => ret err
            end) ;;
  flst_write_addr (cur +! FLST_NEXT) (page_no add) a ;;;
  len <- gets (fun f => mach_read_from_4 f (base +! FLST_LEN)) ;;
  mtr_write (mach_write_to_4 ((len + 1) mod 2 ^ 32)) (base +! FLST_LEN) ;;;
  ret err.

(** Insert a node before another one. *)
Definition flst_insert_before (base cur add : byte_ptr) : M dberr_t :=
  prev_addr <- gets (fun f => flst_get_prev_addr f cur) ;;
  flst_write_addr (add +! FLST_PREV) (page prev_addr) (boffset prev_addr) ;;;
  flst_write_addr (add +! FLST_NEXT) (page_no cur) (page_offset cur) ;;;
  let a := page_offset add in
  err <- (if page prev_addr =? FIL_NULL then
            flst_write_addr (base +! FLST_FIRST) (page_no add) a ;;;
            ret DB_SUCCESS
          else
            r <- buf_page_get_gen (page prev_addr) ;;
            match r with
            | (Some block, err) =>
                flst_write_addr (page_frame block +! boffset prev_addr +! FLST_NEXT)
                                (page_no add) a ;;;
                ret err
            | (None, err) => ret err
            end) ;;
  flst_write_addr (cur +! FLST_PREV) (page_no add) a ;;;
  len <- gets (fun f => mach_read_from_4 f (base +! FLST_LEN)) ;;
  mtr_write (mach_write_to_4 ((len + 1) mod 2 ^ 32)) (base +! FLST_LEN) ;;;
  ret err.

(** Append a file list node to a list. *)
Definition flst_add_last (base add : byte_ptr) : M dberr_t :=
  len <- gets (fun f => flst_get_len f base) ;;
  if len =? 0 then
    flst_add_to_empty base add ;;; ret DB_SUCCESS
  else
    addr <- gets (fun f => flst_get_last f base) ;;
    if negb (page addr =? page_no add) then
      r <- buf_page_get_gen (page addr) ;;
      match r with
      | (None, err) => ret err
      | (Some blk_cur, _) =>
          flst_insert_after base (page_frame blk_cur +! boffset addr) add
      end
    else
      flst_insert_after base (page_align add +! boffset addr) add.

(** Prepend a file list node to a list. *)
Definition flst_add_first (base add : byte_ptr) : M dberr_t :=
  len <- gets (fun f => flst_get_len f base) ;;
  if len =? 0 then
    flst_add_to_empty base add ;;; ret DB_SUCCESS
  else
    addr <- gets (fun f => flst_get_first f base) ;;
    if negb (page addr =? page_no add) then
      r <- buf_page_get_gen (page addr) ;;
      match r with
      | (None, err) => ret err
      | (Some blk_cur, _) =>
          flst_insert_before base (page_frame blk_cur +! boffset addr) add
      end
    else
      flst_insert_before base (page_align add +! boffset addr) add.

(** Remove a file list node. *)
Definition flst_remove (base cur : byte_ptr) : M dberr_t :=
  prev_addr <- gets (fun f => flst_get_prev_addr f cur) ;;
  next_addr <- gets (fun f => flst_get_next_addr f cur) ;;
  err <- (if page prev_addr =? FIL_NULL then
            flst_write_addr (base +! FLST_FIRST)
                            (page next_addr) (boffset next_addr) ;;;
            ret DB_SUCCESS
          else if negb (page prev_addr =? page_no cur) then
            r <- buf_page_get_gen (page prev_addr) ;;
            match r with
            | (None, err) => ret err
            | (Some b, err) =>
                flst_write_addr (page_frame b +! boffset prev_addr +! FLST_NEXT)
                                (page next_addr) (boffset next_addr) ;;;
                ret err
            end
          else
            flst_write_addr (page_align cur +! boffset prev_addr +! FLST_NEXT)
                            (page next_addr) (boffset next_addr) ;;;
            ret DB_SUCCESS) ;;
  err <- (if page next_addr =? FIL_NULL then
            flst_write_addr (base +! FLST_LAST)
                            (page prev_addr) (boffset prev_addr) ;;;
            ret err
          else if negb (page next_addr =? page_no cur) then
            r <- buf_page_get_gen (page next_addr) ;;
            match r with
            | (None, err2) =>
                ret (if dberr_eqb err DB_SUCCESS then err2 else err)
            | (Some blk_next, _) =>
                flst_write_addr (page_frame blk_next +! boffset next_addr +! FLST_PREV)
                                (page prev_addr) (boffset prev_addr) ;;;
                ret err
            end
          else
            flst_write_addr (page_align cur +! boffset next_addr +! FLST_PREV)
                            (page prev_addr) (boffset prev_addr) ;;;
            ret err) ;;
  len <- gets (fun f => mach_read_from_4 f (base +! FLST_LEN)) ;;
  if len =? 0 then ret DB_CORRUPTION
  else
    mtr_write (mach_write_to_4 ((len - 1) mod 2 ^ 32)) (base +! FLST_LEN) ;;;
    ret err.

End WithPageCache.

(** ** Specification vocabulary *)

(** Two frame maps that hold the same bytes. *)
Definition frames_eq (f g : frames) : Prop := forall pg o, f pg o = g pg o.

(** The byte at [(pg, o)] lies in the [n] bytes that start at [p]. *)
Definition in_range (p : byte_ptr) (n : Z) (pg o : Z) : Prop :=
  pg = blk p /\ pos p <= o < pos p + n.

(** The [n] bytes at [p] and the [k] bytes at [q] do not overlap. *)
Definition apart (p : byte_ptr) (n : Z) (q : byte_ptr) (k : Z) : Prop :=
  blk p <> blk q \/ pos p + n <= pos q \/ pos q + k <= pos p.

(** The six bytes of a file address, as [flst_write_addr] lays them out. *)
Definition fil_addr_bytes (a : fil_addr_t) : list byte :=
  mach_write_to_4 (page a) ++ mach_write_to_2 (boffset a).

Definition put_addr (f : frames) (faddr : byte_ptr) (a : fil_addr_t) : frames :=
  store_bytes f (faddr +! FIL_ADDR_PAGE) (fil_addr_bytes a).

Definition put_len (f : frames) (base : byte_ptr) (n : Z) : frames :=
  store_bytes f (base +! FLST_LEN) (mach_write_to_4 n).

(** A value that fits [fil_addr_t] and passes the [ut_a] of
    [flst_write_addr]. *)
Definition addr_ok (a : fil_addr_t) : Prop :=
  0 <= page a < 2 ^ 32 /\ 0 <= boffset a < 2 ^ 16 /\
  (page a = FIL_NULL \/ FIL_PAGE_DATA <= boffset a).




(** Weakest precondition of a computation: it returns, and the result
    satisfies [Q]. *)
Definition wp {A : Type} (c : M A) (m : mtr_t) (Q : A -> mtr_t -> Prop) : Prop :=
  match c m with
  | Done a m' => Q a m'
  | Crashed => False
  end.

(** What [flst_write_addr] appends to the log: nothing, the 2-byte offset,
    the 4-byte page number, or all six bytes. *)
Definition write_addr_log (f : frames) (faddr : byte_ptr) (pg bo : Z) : list log_rec :=
  let old := flst_read_addr f faddr in
  if page old =? pg then
    if boffset old =? bo then []
    else [LogWrite (faddr +! FIL_ADDR_BYTE) (mach_write_to_2 bo)]
  else if boffset old =? bo then
    [LogWrite (faddr +! FIL_ADDR_PAGE) (mach_write_to_4 pg)]
  else
    [LogWrite (faddr +! FIL_ADDR_PAGE)
              (fil_addr_bytes {| page := pg; boffset := bo |})].

(** A pointer that [flst_write_addr] accepts as a location and as a value:
    it lies past the page header and its offset fits [uint16_t]. *)
Definition ptr_ok (p : byte_ptr) : Prop := FIL_PAGE_DATA <= pos p < 65536.

(** A stored address that [flst_write_addr] accepts as a value. *)
Definition link_ok (a : fil_addr_t) : Prop :=
  page a = FIL_NULL \/ FIL_PAGE_DATA <= boffset a.

(** The file address of the node a pointer points to, and back. *)
Definition addr_of (p : byte_ptr) : fil_addr_t :=
  {| page := page_no p; boffset := page_offset p |}.

Definition node_ptr (a : fil_addr_t) : byte_ptr :=
  {| blk := page a; pos := boffset a |}.

(** The frames [flst_zero_both] leaves. *)
Definition zero_both_frames (f : frames) (addr : byte_ptr) : frames :=
  put_addr (put_addr f addr fil_addr_null) (addr +! FIL_ADDR_SIZE) fil_addr_null.

(** The frames [flst_init] leaves. *)
Definition init_frames (f : frames) (base : byte_ptr) : frames :=
  zero_both_frames (put_len f base 0) (base +! FLST_FIRST).

(** The frames [flst_add_to_empty] leaves. *)
Definition add_to_empty_frames (f : frames) (base add : byte_ptr) : frames :=
  let f1 := store_bytes f (base +! (FLST_LEN + 3)) (mach_write_to_1 1) in
  let f2 := put_addr f1 (base +! FLST_FIRST) (addr_of add) in
  let f3 := put_addr f2 (base +! FLST_LAST) (addr_of add) in
  zero_both_frames f3 (add +! FLST_PREV).

(** The frames after the neighbour of an inserted or removed node was
    fetched and its link written, when the fetch succeeded. *)
Definition fetch_put (io : Z -> dberr_t) (f : frames) (nb : fil_addr_t)
    (field : Z) (a : fil_addr_t) : frames :=
  match io (page nb) with
  | DB_SUCCESS => put_addr f (page_frame (page nb) +! boffset nb +! field) a
  | _ => f
  end.

Definition bump_len (f : frames) (base : byte_ptr) (d : Z) : frames :=
  put_len f base ((mach_read_from_4 f (base +! FLST_LEN) + d) mod 2 ^ 32).

(** The frames and the error code [flst_insert_after] leaves. *)
Definition insert_after_frames (io : Z -> dberr_t) (f : frames)
    (base cur add : byte_ptr) : frames :=
  let nx := flst_get_next_addr f cur in
  let f1 := put_addr f (add +! FLST_PREV) (addr_of cur) in
  let f2 := put_addr f1 (add +! FLST_NEXT) nx in
  let f3 := if page nx =? FIL_NULL
            then put_addr f2 (base +! FLST_LAST) (addr_of add)
            else fetch_put io f2 nx FLST_PREV (addr_of add) in
  let f4 := put_addr f3 (cur +! FLST_NEXT) (addr_of add) in
  bump_len f4 base 1.

Definition insert_after_err (io : Z -> dberr_t) (f : frames) (cur : byte_ptr) : dberr_t :=
  let nx := flst_get_next_addr f cur in
  if page nx =? FIL_NULL then DB_SUCCESS else io (page nx).

(** The frames and the error code [flst_insert_before] leaves. *)
Definition insert_before_frames (io : Z -> dberr_t) (f : frames)
    (base cur add : byte_ptr) : frames :=
  let pv := flst_get_prev_addr f cur in
  let f1 := put_addr f (add +! FLST_PREV) pv in
  let f2 := put_addr f1 (add +! FLST_NEXT) (addr_of cur) in
  let f3 := if page pv =? FIL_NULL
            then put_addr f2 (base +! FLST_FIRST) (addr_of add)
            else fetch_put io f2 pv FLST_NEXT (addr_of add) in
  let f4 := put_addr f3 (cur +! FLST_PREV) (addr_of add) in
  bump_len f4 base 1.

Definition insert_before_err (io : Z -> dberr_t) (f : frames) (cur : byte_ptr) : dberr_t :=
  let pv := flst_get_prev_addr f cur in
  if page pv =? FIL_NULL then DB_SUCCESS else io (page pv).

(** The frames [flst_remove] leaves after it relinked the predecessor side
    and the successor side, before it looks at the length. *)
Definition remove_links (io : Z -> dberr_t) (f : frames) (base cur : byte_ptr) : frames :=
  let pv := flst_get_prev_addr f cur in
  let nx := flst_get_next_addr f cur in
  let f1 := if page pv =? FIL_NULL
            then put_addr f (base +! FLST_FIRST) nx
            else if negb (page pv =? page_no cur)
            then fetch_put io f pv FLST_NEXT nx
            else put_addr f (page_align cur +! boffset pv +! FLST_NEXT) nx in
  if page nx =? FIL_NULL
  then put_addr f1 (base +! FLST_LAST) pv
  else if negb (page nx =? page_no cur)
  then fetch_put io f1 nx FLST_PREV pv
  else put_addr f1 (page_align cur +! boffset nx +! FLST_PREV) pv.

(** The error of the two fetches of [flst_remove]: the first that failed. *)
Definition remove_fetch_err (io : Z -> dberr_t) (f : frames) (cur : byte_ptr) : dberr_t :=
  let pv := flst_get_prev_addr f cur in
  let nx := flst_get_next_addr f cur in
  let err := if page pv =? FIL_NULL then DB_SUCCESS
             else if negb (page pv =? page_no cur) then io (page pv)
             else DB_SUCCESS in
  if page nx =? FIL_NULL then err
  else if negb (page nx =? page_no cur)
  then match io (page nx) with
       | DB_SUCCESS => err
       | err2 => if dberr_eqb err DB_SUCCESS then err2 else err
       end
  else err.

Definition remove_frames (io : Z -> dberr_t) (f : frames) (base cur : byte_ptr) : frames :=
  let f2 := remove_links io f base cur in
  if mach_read_from_4 f2 (base +! FLST_LEN) =? 0 then f2 else bump_len f2 base (-1).

Definition remove_err (io : Z -> dberr_t) (f : frames) (base cur : byte_ptr) : dberr_t :=
  let f2 := remove_links io f base cur in
  if mach_read_from_4 f2 (base +! FLST_LEN) =? 0 then DB_CORRUPTION
  else remove_fetch_err io f cur.

(** ** Lists of nodes *)

(** A node of a list: a page number other than [FIL_NULL], at an offset
    past the page header. *)
Definition node_ok (a : fil_addr_t) : Prop :=
  0 <= page a < FIL_NULL /\ ptr_ok (node_ptr a).

(** Two nodes, a base node and a node, that do not share a byte. *)
Definition node_apart (a b : fil_addr_t) : Prop :=
  apart (node_ptr a) FLST_NODE_SIZE (node_ptr b) FLST_NODE_SIZE.

Definition base_apart (base : byte_ptr) (a : fil_addr_t) : Prop :=
  apart base FLST_BASE_NODE_SIZE (node_ptr a) FLST_NODE_SIZE.

Fixpoint all_apart (L : list fil_addr_t) : Prop :=
  match L with
  | [] => True
  | a :: L' => Forall (node_apart a) L' /\ all_apart L'
  end.

(** The nodes of [L] are linked in this order: the first has [p] for its
    predecessor, the last has [q] for its successor. *)
Fixpoint chain (f : frames) (p : fil_addr_t) (L : list fil_addr_t)
    (q : fil_addr_t) : Prop :=
  match L with
  | [] => True
  | n :: L' =>
      flst_get_prev_addr f (node_ptr n) = p /\
      flst_get_next_addr f (node_ptr n) = hd q L' /\
      chain f n L' q
  end.

(** The base node at [base] holds the list [L]. *)
Record flst_inv (f : frames) (base : byte_ptr) (L : list fil_addr_t) : Prop := {
  inv_base : ptr_ok base;
  inv_len : flst_get_len f base = Z.of_nat (length L);
  inv_first : flst_get_first f base = hd fil_addr_null L;
  inv_last : flst_get_last f base = last L fil_addr_null;
  inv_chain : chain f fil_addr_null L fil_addr_null;
  inv_nodes : Forall node_ok L;
  inv_base_apart : Forall (base_apart base) L;
  inv_apart : all_apart L
}.

(** A node that may join the list [L]. *)
Definition fresh (base : byte_ptr) (L : list fil_addr_t) (add : fil_addr_t) : Prop :=
  node_ok add /\ base_apart base add /\ Forall (node_apart add) L.

(** Walking the list as [flst_validate] does: from [a], by [step]
    ([flst_get_next_addr] or [flst_get_prev_addr]), to a null address; the
    nodes met, or [None] when [fuel] hops do not reach a null address. *)
Fixpoint walk (step : frames -> byte_ptr -> fil_addr_t) (f : frames)
    (fuel : nat) (a : fil_addr_t) : option (list fil_addr_t) :=
  if page a =? FIL_NULL then Some []
  else match fuel with
       | O => None
       | S k =>
           match walk step f k (step f (page_frame (page a) +! boffset a)) with
           | Some l => Some (a :: l)
           | None => None
           end
       end.

(** The number of hops from [a] to a null address. *)
Definition hops (step : frames -> byte_ptr -> fil_addr_t) (f : frames)
    (fuel : nat) (a : fil_addr_t) : option nat :=
  option_map (@length fil_addr_t) (walk step f fuel a).

(** ** The validator *)

(** The loop of [flst_validate]: [i] hops from [addr] by [step], each on a
    page that is fetched; [None] when a fetch fails ([ut_ad(b)]). *)
Fixpoint validate_hops (io : Z -> dberr_t)
    (step : frames -> byte_ptr -> fil_addr_t) (f : frames) (i : nat)
    (addr : fil_addr_t) : option fil_addr_t :=
  match i with
  | O => Some addr
  | S i' =>
      match io (page addr) with
      | DB_SUCCESS =>
          validate_hops io step f i' (step f (page_frame (page addr) +! boffset addr))
      | _ => None
      end
  end.

(** Validate a file-based list: [true] when no assertion fails. *)
Definition flst_validate (io : Z -> dberr_t) (f : frames) (base : byte_ptr) : bool :=
  let len := Z.to_nat (flst_get_len f base) in
  match validate_hops io flst_get_next_addr f len (flst_get_first f base) with
  | Some addr => page addr =? FIL_NULL
  | None => false
  end &&
  match validate_hops io flst_get_prev_addr f len (flst_get_last f base) with
  | Some addr => page addr =? FIL_NULL
  | None => false
  end.

(** ** Sequences of operations *)

Inductive flst_op : Type :=
| AddFirst (add : fil_addr_t)
| AddLast (add : fil_addr_t)
| InsertBefore (cur add : fil_addr_t)
| InsertAfter (cur add : fil_addr_t)
| Remove (cur : fil_addr_t).

Definition run_op (io : Z -> dberr_t) (base : byte_ptr) (op : flst_op) : M dberr_t :=
  match op with
  | AddFirst add => flst_add_first io base (node_ptr add)
  | AddLast add => flst_add_last io base (node_ptr add)
  | InsertBefore cur add => flst_insert_before io base (node_ptr cur) (node_ptr add)
  | InsertAfter cur add => flst_insert_after io base (node_ptr cur) (node_ptr add)
  | Remove cur => flst_remove io base (node_ptr cur)
  end.

Definition fil_addr_eqb (a b : fil_addr_t) : bool :=
  (page a =? page b) && (boffset a =? boffset b).

(** The nodes of the list after an operation. *)
Fixpoint list_insert_after (cur add : fil_addr_t) (L : list fil_addr_t) : list fil_addr_t :=
  match L with
  | [] => []
  | x :: L' => if fil_addr_eqb x cur then x :: add :: L'
               else x :: list_insert_after cur add L'
  end.

Fixpoint list_insert_before (cur add : fil_addr_t) (L : list fil_addr_t) : list fil_addr_t :=
  match L with
  | [] => []
  | x :: L' => if fil_addr_eqb x cur then add :: x :: L'
               else x :: list_insert_before cur add L'
  end.

Fixpoint list_remove (cur : fil_addr_t) (L : list fil_addr_t) : list fil_addr_t :=
  match L with
  | [] => []
  | x :: L' => if fil_addr_eqb x cur then L' else x :: list_remove cur L'
  end.

Definition apply_op (op : flst_op) (L : list fil_addr_t) : list fil_addr_t :=
  match op with
  | AddFirst add => add :: L
  | AddLast add => L ++ [add]
  | InsertBefore cur add => list_insert_before cur add L
  | InsertAfter cur add => list_insert_after cur add L
  | Remove cur => list_remove cur L
  end.

(** What the caller owes: the node to add is a node, overlaps neither the
    base node nor a node of the list, and the counter has room for it; the
    node to insert at, or to remove, is in the list. *)
Definition op_ok (base : byte_ptr) (L : list fil_addr_t) (op : flst_op) : Prop :=
  match op with
  | AddFirst add | AddLast add =>
      fresh base L add /\ Z.of_nat (length L) + 1 < 2 ^ 32
  | InsertBefore cur add | InsertAfter cur add =>
      In cur L /\ fresh base L add /\ Z.of_nat (length L) + 1 < 2 ^ 32
  | Remove cur => In cur L
  end.

(** The states a base node goes through: [flst_init], then operations that
    each return [DB_SUCCESS]; with the nodes then in the list. *)
Inductive reachable (io : Z -> dberr_t) (base : byte_ptr) :
    mtr_t -> list fil_addr_t -> Prop :=
| reach_init m0 m :
    ptr_ok base -> flst_init base m0 = Done tt m -> reachable io base m []
| reach_step m L op m' :
    reachable io base m L -> op_ok base L op ->
    run_op io base op m = Done DB_SUCCESS m' ->
    reachable io base m' (apply_op op L).

(** ** A concrete buffer pool, for examples *)

(** Every page is there; the frames hold 0x07 everywhere; the base node is
    on page 1, the nodes [ex_A] and [ex_C] share page 2, [ex_B] is on
    page 3. *)
Definition ex_io : Z -> dberr_t := fun _ => DB_SUCCESS.
Definition ex_mtr : mtr_t :=
  {| m_frames := fun _ _ => byte.of_Z 7; m_log := [] |}.
Definition ex_base : byte_ptr := {| blk := 1; pos := 100 |}.
Definition ex_A : fil_addr_t := {| page := 2; boffset := 50 |}.
Definition ex_B : fil_addr_t := {| page := 3; boffset := 60 |}.
Definition ex_C : fil_addr_t := {| page := 2; boffset := 80 |}.

(** The state a computation leaves ([m] when it dies). *)
Definition state_of {A : Type} (m : mtr_t) (c : M A) : mtr_t :=
  match c m with
  | Done _ m' => m'
  | Crashed => m
  end.

Definition ex_m0 : mtr_t := state_of ex_mtr (flst_init ex_base).
Definition ex_m1 : mtr_t := state_of ex_m0 (run_op ex_io ex_base (AddLast ex_A)).
Definition ex_m2 : mtr_t := state_of ex_m1 (run_op ex_io ex_base (AddLast ex_B)).
Definition ex_m3 : mtr_t := state_of ex_m2 (run_op ex_io ex_base (InsertAfter ex_A ex_C)).
Definition ex_m4 : mtr_t := state_of ex_m3 (run_op ex_io ex_base (Remove ex_C)).

(** A page cache in which page 3 (the page of [ex_B]) cannot be read. *)
Definition ex_io_fail : Z -> dberr_t :=
  fun pg => if pg =? 3 then DB_IO_ERROR else DB_SUCCESS.

(** The neighbour [nb] of the node at [cur] is on another page, and the
    fetch of that page fails. *)
Definition fetch_fails (io : Z -> dberr_t) (cur : byte_ptr) (nb : fil_addr_t) : bool :=
  negb (page nb =? FIL_NULL) && negb (page nb =? page_no cur) &&
  negb (dberr_eqb (io (page nb)) DB_SUCCESS).

(** The byte ranges [flst_remove] may write: the length; FIRST of the base
    node or NEXT of the predecessor; LAST of the base node or PREV of the
    successor. *)
Definition remove_writes (f : frames) (base cur : byte_ptr) : list (byte_ptr * Z) :=
  let pv := flst_get_prev_addr f cur in
  let nx := flst_get_next_addr f cur in
  [ (base +! FLST_LEN, 4);
    (if page pv =? FIL_NULL then base +! FLST_FIRST else node_ptr pv +! FLST_NEXT,
     FIL_ADDR_SIZE);
    (if page nx =? FIL_NULL then base +! FLST_LAST else node_ptr nx +! FLST_PREV,
     FIL_ADDR_SIZE) ].


(** The convention on null addresses: offset 0 under the page number
    [FIL_NULL]. *)
Definition pinned (a : fil_addr_t) : Prop := page a = FIL_NULL -> boffset a = 0.

(** The address fields of a list: FIRST and LAST of the base node, PREV and
    NEXT of every node. *)
Definition list_fields (base : byte_ptr) (L : list fil_addr_t) : list byte_ptr :=
  (base +! FLST_FIRST) :: (base +! FLST_LAST) ::
  flat_map (fun n => [node_ptr n +! FLST_PREV; node_ptr n +! FLST_NEXT]) L.

(** The byte ranges [flst_insert_after] may write: the length; PREV and
    NEXT of the node added; NEXT of the node inserted after; LAST of the
    base node or PREV of the successor. *)
Definition insert_after_writes (f : frames) (base cur add : byte_ptr) : list (byte_ptr * Z) :=
  let nx := flst_get_next_addr f cur in
  [ (base +! FLST_LEN, 4);
    (add +! FLST_PREV, FLST_NODE_SIZE);
    (cur +! FLST_NEXT, FIL_ADDR_SIZE);
    (if page nx =? FIL_NULL then base +! FLST_LAST else node_ptr nx +! FLST_PREV,
     FIL_ADDR_SIZE) ].

(** The byte ranges [flst_insert_before] may write: the length; PREV and
    NEXT of the node added; PREV of the node inserted before; FIRST of the
    base node or NEXT of the predecessor. *)
Definition insert_before_writes (f : frames) (base cur add : byte_ptr) : list (byte_ptr * Z) :=
  let pv := flst_get_prev_addr f cur in
  [ (base +! FLST_LEN, 4);
    (add +! FLST_PREV, FLST_NODE_SIZE);
    (cur +! FLST_PREV, FIL_ADDR_SIZE);
    (if page pv =? FIL_NULL then base +! FLST_FIRST else node_ptr pv +! FLST_NEXT,
     FIL_ADDR_SIZE) ].


(** ** Replaying the log *)

(** Modelled from the spec: the recovery code is not part of the sources.
    A record is applied to the frames as its primitive is named,
    "log_write(page, offset, bytes)", "log_memset(page, offset, len, fill)",
    "log_memmove(page, dst_offset, src_offset, len)": the bytes are
    written, the fill byte is written [len] times, or [len] bytes are
    copied from the source to the destination. *)
Definition redo (r : log_rec) (f : frames) : frames :=
  match r with
  | LogWrite dst bs => store_bytes f dst bs
  | LogMemset dst len fill => store_bytes f dst (repeat fill len)
  | LogMemmove dst src len => store_bytes f dst (load_bytes f src len)
  end.

Definition replay (l : list log_rec) (f : frames) : frames :=
  fold_left (fun g r => redo r g) l f.

(** A computation whose every change to the frames is in the records it
    appends to the log. *)
Definition logged {A : Type} (c : M A) : Prop :=
  forall m a m', c m = Done a m' ->
    exists l, m_log m' = m_log m ++ l /\
              frames_eq (m_frames m') (replay l (m_frames m)).

(** The node an operation adds to the list. *)
Definition added (op : flst_op) : list fil_addr_t :=
  match op with
  | AddFirst add | AddLast add | InsertBefore _ add | InsertAfter _ add => [add]
  | Remove _ => []
  end.

(** ** Bytes and the big-endian codec *)

Lemma lor_shiftl_add (a b n : Z) :
  0 <= n -> 0 <= b < 2 ^ n -> Z.lor (Z.shiftl a n) b = a * 2 ^ n + b.
Proof.
  intros Hn Hb. rewrite <- Z.shiftl_mul_pow2 by lia.
  assert (H0 : Z.land (Z.shiftl a n) b = 0).
  { apply Z.bits_inj'. intros i Hi. rewrite Z.land_spec, Z.bits_0.
    destruct (Z.lt_ge_cases i n).
    - rewrite Z.shiftl_spec_low by lia. reflexivity.
    - rewrite <- (Z.mod_small b (2 ^ n)) by lia.
      rewrite Z.mod_pow2_bits_high by lia. apply andb_false_r. }
  rewrite Z.add_nocarry_lxor by exact H0.
  symmetry. apply Z.lxor_lor. exact H0.
Qed.

Lemma mach_read_from_2_eq f p :
  mach_read_from_2 f p =
  256 * byte.unsigned (load f p) + byte.unsigned (load f (p +! 1)).
Proof.
  unfold mach_read_from_2.
  pose proof (byte.unsigned_range (load f (p +! 1))).
  rewrite lor_shiftl_add by lia. lia.
Qed.

Lemma mach_read_from_4_eq f p :
  mach_read_from_4 f p =
  16777216 * byte.unsigned (load f p) + 65536 * byte.unsigned (load f (p +! 1))
  + 256 * byte.unsigned (load f (p +! 2)) + byte.unsigned (load f (p +! 3)).
Proof.
  unfold mach_read_from_4.
  pose proof (byte.unsigned_range (load f p)).
  pose proof (byte.unsigned_range (load f (p +! 1))).
  pose proof (byte.unsigned_range (load f (p +! 2))).
  pose proof (byte.unsigned_range (load f (p +! 3))).
  rewrite (lor_shiftl_add _ (byte.unsigned (load f (p +! 3))) 8) by lia.
  rewrite (lor_shiftl_add _ _ 16) by lia.
  rewrite (lor_shiftl_add _ _ 24) by lia. lia.
Qed.

Lemma mach_read_from_2_range f p : 0 <= mach_read_from_2 f p < 2 ^ 16.
Proof.
  rewrite mach_read_from_2_eq.
  pose proof (byte.unsigned_range (load f p)).
  pose proof (byte.unsigned_range (load f (p +! 1))). lia.
Qed.

Lemma mach_read_from_4_range f p : 0 <= mach_read_from_4 f p < 2 ^ 32.
Proof.
  rewrite mach_read_from_4_eq.
  pose proof (byte.unsigned_range (load f p)).
  pose proof (byte.unsigned_range (load f (p +! 1))).
  pose proof (byte.unsigned_range (load f (p +! 2))).
  pose proof (byte.unsigned_range (load f (p +! 3))). lia.
Qed.

Lemma unsigned_of_Z_shiftr v k :
  0 <= k -> byte.unsigned (byte.of_Z (Z.shiftr v k)) = (v / 2 ^ k) mod 256.
Proof.
  intros. rewrite byte.unsigned_of_Z. unfold byte.wrap.
  rewrite Z.shiftr_div_pow2 by lia. reflexivity.
Qed.

Lemma unsigned_of_Z_mod v : byte.unsigned (byte.of_Z v) = v mod 256.
Proof. rewrite byte.unsigned_of_Z. reflexivity. Qed.

Lemma be2_digits v a b :
  0 <= v < 65536 -> 0 <= a < 256 -> 0 <= b < 256 ->
  256 * a + b = v -> a = (v / 2 ^ 8) mod 256 /\ b = v mod 256.
Proof.
  intros. change (2 ^ 8) with 256.
  Z.to_euclidean_division_equations. lia.
Qed.

Lemma be4_digits v a b c d :
  0 <= v < 4294967296 ->
  0 <= a < 256 -> 0 <= b < 256 -> 0 <= c < 256 -> 0 <= d < 256 ->
  16777216 * a + 65536 * b + 256 * c + d = v ->
  a = (v / 2 ^ 24) mod 256 /\ b = (v / 2 ^ 16) mod 256 /\
  c = (v / 2 ^ 8) mod 256 /\ d = v mod 256.
Proof.
  intros. change (2 ^ 8) with 256. change (2 ^ 16) with 65536.
  change (2 ^ 24) with 16777216.
  Z.to_euclidean_division_equations. lia.
Qed.

Lemma byte_eqb_eq a b : byte_eqb a b = true <-> a = b.
Proof.
  unfold byte_eqb. rewrite Z.eqb_eq. split.
  - apply byte.unsigned_inj.
  - intros ->. reflexivity.
Qed.

Lemma bytes_eqb_eq a b : bytes_eqb a b = true <-> a = b.
Proof.
  revert b. induction a as [|x a IH]; intros [|y b]; simpl; try (split; congruence).
  rewrite andb_true_iff, byte_eqb_eq, IH. split.
  - intros [-> ->]. reflexivity.
  - intros E. inversion E. auto.
Qed.

Ltac zbool :=
  repeat match goal with
    | |- context [Z.eqb ?a ?b] => destruct (Z.eqb_spec a b)
    | |- context [Z.leb ?a ?b] => destruct (Z.leb_spec a b)
    | |- context [Z.ltb ?a ?b] => destruct (Z.ltb_spec a b)
    end; cbn [andb orb negb].

Lemma ptr_add_add p a b : p +! a +! b = p +! (a + b).
Proof. unfold ptr_add. simpl. f_equal. lia. Qed.

Lemma ptr_add_0 p : p +! 0 = p.
Proof. destruct p. unfold ptr_add. simpl. f_equal. lia. Qed.


Lemma store_bytes_get f p bs pg o :
  store_bytes f p bs pg o =
  if (pg =? blk p) && (pos p <=? o) && (o <? pos p + Z.of_nat (length bs))
  then nth (Z.to_nat (o - pos p)) bs Byte.x00
  else f pg o.
Proof.
  revert f p. induction bs as [|b bs IH]; intros f p.
  - cbn [store_bytes length]. zbool; try reflexivity; lia.
  - cbn [store_bytes]. rewrite IH. unfold store. cbn [ptr_add blk pos length].
    zbool; try reflexivity; try lia.
    + subst o. rewrite Z.sub_diag. reflexivity.
    + replace (Z.to_nat (o - pos p)) with (S (Z.to_nat (o - (pos p + 1)))) by lia.
      reflexivity.
Qed.

Lemma store_bytes_out f p bs pg o :
  ~ in_range p (Z.of_nat (length bs)) pg o -> store_bytes f p bs pg o = f pg o.
Proof.
  intros H. rewrite store_bytes_get. unfold in_range in H.
  zbool; try reflexivity. exfalso. apply H. lia.
Qed.

Lemma store_bytes_in f p bs q i :
  blk q = blk p -> pos q = pos p + Z.of_nat i -> (i < length bs)%nat ->
  load (store_bytes f p bs) q = nth i bs Byte.x00.
Proof.
  intros Hb Hp H. unfold load. rewrite store_bytes_get, Hb, Hp.
  zbool; try lia. f_equal. lia.
Qed.

Lemma store_bytes_ext f g p bs :
  frames_eq f g -> frames_eq (store_bytes f p bs) (store_bytes g p bs).
Proof.
  intros H pg o. rewrite !store_bytes_get. rewrite H. reflexivity.
Qed.

Lemma load_ext f g p : frames_eq f g -> load f p = load g p.
Proof. intros H. apply H. Qed.

Lemma load_bytes_ext f g p n : frames_eq f g -> load_bytes f p n = load_bytes g p n.
Proof.
  intros H. revert p. induction n; intros p; simpl; [reflexivity|].
  rewrite IHn. f_equal. apply H. 
Qed.

Lemma mach_read_from_4_ext f g p : frames_eq f g -> mach_read_from_4 f p = mach_read_from_4 g p.
Proof. intros H. unfold mach_read_from_4, load. rewrite !H. reflexivity. Qed.

Lemma mach_read_from_2_ext f g p : frames_eq f g -> mach_read_from_2 f p = mach_read_from_2 g p.
Proof. intros H. unfold mach_read_from_2, load. rewrite !H. reflexivity. Qed.

Lemma flst_read_addr_ext f g p : frames_eq f g -> flst_read_addr f p = flst_read_addr g p.
Proof.
  intros H. unfold flst_read_addr.
  rewrite (mach_read_from_4_ext f g), (mach_read_from_2_ext f g) by exact H.
  reflexivity.
Qed.

Lemma load_store_bytes_apart f p bs q :
  apart p (Z.of_nat (length bs)) q 1 -> load (store_bytes f p bs) q = load f q.
Proof.
  intros H. unfold load. apply store_bytes_out. unfold in_range, apart in *. lia.
Qed.

Lemma mach_read_from_4_apart f p bs q :
  apart p (Z.of_nat (length bs)) q 4 ->
  mach_read_from_4 (store_bytes f p bs) q = mach_read_from_4 f q.
Proof.
  intros H. unfold mach_read_from_4.
  rewrite !load_store_bytes_apart by (unfold apart in *; cbn [ptr_add blk pos]; lia).
  reflexivity.
Qed.

Lemma mach_read_from_2_apart f p bs q :
  apart p (Z.of_nat (length bs)) q 2 ->
  mach_read_from_2 (store_bytes f p bs) q = mach_read_from_2 f q.
Proof.
  intros H. unfold mach_read_from_2.
  rewrite !load_store_bytes_apart by (unfold apart in *; cbn [ptr_add blk pos]; lia).
  reflexivity.
Qed.

Lemma flst_read_addr_apart f p bs q :
  apart p (Z.of_nat (length bs)) q FIL_ADDR_SIZE ->
  flst_read_addr (store_bytes f p bs) q = flst_read_addr f q.
Proof.
  intros H. unfold flst_read_addr.
  rewrite mach_read_from_4_apart, mach_read_from_2_apart; [reflexivity| |];
    unfold apart, FIL_ADDR_SIZE, FIL_ADDR_BYTE, FIL_ADDR_PAGE in *;
    cbn [ptr_add blk pos]; lia.
Qed.

Lemma mach_read_write_4 f p v :
  0 <= v < 2 ^ 32 ->
  mach_read_from_4 (store_bytes f p (mach_write_to_4 v)) p = v.
Proof.
  intros Hv. rewrite mach_read_from_4_eq.
  rewrite (store_bytes_in f p _ p 0), (store_bytes_in f p _ (p +! 1) 1),
    (store_bytes_in f p _ (p +! 2) 2), (store_bytes_in f p _ (p +! 3) 3)
    by (cbn [ptr_add blk pos mach_write_to_4 length]; lia).
  cbn [mach_write_to_4 nth].
  rewrite !unsigned_of_Z_shiftr, unsigned_of_Z_mod by lia.
  change (2^8) with 256. change (2^16) with 65536. change (2^24) with 16777216.
  Z.to_euclidean_division_equations. lia.
Qed.

Lemma mach_read_write_2 f p v :
  0 <= v < 2 ^ 16 ->
  mach_read_from_2 (store_bytes f p (mach_write_to_2 v)) p = v.
Proof.
  intros Hv. rewrite mach_read_from_2_eq.
  rewrite (store_bytes_in f p _ p 0), (store_bytes_in f p _ (p +! 1) 1)
    by (cbn [ptr_add blk pos mach_write_to_2 length]; lia).
  cbn [mach_write_to_2 nth].
  rewrite !unsigned_of_Z_shiftr, unsigned_of_Z_mod by lia.
  change (2^8) with 256.
  Z.to_euclidean_division_equations. lia.
Qed.

Lemma flst_read_put_addr f p a :
  0 <= page a < 2 ^ 32 -> 0 <= boffset a < 2 ^ 16 ->
  flst_read_addr (put_addr f p a) p = a.
Proof.
  intros Hp Ho. destruct a as [pg bo]. cbn [page boffset] in *.
  unfold flst_read_addr, put_addr, fil_addr_bytes. cbn [page boffset].
  f_equal.
  - rewrite mach_read_from_4_eq.
    rewrite (store_bytes_in f _ _ (p +! FIL_ADDR_PAGE) 0),
      (store_bytes_in f _ _ (p +! FIL_ADDR_PAGE +! 1) 1),
      (store_bytes_in f _ _ (p +! FIL_ADDR_PAGE +! 2) 2),
      (store_bytes_in f _ _ (p +! FIL_ADDR_PAGE +! 3) 3)
      by (cbn [ptr_add blk pos mach_write_to_4 mach_write_to_2 length app]; lia).
    cbn [mach_write_to_4 mach_write_to_2 nth app].
    rewrite !unsigned_of_Z_shiftr, unsigned_of_Z_mod by lia.
    change (2^8) with 256. change (2^16) with 65536. change (2^24) with 16777216.
    Z.to_euclidean_division_equations. lia.
  - rewrite mach_read_from_2_eq.
    rewrite (store_bytes_in f _ _ (p +! FIL_ADDR_BYTE) 4),
      (store_bytes_in f _ _ (p +! FIL_ADDR_BYTE +! 1) 5)
      by (unfold FIL_ADDR_BYTE, FIL_ADDR_PAGE;
          cbn [ptr_add blk pos mach_write_to_4 mach_write_to_2 length app]; lia).
    cbn [mach_write_to_4 mach_write_to_2 nth app].
    rewrite !unsigned_of_Z_shiftr, unsigned_of_Z_mod by lia.
    change (2^8) with 256.
    Z.to_euclidean_division_equations. lia.
Qed.

Lemma load_bytes_4_of_read f p v :
  mach_read_from_4 f p = v -> load_bytes f p 4 = mach_write_to_4 v.
Proof.
  intros E. pose proof (mach_read_from_4_range f p) as R. rewrite E in R.
  rewrite mach_read_from_4_eq in E.
  pose proof (byte.unsigned_range (load f p)).
  pose proof (byte.unsigned_range (load f (p +! 1))).
  pose proof (byte.unsigned_range (load f (p +! 2))).
  pose proof (byte.unsigned_range (load f (p +! 3))).
  change (2 ^ 8) with 256 in *. change (2 ^ 32) with 4294967296 in R.
  destruct (be4_digits v _ _ _ _ R H H0 H1 H2 E) as (E0 & E1 & E2 & E3).
  cbn [load_bytes]. unfold mach_write_to_4.
  rewrite !ptr_add_add. cbn [Z.add Pos.add Pos.succ].
  repeat f_equal; apply byte.unsigned_inj;
    rewrite ?unsigned_of_Z_shiftr, ?unsigned_of_Z_mod by lia; assumption.
Qed.

Lemma load_bytes_2_of_read f p v :
  mach_read_from_2 f p = v -> load_bytes f p 2 = mach_write_to_2 v.
Proof.
  intros E. pose proof (mach_read_from_2_range f p) as R. rewrite E in R.
  rewrite mach_read_from_2_eq in E.
  pose proof (byte.unsigned_range (load f p)).
  pose proof (byte.unsigned_range (load f (p +! 1))).
  change (2 ^ 8) with 256 in *. change (2 ^ 16) with 65536 in R.
  destruct (be2_digits v _ _ R H H0 E) as (E0 & E1).
  cbn [load_bytes]. unfold mach_write_to_2.
  repeat f_equal; apply byte.unsigned_inj;
    rewrite ?unsigned_of_Z_shiftr, ?unsigned_of_Z_mod by lia; assumption.
Qed.

Lemma frames_eq_refl f : frames_eq f f.
Proof. intros pg o. reflexivity. Qed.

Lemma frames_eq_sym f g : frames_eq f g -> frames_eq g f.
Proof. intros H pg o. symmetry. apply H. Qed.

Lemma frames_eq_trans f g h : frames_eq f g -> frames_eq g h -> frames_eq f h.
Proof. intros H1 H2 pg o. rewrite H1. apply H2. Qed.

Lemma nth_load_bytes f p n i :
  (i < n)%nat -> nth i (load_bytes f p n) Byte.x00 = load f (p +! Z.of_nat i).
Proof.
  revert p i. induction n as [|n IH]; intros p i Hi; [lia|].
  destruct i as [|i]; cbn [load_bytes nth].
  - rewrite ptr_add_0. reflexivity.
  - rewrite IH by lia. rewrite ptr_add_add. f_equal. f_equal. lia.
Qed.

Lemma load_bytes_length f p n : length (load_bytes f p n) = n.
Proof. revert p. induction n; intros p; simpl; [reflexivity|]. rewrite IHn. reflexivity. Qed.

Lemma store_bytes_same f p bs :
  load_bytes f p (length bs) = bs -> frames_eq (store_bytes f p bs) f.
Proof.
  intros E pg o. rewrite store_bytes_get.
  zbool; try reflexivity.
  rewrite <- E at 1. rewrite nth_load_bytes by lia.
  unfold load, ptr_add. simpl. subst pg. f_equal. lia.
Qed.

Lemma store_bytes_app f p a b :
  store_bytes f p (a ++ b) = store_bytes (store_bytes f p a) (p +! Z.of_nat (length a)) b.
Proof.
  revert f p. induction a as [|x a IH]; intros f p.
  - simpl. rewrite ptr_add_0. reflexivity.
  - cbn [app store_bytes length]. rewrite IH, ptr_add_add. do 2 f_equal. lia.
Qed.

Lemma load_bytes_apart f p bs q n :
  apart p (Z.of_nat (length bs)) q (Z.of_nat n) ->
  load_bytes (store_bytes f p bs) q n = load_bytes f q n.
Proof.
  revert q. induction n as [|n IH]; intros q H; [reflexivity|].
  cbn [load_bytes]. rewrite IH, load_store_bytes_apart; [reflexivity| |];
    unfold apart in *; simpl; lia.
Qed.

Lemma frames_eq_put_addr f faddr pg bo :
  let a := {| page := pg; boffset := bo |} in
  let old := flst_read_addr f faddr in
  frames_eq
    (if page old =? pg then
       if boffset old =? bo then f
       else store_bytes f (faddr +! FIL_ADDR_BYTE) (mach_write_to_2 bo)
     else if boffset old =? bo then
       store_bytes f (faddr +! FIL_ADDR_PAGE) (mach_write_to_4 pg)
     else store_bytes f (faddr +! FIL_ADDR_PAGE) (fil_addr_bytes a))
    (put_addr f faddr a).
Proof.
  intros a old. subst a old. unfold put_addr, fil_addr_bytes. cbn [page boffset flst_read_addr].
  rewrite store_bytes_app.
  replace (faddr +! FIL_ADDR_PAGE +! Z.of_nat (length (mach_write_to_4 pg)))
    with (faddr +! FIL_ADDR_BYTE)
    by (unfold FIL_ADDR_PAGE, FIL_ADDR_BYTE; rewrite ptr_add_add; reflexivity).
  destruct (Z.eqb_spec (mach_read_from_4 f (faddr +! FIL_ADDR_PAGE)) pg) as [Ep|Ep];
    destruct (Z.eqb_spec (mach_read_from_2 f (faddr +! FIL_ADDR_BYTE)) bo) as [Eo|Eo].
  - apply frames_eq_sym.
    apply load_bytes_4_of_read in Ep. apply load_bytes_2_of_read in Eo.
    eapply frames_eq_trans; [apply store_bytes_same|apply store_bytes_same; exact Ep].
    rewrite load_bytes_apart; [exact Eo|].
    unfold apart, FIL_ADDR_PAGE, FIL_ADDR_BYTE; simpl; lia.
  - apply store_bytes_ext. apply frames_eq_sym, store_bytes_same.
    apply load_bytes_4_of_read. exact Ep.
  - apply frames_eq_sym, store_bytes_same.
    rewrite load_bytes_apart; [apply load_bytes_2_of_read; exact Eo|].
    unfold apart, FIL_ADDR_PAGE, FIL_ADDR_BYTE; simpl; lia.
  - apply frames_eq_refl.
Qed.

Lemma flst_write_addr_run faddr pg bo m :
  (pg = FIL_NULL \/ FIL_PAGE_DATA <= bo) -> FIL_PAGE_DATA <= pos faddr ->
  exists m',
    flst_write_addr faddr pg bo m = Done tt m' /\
    frames_eq (m_frames m') (put_addr (m_frames m) faddr {| page := pg; boffset := bo |}) /\
    m_log m' = m_log m ++ write_addr_log (m_frames m) faddr pg bo.
Proof.
  intros Hnull Hpos.
  pose proof (frames_eq_put_addr (m_frames m) faddr pg bo) as HF.
  cbv zeta in HF. unfold write_addr_log.
  unfold flst_write_addr, bind, ut_a, gets.
  replace ((pg =? FIL_NULL) || (FIL_PAGE_DATA <=? bo)) with true
    by (symmetry; apply orb_true_iff; rewrite Z.eqb_eq, Z.leb_le; exact Hnull).
  replace (FIL_PAGE_DATA <=? pos faddr) with true by (symmetry; apply Z.leb_le; exact Hpos).
  cbn [flst_read_addr page boffset] in *.
  destruct (mach_read_from_4 (m_frames m) (faddr +! FIL_ADDR_PAGE) =? pg);
    destruct (mach_read_from_2 (m_frames m) (faddr +! FIL_ADDR_BYTE) =? bo);
    cbn [negb]; unfold mtr_write, mtr_memcpy, bind, poke, log_append, ret;
    eexists; (split; [reflexivity|]); cbn [m_frames m_log]; split;
    try exact HF; try reflexivity.
  rewrite app_nil_r. reflexivity.
Qed.

(** ** Weakest preconditions *)

Lemma wp_done {A} (c : M A) m (Q : A -> mtr_t -> Prop) :
  wp c m Q <-> exists a m', c m = Done a m' /\ Q a m'.
Proof.
  unfold wp. destruct (c m) as [a m'|]; split.
  - intros H. exists a, m'. auto.
  - intros (a' & m'' & E & H). inversion E. subst. exact H.
  - intros [].
  - intros (a' & m'' & E & _). discriminate.
Qed.

Lemma wp_mono {A} (c : M A) m (Q Q' : A -> mtr_t -> Prop) :
  wp c m Q -> (forall a m', Q a m' -> Q' a m') -> wp c m Q'.
Proof. unfold wp. destruct (c m); auto. Qed.

Lemma wp_ret {A} (a : A) m (Q : A -> mtr_t -> Prop) : Q a m -> wp (ret a) m Q.
Proof. exact (fun H => H). Qed.

Lemma wp_bind {A B} (c : M A) (k : A -> M B) m (Q : B -> mtr_t -> Prop) :
  wp c m (fun a m' => wp (k a) m' Q) -> wp (bind c k) m Q.
Proof. unfold wp, bind. destruct (c m); auto. Qed.

Lemma wp_ut_a (c : bool) m (Q : unit -> mtr_t -> Prop) :
  c = true -> Q tt m -> wp (ut_a c) m Q.
Proof. intros -> H. exact H. Qed.

Lemma wp_gets {A} (g : frames -> A) m f0 (Q : A -> mtr_t -> Prop) :
  frames_eq (m_frames m) f0 ->
  (forall f f', frames_eq f f' -> g f = g f') ->
  Q (g f0) m -> wp (gets g) m Q.
Proof. intros E Hg H. unfold wp, gets. rewrite (Hg _ _ E). exact H. Qed.

Lemma wp_poke dst bs m f0 (Q : unit -> mtr_t -> Prop) :
  frames_eq (m_frames m) f0 ->
  (forall m', frames_eq (m_frames m') (store_bytes f0 dst bs) ->
              m_log m' = m_log m -> Q tt m') ->
  wp (poke dst bs) m Q.
Proof.
  intros E H. unfold wp, poke. apply H; [|reflexivity].
  apply store_bytes_ext. exact E.
Qed.

Lemma wp_log_append r m f0 (Q : unit -> mtr_t -> Prop) :
  frames_eq (m_frames m) f0 ->
  (forall m', frames_eq (m_frames m') f0 ->
              m_log m' = m_log m ++ [r] -> Q tt m') ->
  wp (log_append r) m Q.
Proof. intros E H. unfold wp, log_append. apply H; [exact E|reflexivity]. Qed.

Lemma wp_mtr_memcpy dst bs m f0 (Q : unit -> mtr_t -> Prop) :
  frames_eq (m_frames m) f0 ->
  (forall m', frames_eq (m_frames m') (store_bytes f0 dst bs) ->
              m_log m' = m_log m ++ [LogWrite dst bs] -> Q tt m') ->
  wp (mtr_memcpy dst bs) m Q.
Proof.
  intros E H. unfold mtr_memcpy. apply wp_bind.
  apply (wp_poke _ _ _ f0 _ E). intros m1 F1 L1.
  apply (wp_log_append _ _ _ _ F1). intros m2 F2 L2.
  apply H; [exact F2|]. rewrite L2, L1. reflexivity.
Qed.

Lemma wp_mtr_write bs dst m f0 (Q : unit -> mtr_t -> Prop) :
  frames_eq (m_frames m) f0 ->
  (forall m', frames_eq (m_frames m') (store_bytes f0 dst bs) ->
              m_log m' = m_log m ++ [LogWrite dst bs] -> Q tt m') ->
  wp (mtr_write bs dst) m Q.
Proof. apply wp_mtr_memcpy. Qed.

Lemma wp_mtr_write_maybe_nop bs dst m f0 (Q : unit -> mtr_t -> Prop) :
  frames_eq (m_frames m) f0 ->
  (forall m', frames_eq (m_frames m') (store_bytes f0 dst bs) ->
              m_log m' = m_log m ++
                (if bytes_eqb (load_bytes f0 dst (length bs)) bs
                 then [] else [LogWrite dst bs]) -> Q tt m') ->
  wp (mtr_write_maybe_nop bs dst) m Q.
Proof.
  intros E H. unfold mtr_write_maybe_nop. apply wp_bind.
  apply (wp_gets _ _ f0 _ E).
  { intros f f' Hf. apply load_bytes_ext. exact Hf. }
  destruct (bytes_eqb (load_bytes f0 dst (length bs)) bs) eqn:Eb.
  - apply wp_ret. apply H; [|rewrite app_nil_r; reflexivity].
    apply bytes_eqb_eq in Eb.
    eapply frames_eq_trans; [exact E|]. apply frames_eq_sym, store_bytes_same. exact Eb.
  - apply (wp_mtr_memcpy _ _ _ f0 _ E). exact H.
Qed.

Lemma wp_mtr_memset dst len fill m f0 (Q : unit -> mtr_t -> Prop) :
  frames_eq (m_frames m) f0 ->
  (forall m', frames_eq (m_frames m') (store_bytes f0 dst (repeat fill len)) ->
              m_log m' = m_log m ++ [LogMemset dst len fill] -> Q tt m') ->
  wp (mtr_memset dst len fill) m Q.
Proof.
  intros E H. unfold mtr_memset. apply wp_bind.
  apply (wp_poke _ _ _ f0 _ E). intros m1 F1 L1.
  apply (wp_log_append _ _ _ _ F1). intros m2 F2 L2.
  apply H; [exact F2|]. rewrite L2, L1. reflexivity.
Qed.

Lemma wp_mtr_memmove dst src len m f0 (Q : unit -> mtr_t -> Prop) :
  frames_eq (m_frames m) f0 ->
  (forall m', frames_eq (m_frames m') f0 ->
              m_log m' = m_log m ++ [LogMemmove dst src len] -> Q tt m') ->
  wp (mtr_memmove dst src len) m Q.
Proof. apply wp_log_append. Qed.

Lemma wp_memcpy dst src len m f0 (Q : unit -> mtr_t -> Prop) :
  frames_eq (m_frames m) f0 ->
  (forall m', frames_eq (m_frames m') (store_bytes f0 dst (load_bytes f0 src len)) ->
              m_log m' = m_log m -> Q tt m') ->
  wp (memcpy dst src len) m Q.
Proof.
  intros E H. unfold memcpy. apply wp_bind.
  apply (wp_gets _ _ f0 _ E).
  { intros f f' Hf. apply load_bytes_ext. exact Hf. }
  apply (wp_poke _ _ _ f0 _ E). exact H.
Qed.

Lemma put_addr_ext f g p a :
  frames_eq f g -> frames_eq (put_addr f p a) (put_addr g p a).
Proof. apply store_bytes_ext. Qed.

Lemma wp_flst_write_addr faddr pg bo m f0 (Q : unit -> mtr_t -> Prop) :
  frames_eq (m_frames m) f0 ->
  (pg = FIL_NULL \/ FIL_PAGE_DATA <= bo) -> FIL_PAGE_DATA <= pos faddr ->
  (forall m', frames_eq (m_frames m') (put_addr f0 faddr {| page := pg; boffset := bo |}) ->
              m_log m' = m_log m ++ write_addr_log f0 faddr pg bo -> Q tt m') ->
  wp (flst_write_addr faddr pg bo) m Q.
Proof.
  intros E Hn Hp H.
  destruct (flst_write_addr_run faddr pg bo m Hn Hp) as (m' & R & F & L).
  unfold wp. rewrite R. apply H.
  - eapply frames_eq_trans; [exact F|]. apply put_addr_ext. exact E.
  - rewrite L. f_equal. unfold write_addr_log.
    rewrite (flst_read_addr_ext _ _ _ E). reflexivity.
Qed.

Lemma load_store_bytes_same f p bs :
  load_bytes (store_bytes f p bs) p (length bs) = bs.
Proof.
  apply nth_ext with (d := Byte.x00) (d' := Byte.x00).
  - apply load_bytes_length.
  - intros i Hi. rewrite load_bytes_length in Hi.
    rewrite nth_load_bytes by exact Hi.
    apply store_bytes_in; [reflexivity|reflexivity|exact Hi].
Qed.

Lemma put_addr_unfold f p a : put_addr f p a = store_bytes f p (fil_addr_bytes a).
Proof. unfold put_addr, FIL_ADDR_PAGE. rewrite ptr_add_0. reflexivity. Qed.

Lemma load_bytes_put_addr f p a :
  load_bytes (put_addr f p a) p (Z.to_nat FIL_ADDR_SIZE) = fil_addr_bytes a.
Proof.
  rewrite put_addr_unfold.
  exact (load_store_bytes_same f p (fil_addr_bytes a)).
Qed.

(** What [flst_zero_both] leaves in the frames, in the log. *)
Lemma wp_flst_zero_both addr m f0 (Q : unit -> mtr_t -> Prop) :
  frames_eq (m_frames m) f0 ->
  (forall m',
      frames_eq (m_frames m')
        (put_addr (put_addr f0 addr fil_addr_null) (addr +! FIL_ADDR_SIZE) fil_addr_null) ->
      Q tt m') ->
  wp (flst_zero_both addr) m Q.
Proof.
  intros E H. unfold flst_zero_both.
  apply wp_bind. apply (wp_gets _ _ f0 _ E).
  { intros f f' Hf. apply mach_read_from_4_ext. exact Hf. }
  apply wp_bind.
  assert (S1 : forall (Q1 : unit -> mtr_t -> Prop),
             (forall m1, frames_eq (m_frames m1)
                           (store_bytes f0 (addr +! FIL_ADDR_PAGE) (mach_write_to_4 FIL_NULL)) ->
                         Q1 tt m1) ->
             wp (if negb (mach_read_from_4 f0 (addr +! FIL_ADDR_PAGE) =? FIL_NULL)
                 then mtr_memset (addr +! FIL_ADDR_PAGE) 4 (byte.of_Z 255)
                 else ret tt) m Q1).
  { intros Q1 H1.
    destruct (Z.eqb_spec (mach_read_from_4 f0 (addr +! FIL_ADDR_PAGE)) FIL_NULL) as [En|En];
      cbn [negb].
    - apply wp_ret. apply H1. eapply frames_eq_trans; [exact E|].
      apply frames_eq_sym, store_bytes_same. apply load_bytes_4_of_read. exact En.
    - apply (wp_mtr_memset _ _ _ _ f0 _ E). intros m1 F1 _. apply H1. exact F1. }
  apply S1. intros m1 F1.
  apply wp_bind. apply (wp_mtr_write_maybe_nop _ _ _ _ _ F1). intros m2 F2 _.
  apply wp_bind. apply (wp_memcpy _ _ _ _ _ _ F2). intros m3 F3 _.
  apply (wp_mtr_memmove _ _ _ _ _ _ F3). intros m4 F4 _.
  apply H. eapply frames_eq_trans; [exact F4|].
  assert (P : frames_eq
                (store_bytes (store_bytes f0 (addr +! FIL_ADDR_PAGE) (mach_write_to_4 FIL_NULL))
                             (addr +! FIL_ADDR_BYTE) (mach_write_to_2 0))
                (put_addr f0 addr fil_addr_null)).
  { unfold put_addr, fil_addr_bytes, fil_addr_null. cbn [page boffset].
    rewrite store_bytes_app. unfold FIL_ADDR_PAGE, FIL_ADDR_BYTE.
    rewrite ptr_add_add. apply frames_eq_refl. }
  eapply frames_eq_trans.
  { apply store_bytes_ext. exact P. }
  rewrite (load_bytes_ext _ _ _ _ P).
  rewrite load_bytes_put_addr.
  rewrite (put_addr_unfold _ (addr +! FIL_ADDR_SIZE)).
  apply frames_eq_refl.
Qed.

(** ** The functions of fut0lst.cc and the frames they leave *)

Lemma zero_both_frames_ext f g p :
  frames_eq f g -> frames_eq (zero_both_frames f p) (zero_both_frames g p).
Proof. intros H. unfold zero_both_frames. apply put_addr_ext, put_addr_ext, H. Qed.

Lemma wp_flst_init base m f0 (Q : unit -> mtr_t -> Prop) :
  frames_eq (m_frames m) f0 ->
  (forall m', frames_eq (m_frames m') (init_frames f0 base) -> Q tt m') ->
  wp (flst_init base) m Q.
Proof.
  intros E H. unfold flst_init. apply wp_bind.
  apply (wp_mtr_write_maybe_nop _ _ _ _ _ E). intros m1 F1 _.
  apply (wp_flst_zero_both _ _ _ _ F1). intros m2 F2. apply H. exact F2.
Qed.

Lemma ptr_ok_offset p : ptr_ok p -> page_offset p = pos p.
Proof. unfold ptr_ok, page_offset. intros H. apply Z.mod_small. unfold FIL_PAGE_DATA in H. lia. Qed.

Lemma wp_flst_add_to_empty base add m f0 (Q : unit -> mtr_t -> Prop) :
  frames_eq (m_frames m) f0 ->
  FIL_PAGE_DATA <= pos base + FLST_FIRST -> link_ok (addr_of add) ->
  (forall m', frames_eq (m_frames m') (add_to_empty_frames f0 base add) -> Q tt m') ->
  wp (flst_add_to_empty base add) m Q.
Proof.
  intros E Hb Ha H. unfold flst_add_to_empty.
  apply wp_bind. apply (wp_mtr_write _ _ _ _ _ E). intros m1 F1 _.
  apply wp_bind. apply (wp_flst_write_addr _ _ _ _ _ _ F1); [exact Ha|exact Hb|].
  intros m2 F2 _.
  apply wp_bind. apply (wp_memcpy _ _ _ _ _ _ F2). intros m3 F3 _.
  apply wp_bind. apply (wp_mtr_memmove _ _ _ _ _ _ F3). intros m4 F4 _.
  apply (wp_flst_zero_both _ _ _ _ F4). intros m5 F5. apply H.
  rewrite load_bytes_put_addr in F5.
  unfold add_to_empty_frames. cbv zeta.
  rewrite (put_addr_unfold _ (base +! FLST_LAST)). exact F5.
Qed.

Ltac wa_side :=
  unfold link_ok, ptr_ok, addr_of, page_frame, page_align, page_no,
    FIL_PAGE_DATA, FLST_FIRST, FLST_LAST, FLST_PREV, FLST_NEXT, FLST_LEN,
    FIL_ADDR_SIZE, FIL_NULL in *;
  cbn [page boffset blk pos ptr_add] in *; lia.

Lemma wp_buf_page_get_gen io pg m (Q : option Z * dberr_t -> mtr_t -> Prop) :
  Q (match io pg with DB_SUCCESS => (Some pg, DB_SUCCESS) | e => (None, e) end) m ->
  wp (buf_page_get_gen io pg) m Q.
Proof. unfold wp, buf_page_get_gen. destruct (io pg); exact (fun H => H). Qed.

Lemma bump_len_ext f g base d :
  frames_eq f g -> frames_eq (bump_len f base d) (bump_len g base d).
Proof.
  intros H. unfold bump_len, put_len.
  rewrite (mach_read_from_4_ext _ _ _ H). apply store_bytes_ext, H.
Qed.

Lemma wp_bump_len {A} base d (k : M A) m f0 (Q : A -> mtr_t -> Prop) :
  frames_eq (m_frames m) f0 ->
  (forall m', frames_eq (m_frames m') (bump_len f0 base d) -> wp k m' Q) ->
  wp (len <- gets (fun f => mach_read_from_4 f (base +! FLST_LEN)) ;;
      mtr_write (mach_write_to_4 ((len + d) mod 2 ^ 32)) (base +! FLST_LEN) ;;; k) m Q.
Proof.
  intros E H. apply wp_bind. apply (wp_gets _ _ f0 _ E).
  { intros f f' Hf. apply mach_read_from_4_ext, Hf. }
  apply wp_bind.
  apply (wp_mtr_write _ _ _ _ _ E). intros m1 F1 _. apply H. exact F1.
Qed.

Lemma wp_flst_insert_after io base cur add m f0 (Q : dberr_t -> mtr_t -> Prop) :
  frames_eq (m_frames m) f0 ->
  ptr_ok base -> ptr_ok cur -> ptr_ok add ->
  link_ok (flst_get_next_addr f0 cur) ->
  (forall m', frames_eq (m_frames m') (insert_after_frames io f0 base cur add) ->
              Q (insert_after_err io f0 cur) m') ->
  wp (flst_insert_after io base cur add) m Q.
Proof.
  intros E Hb Hc Ha Hn H.
  pose proof (ptr_ok_offset _ Hc) as Oc. pose proof (ptr_ok_offset _ Ha) as Oa.
  unfold flst_insert_after, insert_after_frames, insert_after_err in *.
  apply wp_bind. apply (wp_gets _ _ f0 _ E).
  { intros f f' Hf. apply flst_read_addr_ext, Hf. }
  set (nx := flst_get_next_addr f0 cur) in *.
  apply wp_bind. apply (wp_flst_write_addr _ _ _ _ _ _ E); [wa_side|wa_side|].
  intros m1 F1 _.
  apply wp_bind. apply (wp_flst_write_addr _ _ _ _ _ _ F1); [wa_side|wa_side|].
  intros m2 F2 _. cbv zeta in H.
  replace {| page := page nx; boffset := boffset nx |} with nx in F2 by (destruct nx; reflexivity).
  apply wp_bind.
  destruct (Z.eqb_spec (page nx) FIL_NULL) as [En|En].
  - apply wp_bind. apply (wp_flst_write_addr _ _ _ _ _ _ F2); [wa_side|wa_side|].
    intros m3 F3 _. apply wp_ret.
    apply wp_bind. apply (wp_flst_write_addr _ _ _ _ _ _ F3); [wa_side|wa_side|].
    intros m4 F4 _.
    apply (wp_bump_len _ _ _ _ _ _ F4). intros m5 F5.
    apply wp_ret. apply H. exact F5.
  - apply wp_bind. apply wp_buf_page_get_gen. unfold fetch_put in H.
    destruct (io (page nx)) eqn:Eio.
    1:{ apply wp_bind. apply (wp_flst_write_addr _ _ _ _ _ _ F2); [wa_side|wa_side|].
        intros m3 F3 _. apply wp_ret.
        apply wp_bind. apply (wp_flst_write_addr _ _ _ _ _ _ F3); [wa_side|wa_side|].
        intros m4 F4 _.
        apply (wp_bump_len _ _ _ _ _ _ F4). intros m5 F5.
        apply wp_ret. apply H. exact F5. }
    all: apply wp_ret;
      (apply wp_bind; apply (wp_flst_write_addr _ _ _ _ _ _ F2); [wa_side|wa_side|]);
      intros m4 F4 _;
      apply (wp_bump_len _ _ _ _ _ _ F4); intros m5 F5;
      apply wp_ret; apply H; exact F5.
Qed.

Lemma wp_flst_insert_before io base cur add m f0 (Q : dberr_t -> mtr_t -> Prop) :
  frames_eq (m_frames m) f0 ->
  ptr_ok base -> ptr_ok cur -> ptr_ok add ->
  link_ok (flst_get_prev_addr f0 cur) ->
  (forall m', frames_eq (m_frames m') (insert_before_frames io f0 base cur add) ->
              Q (insert_before_err io f0 cur) m') ->
  wp (flst_insert_before io base cur add) m Q.
Proof.
  intros E Hb Hc Ha Hn H.
  pose proof (ptr_ok_offset _ Hc) as Oc. pose proof (ptr_ok_offset _ Ha) as Oa.
  unfold flst_insert_before, insert_before_frames, insert_before_err in *.
  apply wp_bind. apply (wp_gets _ _ f0 _ E).
  { intros f f' Hf. apply flst_read_addr_ext, Hf. }
  set (pv := flst_get_prev_addr f0 cur) in *.
  apply wp_bind. apply (wp_flst_write_addr _ _ _ _ _ _ E); [wa_side|wa_side|].
  intros m1 F1 _.
  replace {| page := page pv; boffset := boffset pv |} with pv in F1 by (destruct pv; reflexivity).
  apply wp_bind. apply (wp_flst_write_addr _ _ _ _ _ _ F1); [wa_side|wa_side|].
  intros m2 F2 _. cbv zeta in H.
  apply wp_bind.
  destruct (Z.eqb_spec (page pv) FIL_NULL) as [En|En].
  - apply wp_bind. apply (wp_flst_write_addr _ _ _ _ _ _ F2); [wa_side|wa_side|].
    intros m3 F3 _. apply wp_ret.
    apply wp_bind. apply (wp_flst_write_addr _ _ _ _ _ _ F3); [wa_side|wa_side|].
    intros m4 F4 _.
    apply (wp_bump_len _ _ _ _ _ _ F4). intros m5 F5.
    apply wp_ret. apply H. exact F5.
  - apply wp_bind. apply wp_buf_page_get_gen. unfold fetch_put in H.
    destruct (io (page pv)) eqn:Eio.
    1:{ apply wp_bind. apply (wp_flst_write_addr _ _ _ _ _ _ F2); [wa_side|wa_side|].
        intros m3 F3 _. apply wp_ret.
        apply wp_bind. apply (wp_flst_write_addr _ _ _ _ _ _ F3); [wa_side|wa_side|].
        intros m4 F4 _.
        apply (wp_bump_len _ _ _ _ _ _ F4). intros m5 F5.
        apply wp_ret. apply H. exact F5. }
    all: apply wp_ret;
      (apply wp_bind; apply (wp_flst_write_addr _ _ _ _ _ _ F2); [wa_side|wa_side|]);
      intros m4 F4 _;
      apply (wp_bump_len _ _ _ _ _ _ F4); intros m5 F5;
      apply wp_ret; apply H; exact F5.
Qed.

Lemma fil_addr_eta (a : fil_addr_t) : {| page := page a; boffset := boffset a |} = a.
Proof. destruct a; reflexivity. Qed.

Lemma wp_flst_remove io base cur m f0 (Q : dberr_t -> mtr_t -> Prop) :
  frames_eq (m_frames m) f0 ->
  ptr_ok base ->
  link_ok (flst_get_prev_addr f0 cur) -> link_ok (flst_get_next_addr f0 cur) ->
  (forall m', frames_eq (m_frames m') (remove_frames io f0 base cur) ->
              Q (remove_err io f0 base cur) m') ->
  wp (flst_remove io base cur) m Q.
Proof.
  intros E Hb Hp Hn H.
  unfold flst_remove.
  apply wp_bind. apply (wp_gets _ _ f0 _ E).
  { intros f f' Hf. apply flst_read_addr_ext, Hf. }
  apply wp_bind. apply (wp_gets _ _ f0 _ E).
  { intros f f' Hf. apply flst_read_addr_ext, Hf. }
  unfold remove_frames, remove_err, remove_links, remove_fetch_err in H.
  set (pv := flst_get_prev_addr f0 cur) in *.
  set (nx := flst_get_next_addr f0 cur) in *.
  cbv zeta in H.
  set (f1 := if page pv =? FIL_NULL then _ else _) in H.
  set (e1 := if page pv =? FIL_NULL then DB_SUCCESS else _) in H.
  apply wp_bind.
  match goal with |- wp ?c m ?Q1 =>
    assert (S1 : forall Q', (forall m1, frames_eq (m_frames m1) f1 -> Q' e1 m1) -> wp c m Q')
  end.
  { intros Q' H1. subst f1 e1.
    destruct (Z.eqb_spec (page pv) FIL_NULL) as [En|En].
    - apply wp_bind. apply (wp_flst_write_addr _ _ _ _ _ _ E); [wa_side|wa_side|].
      intros m1 F1 _. rewrite fil_addr_eta in F1. apply wp_ret. apply H1, F1.
    - destruct (negb (page pv =? page_no cur)).
      + apply wp_bind. apply wp_buf_page_get_gen. unfold fetch_put in *.
        destruct (io (page pv)); try (apply wp_ret; apply H1, E).
        apply wp_bind. apply (wp_flst_write_addr _ _ _ _ _ _ E); [wa_side|wa_side|].
        intros m1 F1 _. rewrite fil_addr_eta in F1. apply wp_ret. apply H1, F1.
      + apply wp_bind. apply (wp_flst_write_addr _ _ _ _ _ _ E); [wa_side|wa_side|].
        intros m1 F1 _. rewrite fil_addr_eta in F1. apply wp_ret. apply H1, F1. }
  apply S1. clear S1. intros m1 F1.
  set (f2 := if page nx =? FIL_NULL then _ else _) in H.
  set (e2 := if page nx =? FIL_NULL then e1 else _) in H.
  apply wp_bind.
  match goal with |- wp ?c m1 ?Q1 =>
    assert (S2 : forall Q', (forall m2, frames_eq (m_frames m2) f2 -> Q' e2 m2) -> wp c m1 Q')
  end.
  { intros Q' H2. subst f2 e2.
    destruct (Z.eqb_spec (page nx) FIL_NULL) as [En|En].
    - apply wp_bind. apply (wp_flst_write_addr _ _ _ _ _ _ F1); [wa_side|wa_side|].
      intros m2 F2 _. rewrite fil_addr_eta in F2. apply wp_ret. apply H2, F2.
    - destruct (negb (page nx =? page_no cur)).
      + apply wp_bind. apply wp_buf_page_get_gen. unfold fetch_put in *.
        destruct (io (page nx)); try (apply wp_ret; apply H2, F1).
        apply wp_bind. apply (wp_flst_write_addr _ _ _ _ _ _ F1); [wa_side|wa_side|].
        intros m2 F2 _. rewrite fil_addr_eta in F2. apply wp_ret. apply H2, F2.
      + apply wp_bind. apply (wp_flst_write_addr _ _ _ _ _ _ F1); [wa_side|wa_side|].
        intros m2 F2 _. rewrite fil_addr_eta in F2. apply wp_ret. apply H2, F2. }
  apply S2. clear S2. intros m2 F2.
  apply wp_bind. apply (wp_gets _ _ f2 _ F2).
  { intros f f' Hf. apply mach_read_from_4_ext, Hf. }
  destruct (mach_read_from_4 f2 (base +! FLST_LEN) =? 0).
  - apply wp_ret. apply H, F2.
  - apply wp_bind. apply (wp_mtr_write _ _ _ _ _ F2). intros m3 F3 _.
    apply wp_ret. apply H. exact F3.
Qed.

(** ** Chains of nodes *)

Lemma last_cons (L : list fil_addr_t) n p : last (n :: L) p = last L n.
Proof.
  revert n p. induction L as [|x L IH]; intros n p; [reflexivity|].
  change (last (n :: x :: L) p) with (last (x :: L) p).
  rewrite (IH x p), (IH x n). reflexivity.
Qed.

Lemma chain_app f p L1 L2 q :
  chain f p (L1 ++ L2) q <->
  chain f p L1 (hd q L2) /\ chain f (last L1 p) L2 q.
Proof.
  revert p. induction L1 as [|n L1 IH]; intros p.
  - cbn. tauto.
  - cbn [app chain]. rewrite IH.
    replace (hd q (L1 ++ L2)) with (hd (hd q L2) L1) by (destruct L1; reflexivity).
    rewrite last_cons. tauto.
Qed.

Lemma chain_frame f g p L q :
  (forall n, In n L ->
     flst_get_prev_addr g (node_ptr n) = flst_get_prev_addr f (node_ptr n) /\
     flst_get_next_addr g (node_ptr n) = flst_get_next_addr f (node_ptr n)) ->
  chain f p L q -> chain g p L q.
Proof.
  revert p. induction L as [|n L IH]; intros p H C; [exact I|].
  cbn [chain] in *. destruct C as (C1 & C2 & C3).
  destruct (H n (or_introl eq_refl)) as [E1 E2].
  rewrite E1, E2. repeat split; try assumption.
  apply IH; [|exact C3]. intros x Hx. apply H. right. exact Hx.
Qed.

Lemma chain_ext f g p L q : frames_eq f g -> chain f p L q -> chain g p L q.
Proof.
  intros E. apply chain_frame. intros n _.
  unfold flst_get_prev_addr, flst_get_next_addr.
  rewrite !(flst_read_addr_ext f g) by exact E. auto.
Qed.

Lemma flst_inv_ext f g base L : frames_eq f g -> flst_inv f base L -> flst_inv g base L.
Proof.
  intros E [H1 H2 H3 H4 H5 H6 H7 H8]. constructor; try assumption.
  - rewrite <- H2. unfold flst_get_len. symmetry. apply mach_read_from_4_ext, E.
  - rewrite <- H3. unfold flst_get_first. symmetry. apply flst_read_addr_ext, E.
  - rewrite <- H4. unfold flst_get_last. symmetry. apply flst_read_addr_ext, E.
  - eapply chain_ext; eassumption.
Qed.

Lemma node_apart_sym a b : node_apart a b -> node_apart b a.
Proof. unfold node_apart, apart. lia. Qed.

Lemma all_apart_app L1 L2 :
  all_apart (L1 ++ L2) <->
  all_apart L1 /\ all_apart L2 /\ (forall a b, In a L1 -> In b L2 -> node_apart a b).
Proof.
  induction L1 as [|x L1 IH]; cbn [app all_apart].
  - split.
    + intros H. split; [exact I|]. split; [exact H|]. intros a b [].
    + intros (_ & H & _). exact H.
  - rewrite IH, Forall_app. split.
    + intros ((F1 & F2) & A1 & A2 & A3).
      split; [split; assumption|]. split; [assumption|].
      intros a b [<-|Ha] Hb.
      * rewrite Forall_forall in F2. apply F2, Hb.
      * apply A3; assumption.
    + intros ((F1 & A1) & A2 & A3).
      split; [split; [assumption|]|].
      * apply Forall_forall. intros b Hb. apply A3; [left; reflexivity|exact Hb].
      * split; [assumption|]. split; [assumption|].
        intros a b Ha Hb. apply A3; [right; exact Ha|exact Hb].
Qed.

Lemma flst_read_addr_range f p :
  0 <= page (flst_read_addr f p) < 2 ^ 32 /\ 0 <= boffset (flst_read_addr f p) < 2 ^ 16.
Proof.
  unfold flst_read_addr. cbn [page boffset].
  split; [apply mach_read_from_4_range|apply mach_read_from_2_range].
Qed.

(** Reading a field through a write. *)
Lemma read_put_hit f p a q :
  blk p = blk q -> pos p = pos q ->
  0 <= page a < 2 ^ 32 -> 0 <= boffset a < 2 ^ 16 ->
  flst_read_addr (put_addr f p a) q = a.
Proof.
  intros Hb Hp Ha Ho. replace q with p by (destruct p, q; simpl in *; congruence).
  apply flst_read_put_addr; assumption.
Qed.

Lemma read_put_miss f p a q :
  apart p FIL_ADDR_SIZE q FIL_ADDR_SIZE ->
  flst_read_addr (put_addr f p a) q = flst_read_addr f q.
Proof.
  intros H. rewrite put_addr_unfold. apply flst_read_addr_apart. exact H.
Qed.

Lemma read_store_miss f p bs q :
  apart p (Z.of_nat (length bs)) q FIL_ADDR_SIZE ->
  flst_read_addr (store_bytes f p bs) q = flst_read_addr f q.
Proof. apply flst_read_addr_apart. Qed.

Lemma len_put_miss f p a q :
  apart p FIL_ADDR_SIZE q 4 ->
  mach_read_from_4 (put_addr f p a) q = mach_read_from_4 f q.
Proof.
  intros H. rewrite put_addr_unfold. apply mach_read_from_4_apart. exact H.
Qed.

Lemma len_store_hit f p v q :
  blk p = blk q -> pos p = pos q -> 0 <= v < 2 ^ 32 ->
  mach_read_from_4 (store_bytes f p (mach_write_to_4 v)) q = v.
Proof.
  intros Hb Hp Hv. replace q with p by (destruct p, q; simpl in *; congruence).
  apply mach_read_write_4. exact Hv.
Qed.

(** Side conditions on offsets. *)
Ltac sep :=
  unfold fresh, node_ok, node_apart, base_apart, ptr_ok, link_ok, apart,
    node_ptr, addr_of, page_frame, page_align, page_no, fil_addr_null,
    FLST_BASE_NODE_SIZE, FLST_NODE_SIZE,
    FIL_PAGE_DATA, FLST_FIRST, FLST_LAST, FLST_PREV, FLST_NEXT, FLST_LEN,
    FIL_ADDR_SIZE, FIL_ADDR_PAGE, FIL_ADDR_BYTE, FIL_NULL in *;
  cbn [page boffset blk pos ptr_add length mach_write_to_4 mach_write_to_1
       Z.of_nat Pos.of_succ_nat Pos.succ] in *;
  change (2 ^ 32) with 4294967296 in *; change (2 ^ 16) with 65536 in *;
  lia.

(** The same, from no hypothesis or from a single one. *)
Ltac sep1 :=
  first [ solve [clear; sep]
        | match goal with
          | H : _ |- _ => solve [revert H; clear; intro H; sep]
          end ].

Lemma len_bump f base d :
  mach_read_from_4 (bump_len f base d) (base +! FLST_LEN)
  = (mach_read_from_4 f (base +! FLST_LEN) + d) mod 2 ^ 32.
Proof.
  unfold bump_len, put_len. apply mach_read_write_4.
  apply Z.mod_pos_bound. reflexivity.
Qed.

Lemma read_bump_miss f base d q :
  apart (base +! FLST_LEN) 4 q FIL_ADDR_SIZE ->
  flst_read_addr (bump_len f base d) q = flst_read_addr f q.
Proof. intros H. unfold bump_len, put_len. apply flst_read_addr_apart. exact H. Qed.

Lemma zero_both_frames_node f p :
  zero_both_frames f (p +! FLST_PREV)
  = put_addr (put_addr f (p +! FLST_PREV) fil_addr_null) (p +! FLST_NEXT) fil_addr_null.
Proof. unfold zero_both_frames. rewrite ptr_add_add. reflexivity. Qed.

Lemma zero_both_frames_base f b :
  zero_both_frames f (b +! FLST_FIRST)
  = put_addr (put_addr f (b +! FLST_FIRST) fil_addr_null) (b +! FLST_LAST) fil_addr_null.
Proof. unfold zero_both_frames. rewrite ptr_add_add. reflexivity. Qed.

(** Read a field through the writes that precede the read: the value
    written when the write is to the field itself, the older value when the
    write is elsewhere. *)
Ltac rd1 :=
  match goal with
  | |- context [flst_read_addr (bump_len ?f ?b ?d) ?q] =>
      rewrite (read_bump_miss f b d q) by sep1
  | |- context [mach_read_from_4 (bump_len ?f ?b ?d) (?b +! FLST_LEN)] =>
      rewrite (len_bump f b d)
  | |- context [flst_read_addr (put_addr ?f ?p ?a) ?q] =>
      tryif unify p q
      then rewrite (read_put_hit f p a q) by sep1
      else rewrite (read_put_miss f p a q) by sep1
  | |- context [flst_read_addr (store_bytes ?f ?p ?bs) ?q] =>
      rewrite (read_store_miss f p bs q) by sep1
  | |- context [mach_read_from_4 (put_addr ?f ?p ?a) ?q] =>
      rewrite (len_put_miss f p a q) by sep1
  | |- context [mach_read_from_4 (store_bytes ?f ?p (mach_write_to_4 ?v)) ?q] =>
      tryif unify p q
      then rewrite (len_store_hit f p v q) by sep1
      else rewrite (mach_read_from_4_apart f p (mach_write_to_4 v) q) by sep1
  end.

Ltac rd :=
  unfold flst_get_len, flst_get_first, flst_get_last, flst_get_prev_addr,
    flst_get_next_addr, put_len;
  rewrite ?zero_both_frames_node, ?zero_both_frames_base;
  repeat rd1.

Ltac rfl := lazymatch goal with |- ?x = ?y => constr_eq x y; reflexivity end.

(** ** The list invariant *)

Lemma flst_inv_init f base : ptr_ok base -> flst_inv (init_frames f base) base [].
Proof.
  intros Hb. unfold init_frames.
  constructor; cbn [length hd last chain all_apart]; auto.
  - rd. reflexivity.
  - rd. reflexivity.
  - rd. reflexivity.
Qed.

Lemma addr_of_node_ptr a : node_ok a -> addr_of (node_ptr a) = a.
Proof.
  intros [_ H]. unfold addr_of. rewrite (ptr_ok_offset _ H).
  destruct a; reflexivity.
Qed.

Lemma node_ptr_frame a : page_frame (page a) +! boffset a = node_ptr a.
Proof. reflexivity. Qed.

Lemma len_lsb_store f base v :
  mach_read_from_4 (store_bytes f (base +! (FLST_LEN + 3)) (mach_write_to_1 v))
                   (base +! FLST_LEN)
  = 256 * (mach_read_from_4 f (base +! FLST_LEN) / 256) + v mod 256.
Proof.
  rewrite !mach_read_from_4_eq.
  rewrite !load_store_bytes_apart by sep.
  rewrite (store_bytes_in f _ _ (base +! FLST_LEN +! 3) 0) by sep.
  cbn [mach_write_to_1 nth]. rewrite unsigned_of_Z_mod.
  pose proof (byte.unsigned_range (load f (base +! FLST_LEN))).
  pose proof (byte.unsigned_range (load f (base +! FLST_LEN +! 1))).
  pose proof (byte.unsigned_range (load f (base +! FLST_LEN +! 2))).
  pose proof (byte.unsigned_range (load f (base +! FLST_LEN +! 3))).
  change (2 ^ 8) with 256 in *.
  Z.to_euclidean_division_equations. lia.
Qed.

Lemma flst_inv_add_to_empty f base add :
  flst_inv f base [] -> fresh base [] add ->
  flst_inv (add_to_empty_frames f base (node_ptr add)) base [add].
Proof.
  intros [Hb Hl _ _ _ _ _ _] (Ha & Hba & _).
  unfold add_to_empty_frames. rewrite (addr_of_node_ptr _ Ha).
  cbv zeta.
  constructor; cbn [length hd last chain all_apart]; auto.
  - rd. rewrite len_lsb_store. unfold flst_get_len in Hl. rewrite Hl. reflexivity.
  - rd. reflexivity.
  - rd. reflexivity.
  - split; [|split; [|exact I]]; rd; reflexivity.
Qed.

(** What [flst_insert_after] leaves in the fields of the nodes and of the
    base node, for nodes that do not overlap. *)
Lemma insert_after_view io f base cur add :
  let nx := flst_get_next_addr f (node_ptr cur) in
  let F := insert_after_frames io f base (node_ptr cur) (node_ptr add) in
  ptr_ok base -> node_ok cur -> node_ok add ->
  node_apart add cur -> base_apart base cur -> base_apart base add ->
  (nx = fil_addr_null \/
   (node_ok nx /\ node_apart nx cur /\ node_apart nx add /\ base_apart base nx /\
    io (page nx) = DB_SUCCESS)) ->
  flst_get_prev_addr F (node_ptr add) = cur /\
  flst_get_next_addr F (node_ptr add) = nx /\
  flst_get_prev_addr F (node_ptr cur) = flst_get_prev_addr f (node_ptr cur) /\
  flst_get_next_addr F (node_ptr cur) = add /\
  (nx <> fil_addr_null ->
   flst_get_prev_addr F (node_ptr nx) = add /\
   flst_get_next_addr F (node_ptr nx) = flst_get_next_addr f (node_ptr nx)) /\
  (forall n, node_apart n cur -> node_apart n add ->
             (nx <> fil_addr_null -> node_apart n nx) -> base_apart base n ->
     flst_get_prev_addr F (node_ptr n) = flst_get_prev_addr f (node_ptr n) /\
     flst_get_next_addr F (node_ptr n) = flst_get_next_addr f (node_ptr n)) /\
  flst_get_len F base = (flst_get_len f base + 1) mod 2 ^ 32 /\
  flst_get_first F base = flst_get_first f base /\
  flst_get_last F base = (if page nx =? FIL_NULL then add else flst_get_last f base).
Proof.
  intros nx F Hb Hc Ha Hac Hbc Hba Hnx. subst F.
  unfold insert_after_frames. fold nx.
  rewrite (addr_of_node_ptr _ Hc), (addr_of_node_ptr _ Ha). cbv zeta.
  pose proof (flst_read_addr_range f (node_ptr cur +! FLST_NEXT)) as Rnx.
  change (flst_read_addr f (node_ptr cur +! FLST_NEXT)) with nx in Rnx.
  clearbody nx.
  destruct Hnx as [En|(Hn & Hnc & Hna & Hbn & Eio)].
  - subst nx. change (page fil_addr_null =? FIL_NULL) with true in *. cbv iota in *.
    repeat match goal with |- _ /\ _ => split end;
      try (intros; rd; rfl).
    + intros E; contradiction E; reflexivity.
    + intros n H1 H2 _ H4. split; rd; rfl.
  - assert (Epg : (page nx =? FIL_NULL) = false) by (apply Z.eqb_neq; sep).
    rewrite Epg in *. unfold fetch_put in *. rewrite Eio in *. rewrite node_ptr_frame in *.
    assert (nx <> fil_addr_null) by (intros E; rewrite E in Epg; discriminate).
    repeat match goal with |- _ /\ _ => split end;
      try (intros; rd; rfl).
    + intros _. split; rd; rfl.
    + intros n H1 H2 H3 H4. specialize (H3 H). split; rd; rfl.
Qed.

Lemma last_app_cons {A} (d : A) L1 x L2 : last (L1 ++ x :: L2) d = last (x :: L2) d.
Proof.
  induction L1 as [|y L1 IH]; [reflexivity|].
  cbn [app]. destruct (L1 ++ x :: L2) eqn:E.
  - destruct L1; discriminate.
  - rewrite <- E in *. cbn [last]. rewrite E. rewrite <- E. exact IH.
Qed.

Lemma node_ok_not_null a : node_ok a -> (page a =? FIL_NULL) = false.
Proof. intros [H _]. apply Z.eqb_neq. lia. Qed.

Lemma node_ok_neq_null a : node_ok a -> a <> fil_addr_null.
Proof. intros [H _] ->. unfold fil_addr_null in H. cbn in H. lia. Qed.

Lemma flst_inv_insert_after io f base L1 cur L2 add :
  flst_inv f base (L1 ++ cur :: L2) ->
  fresh base (L1 ++ cur :: L2) add ->
  Z.of_nat (length (L1 ++ cur :: L2)) + 1 < 2 ^ 32 ->
  insert_after_err io f (node_ptr cur) = DB_SUCCESS ->
  flst_inv (insert_after_frames io f base (node_ptr cur) (node_ptr add))
           base (L1 ++ cur :: add :: L2).
Proof.
  intros [Hb Hlen Hfirst Hlast Hchain Hok Hba Hap] (Ha & Hbadd & Hadd) Hbound Herr.
  apply chain_app in Hchain. destruct Hchain as [C1 C2].
  cbn [hd chain] in C1, C2. destruct C2 as (Cp & Cn & C2).
  apply Forall_app in Hok. destruct Hok as [Ok1 Ok2].
  apply Forall_cons_iff in Ok2. destruct Ok2 as [Okc Ok2].
  apply Forall_app in Hba. destruct Hba as [Ba1 Ba2].
  apply Forall_cons_iff in Ba2. destruct Ba2 as [Bac Ba2].
  apply Forall_app in Hadd. destruct Hadd as [Ad1 Ad2].
  apply Forall_cons_iff in Ad2. destruct Ad2 as [Adc Ad2].
  apply all_apart_app in Hap. destruct Hap as (Ap1 & Ap2 & Apx).
  cbn [all_apart] in Ap2. destruct Ap2 as [Apc Ap2].
  rewrite Forall_forall in Ok1, Ok2, Ba1, Ba2, Ad1, Ad2, Apc.
  unfold insert_after_err in Herr. rewrite Cn in Herr.
  assert (Hnx : hd fil_addr_null L2 = fil_addr_null \/
                (node_ok (hd fil_addr_null L2) /\
                 node_apart (hd fil_addr_null L2) cur /\
                 node_apart (hd fil_addr_null L2) add /\
                 base_apart base (hd fil_addr_null L2) /\
                 io (page (hd fil_addr_null L2)) = DB_SUCCESS)).
  { destruct L2 as [|x L2]; [left; reflexivity|right]. cbn [hd] in *.
    assert (In x (x :: L2)) as Hx by (left; reflexivity).
    rewrite (node_ok_not_null x) in Herr by auto.
    split; [apply Ok2, Hx|]. split; [apply node_apart_sym, Apc, Hx|].
    split; [apply node_apart_sym, Ad2, Hx|]. split; [apply Ba2, Hx|exact Herr]. }
  rewrite <- Cn in Hnx.
  destruct (insert_after_view io f base cur add Hb Okc Ha Adc Bac Hbadd Hnx)
    as (V1 & V2 & V3 & V4 & V5 & V6 & V7 & V8 & V9).
  rewrite Cn in *. clear Hnx.
  constructor.
  - exact Hb.
  - rewrite V7, Hlen. rewrite !length_app in *. cbn [length] in *.
    rewrite Z.mod_small; lia.
  - rewrite V8, Hfirst. destruct L1; reflexivity.
  - rewrite V9. rewrite last_app_cons. rewrite last_app_cons in Hlast.
    destruct L2 as [|x L2].
    + reflexivity.
    + cbn [hd]. rewrite (node_ok_not_null x) by (apply Ok2; left; reflexivity).
      rewrite Hlast. rewrite !last_cons. reflexivity.
  - apply chain_app. split.
    + cbn [hd]. revert C1. apply chain_frame. intros n Hn. apply V6.
      * apply Apx; [exact Hn|left; reflexivity].
      * apply node_apart_sym, Ad1, Hn.
      * intros Hne. destruct L2 as [|x L2]; [contradiction Hne; reflexivity|].
        cbn [hd]. apply Apx; [exact Hn|right; left; reflexivity].
      * apply Ba1, Hn.
    + cbn [chain hd]. rewrite V3, V4, V1, V2. repeat split; auto.
      destruct L2 as [|x L2]; [exact I|]. cbn [hd chain] in *.
      destruct C2 as (Dp & Dn & C3).
      destruct (V5 (node_ok_neq_null x (Ok2 x (or_introl eq_refl)))) as [W1 W2].
      rewrite W1, W2. repeat split; auto.
      revert C3. apply chain_frame. intros n Hn. apply V6.
      * apply node_apart_sym, Apc. right. exact Hn.
      * apply node_apart_sym, Ad2. right. exact Hn.
      * intros _. cbn [all_apart] in Ap2. destruct Ap2 as [Apn _].
        rewrite Forall_forall in Apn. apply node_apart_sym, Apn, Hn.
      * apply Ba2. right. exact Hn.
  - apply Forall_app. split; [apply Forall_forall, Ok1|].
    repeat apply Forall_cons; auto. apply Forall_forall, Ok2.
  - apply Forall_app. split; [apply Forall_forall, Ba1|].
    repeat apply Forall_cons; auto. apply Forall_forall, Ba2.
  - apply all_apart_app. split; [exact Ap1|]. split.
    + cbn [all_apart]. split; [|split; [|exact Ap2]].
      * apply Forall_cons; [apply node_apart_sym, Adc|apply Forall_forall, Apc].
      * apply Forall_forall, Ad2.
    + intros a b Ha1 [<-|[<-|Hb2]].
      * apply Apx; [exact Ha1|left; reflexivity].
      * apply node_apart_sym, Ad1, Ha1.
      * apply Apx; [exact Ha1|right; exact Hb2].
Qed.

(** What [flst_insert_before] leaves in the fields of the nodes and of the
    base node, for nodes that do not overlap. *)
Lemma insert_before_view io f base cur add :
  let pv := flst_get_prev_addr f (node_ptr cur) in
  let F := insert_before_frames io f base (node_ptr cur) (node_ptr add) in
  ptr_ok base -> node_ok cur -> node_ok add ->
  node_apart add cur -> base_apart base cur -> base_apart base add ->
  (pv = fil_addr_null \/
   (node_ok pv /\ node_apart pv cur /\ node_apart pv add /\ base_apart base pv /\
    io (page pv) = DB_SUCCESS)) ->
  flst_get_prev_addr F (node_ptr add) = pv /\
  flst_get_next_addr F (node_ptr add) = cur /\
  flst_get_prev_addr F (node_ptr cur) = add /\
  flst_get_next_addr F (node_ptr cur) = flst_get_next_addr f (node_ptr cur) /\
  (pv <> fil_addr_null ->
   flst_get_prev_addr F (node_ptr pv) = flst_get_prev_addr f (node_ptr pv) /\
   flst_get_next_addr F (node_ptr pv) = add) /\
  (forall n, node_apart n cur -> node_apart n add ->
             (pv <> fil_addr_null -> node_apart n pv) -> base_apart base n ->
     flst_get_prev_addr F (node_ptr n) = flst_get_prev_addr f (node_ptr n) /\
     flst_get_next_addr F (node_ptr n) = flst_get_next_addr f (node_ptr n)) /\
  flst_get_len F base = (flst_get_len f base + 1) mod 2 ^ 32 /\
  flst_get_first F base = (if page pv =? FIL_NULL then add else flst_get_first f base) /\
  flst_get_last F base = flst_get_last f base.
Proof.
  intros pv F Hb Hc Ha Hac Hbc Hba Hpv. subst F.
  unfold insert_before_frames. fold pv.
  rewrite (addr_of_node_ptr _ Hc), (addr_of_node_ptr _ Ha). cbv zeta.
  pose proof (flst_read_addr_range f (node_ptr cur +! FLST_PREV)) as Rpv.
  change (flst_read_addr f (node_ptr cur +! FLST_PREV)) with pv in Rpv.
  clearbody pv.
  destruct Hpv as [En|(Hn & Hnc & Hna & Hbn & Eio)].
  - subst pv. change (page fil_addr_null =? FIL_NULL) with true in *. cbv iota in *.
    repeat match goal with |- _ /\ _ => split end;
      try (intros; rd; rfl).
    + intros E; contradiction E; reflexivity.
    + intros n H1 H2 _ H4. split; rd; rfl.
  - assert (Epg : (page pv =? FIL_NULL) = false) by (apply Z.eqb_neq; sep).
    rewrite Epg in *. unfold fetch_put in *. rewrite Eio in *. rewrite node_ptr_frame in *.
    assert (pv <> fil_addr_null) by (intros E; rewrite E in Epg; discriminate).
    repeat match goal with |- _ /\ _ => split end;
      try (intros; rd; rfl).
    + intros _. split; rd; rfl.
    + intros n H1 H2 H3 H4. specialize (H3 H). split; rd; rfl.
Qed.

Lemma list_snoc_cases {A} (L : list A) : L = [] \/ exists L' x, L = L' ++ [x].
Proof.
  destruct L as [|a L]; [left; reflexivity|right].
  destruct (exists_last (l := a :: L)) as (L' & x & E); [discriminate|].
  exists L', x. exact E.
Qed.

Lemma flst_inv_insert_before io f base L1 cur L2 add :
  flst_inv f base (L1 ++ cur :: L2) ->
  fresh base (L1 ++ cur :: L2) add ->
  Z.of_nat (length (L1 ++ cur :: L2)) + 1 < 2 ^ 32 ->
  insert_before_err io f (node_ptr cur) = DB_SUCCESS ->
  flst_inv (insert_before_frames io f base (node_ptr cur) (node_ptr add))
           base (L1 ++ add :: cur :: L2).
Proof.
  intros [Hb Hlen Hfirst Hlast Hchain Hok Hba Hap] (Ha & Hbadd & Hadd) Hbound Herr.
  apply chain_app in Hchain. destruct Hchain as [C1 C2].
  cbn [hd chain] in C1, C2. destruct C2 as (Cp & Cn & C2).
  apply Forall_app in Hok. destruct Hok as [Ok1 Ok2].
  apply Forall_cons_iff in Ok2. destruct Ok2 as [Okc Ok2].
  apply Forall_app in Hba. destruct Hba as [Ba1 Ba2].
  apply Forall_cons_iff in Ba2. destruct Ba2 as [Bac Ba2].
  apply Forall_app in Hadd. destruct Hadd as [Ad1 Ad2].
  apply Forall_cons_iff in Ad2. destruct Ad2 as [Adc Ad2].
  apply all_apart_app in Hap. destruct Hap as (Ap1 & Ap2 & Apx).
  cbn [all_apart] in Ap2. destruct Ap2 as [Apc Ap2].
  rewrite Forall_forall in Ok1, Ok2, Ba1, Ba2, Ad1, Ad2, Apc.
  unfold insert_before_err in Herr. rewrite Cp in Herr.
  assert (Hpv : last L1 fil_addr_null = fil_addr_null \/
                (node_ok (last L1 fil_addr_null) /\
                 node_apart (last L1 fil_addr_null) cur /\
                 node_apart (last L1 fil_addr_null) add /\
                 base_apart base (last L1 fil_addr_null) /\
                 io (page (last L1 fil_addr_null)) = DB_SUCCESS)).
  { destruct (list_snoc_cases L1) as [->|(L1' & x & ->)]; [left; reflexivity|right].
    rewrite last_last in *.
    assert (In x (L1' ++ [x])) as Hx by (apply in_or_app; right; left; reflexivity).
    rewrite (node_ok_not_null x) in Herr by auto.
    split; [apply Ok1, Hx|]. split; [apply Apx; [exact Hx|left; reflexivity]|].
    split; [apply node_apart_sym, Ad1, Hx|]. split; [apply Ba1, Hx|exact Herr]. }
  rewrite <- Cp in Hpv.
  destruct (insert_before_view io f base cur add Hb Okc Ha Adc Bac Hbadd Hpv)
    as (V1 & V2 & V3 & V4 & V5 & V6 & V7 & V8 & V9).
  rewrite Cp in *. clear Hpv.
  constructor.
  - exact Hb.
  - rewrite V7, Hlen. rewrite !length_app in *. cbn [length] in *.
    rewrite Z.mod_small; lia.
  - rewrite V8. destruct (list_snoc_cases L1) as [->|(L1' & x & ->)].
    + reflexivity.
    + rewrite last_last.
      rewrite (node_ok_not_null x)
        by (apply Ok1, in_or_app; right; left; reflexivity).
      rewrite Hfirst. destruct L1'; reflexivity.
  - rewrite V9, Hlast. rewrite !last_app_cons. rewrite !last_cons. reflexivity.
  - apply chain_app. split.
    + cbn [hd].
      destruct (list_snoc_cases L1) as [->|(L1' & x & ->)]; [exact I|].
      rewrite last_last in *.
      assert (In x (L1' ++ [x])) as Hx by (apply in_or_app; right; left; reflexivity).
      apply chain_app in C1. cbn [hd chain] in C1. destruct C1 as (D1 & Dp & Dn & _).
      destruct (V5 (node_ok_neq_null x (Ok1 x Hx))) as [W1 W2].
      apply chain_app. cbn [hd chain]. rewrite W1, W2.
      split; [|repeat split; auto].
      revert D1. apply chain_frame. intros n Hn.
      assert (In n (L1' ++ [x])) as Hn' by (apply in_or_app; left; exact Hn).
      apply all_apart_app in Ap1. destruct Ap1 as (_ & _ & Apy).
      apply V6.
      * apply Apx; [exact Hn'|left; reflexivity].
      * apply node_apart_sym, Ad1, Hn'.
      * intros _. apply Apy; [exact Hn|left; reflexivity].
      * apply Ba1, Hn'.
    + cbn [chain hd]. rewrite V3, V4, V1, V2. repeat split; auto.
      revert C2. apply chain_frame. intros n Hn. apply V6.
      * apply node_apart_sym, Apc, Hn.
      * apply node_apart_sym, Ad2, Hn.
      * intros Hne. apply node_apart_sym.
        destruct (list_snoc_cases L1) as [->|(L1' & x & ->)]; [contradiction Hne; reflexivity|].
        rewrite last_last. apply Apx; [apply in_or_app; right; left; reflexivity|right; exact Hn].
      * apply Ba2, Hn.
  - apply Forall_app. split; [apply Forall_forall, Ok1|].
    repeat apply Forall_cons; auto. apply Forall_forall, Ok2.
  - apply Forall_app. split; [apply Forall_forall, Ba1|].
    repeat apply Forall_cons; auto. apply Forall_forall, Ba2.
  - apply all_apart_app. split; [exact Ap1|]. split.
    + cbn [all_apart]. split; [|split; [|exact Ap2]].
      * apply Forall_cons; [exact Adc|apply Forall_forall, Ad2].
      * apply Forall_forall, Apc.
    + intros a b Ha1 [<-|[<-|Hb2]].
      * apply node_apart_sym, Ad1, Ha1.
      * apply Apx; [exact Ha1|left; reflexivity].
      * apply Apx; [exact Ha1|right; exact Hb2].
Qed.

(** The neighbour of the node [flst_remove] unlinks: on the page of the
    node itself, or on a page that is fetched. *)
Lemma remove_link_target io f cur nb field a :
  (page nb <> page cur -> io (page nb) = DB_SUCCESS) ->
  (if negb (page nb =? page_no (node_ptr cur))
   then fetch_put io f nb field a
   else put_addr f (page_align (node_ptr cur) +! boffset nb +! field) a)
  = put_addr f (node_ptr nb +! field) a.
Proof.
  intros Hio. unfold page_no, node_ptr at 1, page_align. cbn [blk].
  destruct (Z.eqb_spec (page nb) (page cur)) as [E|E]; cbn [negb].
  - unfold node_ptr, ptr_add. cbn [blk pos]. rewrite E. reflexivity.
  - unfold fetch_put. rewrite (Hio E). reflexivity.
Qed.

Lemma remove_fetch_err_ok io f cur :
  let pv := flst_get_prev_addr f (node_ptr cur) in
  let nx := flst_get_next_addr f (node_ptr cur) in
  remove_fetch_err io f (node_ptr cur) = DB_SUCCESS ->
  (page pv <> FIL_NULL -> page pv <> page cur -> io (page pv) = DB_SUCCESS) /\
  (page nx <> FIL_NULL -> page nx <> page cur -> io (page nx) = DB_SUCCESS).
Proof.
  intros pv nx. unfold remove_fetch_err.
  change (page_no (node_ptr cur)) with (page cur). fold pv nx.
  intros H.
  destruct (Z.eqb_spec (page pv) FIL_NULL) as [Ep|Ep];
    destruct (Z.eqb_spec (page nx) FIL_NULL) as [En|En];
    destruct (Z.eqb_spec (page pv) (page cur)) as [Epc|Epc];
    destruct (Z.eqb_spec (page nx) (page cur)) as [Enc|Enc];
    cbn [negb] in H; split; intros; try contradiction; try assumption;
    destruct (io (page nx)); destruct (io (page pv));
    try reflexivity; try discriminate.
Qed.

(** What [flst_remove] leaves in the fields of the neighbours and of the
    base node, for nodes that do not overlap. *)
Lemma remove_view io f base cur :
  let pv := flst_get_prev_addr f (node_ptr cur) in
  let nx := flst_get_next_addr f (node_ptr cur) in
  let F := remove_links io f base (node_ptr cur) in
  ptr_ok base ->
  (pv = fil_addr_null \/
   (node_ok pv /\ base_apart base pv /\
    (page pv <> page cur -> io (page pv) = DB_SUCCESS))) ->
  (nx = fil_addr_null \/
   (node_ok nx /\ base_apart base nx /\
    (page nx <> page cur -> io (page nx) = DB_SUCCESS))) ->
  (pv <> fil_addr_null -> nx <> fil_addr_null -> node_apart pv nx) ->
  (pv <> fil_addr_null ->
   flst_get_prev_addr F (node_ptr pv) = flst_get_prev_addr f (node_ptr pv) /\
   flst_get_next_addr F (node_ptr pv) = nx) /\
  (nx <> fil_addr_null ->
   flst_get_prev_addr F (node_ptr nx) = pv /\
   flst_get_next_addr F (node_ptr nx) = flst_get_next_addr f (node_ptr nx)) /\
  (forall n, (pv <> fil_addr_null -> node_apart n pv) ->
             (nx <> fil_addr_null -> node_apart n nx) -> base_apart base n ->
     flst_get_prev_addr F (node_ptr n) = flst_get_prev_addr f (node_ptr n) /\
     flst_get_next_addr F (node_ptr n) = flst_get_next_addr f (node_ptr n)) /\
  flst_get_len F base = flst_get_len f base /\
  flst_get_first F base = (if page pv =? FIL_NULL then nx else flst_get_first f base) /\
  flst_get_last F base = (if page nx =? FIL_NULL then pv else flst_get_last f base).
Proof.
  intros pv nx F Hb Hpv Hnx Hpn. subst F.
  unfold remove_links. fold pv nx. cbv zeta.
  pose proof (flst_read_addr_range f (node_ptr cur +! FLST_PREV)) as Rpv.
  change (flst_read_addr f (node_ptr cur +! FLST_PREV)) with pv in Rpv.
  pose proof (flst_read_addr_range f (node_ptr cur +! FLST_NEXT)) as Rnx.
  change (flst_read_addr f (node_ptr cur +! FLST_NEXT)) with nx in Rnx.
  clearbody pv nx.
  destruct Hpv as [Ep|(Op & Bp & Iop)]; destruct Hnx as [En|(On & Bn & Ion)].
  - subst pv nx. change (page fil_addr_null =? FIL_NULL) with true. cbv iota.
    repeat match goal with |- _ /\ _ => split end;
      try (intros E; contradiction E; reflexivity); try (rd; rfl).
    intros n _ _ H3. split; rd; rfl.
  - subst pv. change (page fil_addr_null =? FIL_NULL) with true. cbv iota.
    rewrite (node_ok_not_null _ On). rewrite (remove_link_target _ _ _ _ _ _ Ion).
    pose proof (node_ok_neq_null _ On) as Nn.
    repeat match goal with |- _ /\ _ => split end;
      try (intros E; contradiction E; reflexivity); try (rd; rfl).
    + intros _. split; rd; rfl.
    + intros n _ H2 H3. specialize (H2 Nn). split; rd; rfl.
  - subst nx. change (page fil_addr_null =? FIL_NULL) with true. cbv iota.
    rewrite (node_ok_not_null _ Op). rewrite (remove_link_target _ _ _ _ _ _ Iop).
    pose proof (node_ok_neq_null _ Op) as Np.
    repeat match goal with |- _ /\ _ => split end;
      try (intros E; contradiction E; reflexivity); try (rd; rfl).
    + intros _. split; rd; rfl.
    + intros n H1 _ H3. specialize (H1 Np). split; rd; rfl.
  - rewrite (node_ok_not_null _ Op), (node_ok_not_null _ On).
    rewrite (remove_link_target _ _ _ _ _ _ Iop), (remove_link_target _ _ _ _ _ _ Ion).
    pose proof (node_ok_neq_null _ Op) as Np. pose proof (node_ok_neq_null _ On) as Nn.
    specialize (Hpn Np Nn).
    repeat match goal with |- _ /\ _ => split end; try (rd; rfl).
    + intros _. split; rd; rfl.
    + intros _. split; rd; rfl.
    + intros n H1 H2 H3. specialize (H1 Np). specialize (H2 Nn). split; rd; rfl.
Qed.

Lemma flst_inv_remove io f base L1 cur L2 :
  flst_inv f base (L1 ++ cur :: L2) ->
  remove_fetch_err io f (node_ptr cur) = DB_SUCCESS ->
  remove_err io f base (node_ptr cur) = DB_SUCCESS /\
  flst_inv (remove_frames io f base (node_ptr cur)) base (L1 ++ L2).
Proof.
  intros [Hb Hlen Hfirst Hlast Hchain Hok Hba Hap] Herr.
  apply chain_app in Hchain. destruct Hchain as [C1 C2].
  cbn [hd chain] in C1, C2. destruct C2 as (Cp & Cn & C2).
  apply Forall_app in Hok. destruct Hok as [Ok1 Ok2].
  apply Forall_cons_iff in Ok2. destruct Ok2 as [Okc Ok2].
  apply Forall_app in Hba. destruct Hba as [Ba1 Ba2].
  apply Forall_cons_iff in Ba2. destruct Ba2 as [Bac Ba2].
  apply all_apart_app in Hap. destruct Hap as (Ap1 & Ap2 & Apx).
  cbn [all_apart] in Ap2. destruct Ap2 as [Apc Ap2].
  rewrite Forall_forall in Ok1, Ok2, Ba1, Ba2, Apc.
  destruct (remove_fetch_err_ok io f cur Herr) as [Iop Ion].
  rewrite Cp in Iop. rewrite Cn in Ion.
  assert (Hpv : last L1 fil_addr_null = fil_addr_null \/
                (node_ok (last L1 fil_addr_null) /\
                 base_apart base (last L1 fil_addr_null) /\
                 (page (last L1 fil_addr_null) <> page cur ->
                  io (page (last L1 fil_addr_null)) = DB_SUCCESS))).
  { destruct (list_snoc_cases L1) as [->|(L1' & x & ->)]; [left; reflexivity|right].
    rewrite last_last in *.
    assert (In x (L1' ++ [x])) as Hx by (apply in_or_app; right; left; reflexivity).
    split; [apply Ok1, Hx|]. split; [apply Ba1, Hx|].
    apply Iop. pose proof (Ok1 x Hx) as [H _]. lia. }
  assert (Hnx : hd fil_addr_null L2 = fil_addr_null \/
                (node_ok (hd fil_addr_null L2) /\
                 base_apart base (hd fil_addr_null L2) /\
                 (page (hd fil_addr_null L2) <> page cur ->
                  io (page (hd fil_addr_null L2)) = DB_SUCCESS))).
  { destruct L2 as [|y L2]; [left; reflexivity|right]. cbn [hd] in *.
    assert (In y (y :: L2)) as Hy by (left; reflexivity).
    split; [apply Ok2, Hy|]. split; [apply Ba2, Hy|].
    apply Ion. pose proof (Ok2 y Hy) as [H _]. lia. }
  assert (Hpn : last L1 fil_addr_null <> fil_addr_null ->
                hd fil_addr_null L2 <> fil_addr_null ->
                node_apart (last L1 fil_addr_null) (hd fil_addr_null L2)).
  { intros H1 H2.
    destruct (list_snoc_cases L1) as [->|(L1' & x & ->)]; [contradiction H1; reflexivity|].
    destruct L2 as [|y L2]; [contradiction H2; reflexivity|].
    rewrite last_last. cbn [hd]. apply Apx.
    - apply in_or_app; right; left; reflexivity.
    - right; left; reflexivity. }
  rewrite <- Cp in Hpv, Hpn. rewrite <- Cn in Hnx, Hpn.
  destruct (remove_view io f base cur Hb Hpv Hnx Hpn) as (V1 & V2 & V3 & V4 & V5 & V6).
  rewrite Cp, Cn in *. clear Hpv Hnx Hpn.
  assert (Hpos : 0 < flst_get_len f base < 2 ^ 32).
  { split.
    - rewrite Hlen, length_app. cbn [length]. lia.
    - apply mach_read_from_4_range. }
  unfold remove_err, remove_frames.
  unfold flst_get_len in V4, Hpos, Hlen. rewrite V4.
  destruct (Z.eqb_spec (mach_read_from_4 f (base +! FLST_LEN)) 0) as [E0|E0]; [lia|].
  split; [exact Herr|].
  constructor.
  - exact Hb.
  - unfold flst_get_len. rewrite len_bump, V4, Hlen.
    rewrite !length_app in *. cbn [length] in *. rewrite Hlen in Hpos.
    rewrite Z.mod_small; lia.
  - unfold flst_get_first in *. rewrite read_bump_miss by sep1. rewrite V5.
    destruct (list_snoc_cases L1) as [->|(L1' & x & ->)].
    + reflexivity.
    + rewrite last_last.
      rewrite (node_ok_not_null x)
        by (apply Ok1, in_or_app; right; left; reflexivity).
      rewrite Hfirst. destruct L1'; reflexivity.
  - unfold flst_get_last in *. rewrite read_bump_miss by sep1. rewrite V6.
    destruct L2 as [|y L2].
    + rewrite app_nil_r. reflexivity.
    + cbn [hd]. rewrite (node_ok_not_null y) by (apply Ok2; left; reflexivity).
      rewrite Hlast. rewrite !last_app_cons. rewrite !last_cons. reflexivity.
  - assert (Fr : forall n, node_ok n -> base_apart base n ->
              flst_get_prev_addr (bump_len (remove_links io f base (node_ptr cur)) base (-1))
                                 (node_ptr n)
              = flst_get_prev_addr (remove_links io f base (node_ptr cur)) (node_ptr n) /\
              flst_get_next_addr (bump_len (remove_links io f base (node_ptr cur)) base (-1))
                                 (node_ptr n)
              = flst_get_next_addr (remove_links io f base (node_ptr cur)) (node_ptr n)).
    { intros n Hn1 Hn2. unfold flst_get_prev_addr, flst_get_next_addr.
      rewrite !read_bump_miss by sep1. split; reflexivity. }
    apply chain_app. split.
    + destruct (list_snoc_cases L1) as [->|(L1' & x & ->)]; [exact I|].
      rewrite last_last in *.
      assert (In x (L1' ++ [x])) as Hx by (apply in_or_app; right; left; reflexivity).
      apply chain_app in C1. cbn [hd chain] in C1. destruct C1 as (D1 & Dp & Dn & _).
      destruct (V1 (node_ok_neq_null x (Ok1 x Hx))) as [W1 W2].
      destruct (Fr x (Ok1 x Hx) (Ba1 x Hx)) as [X1 X2].
      apply chain_app. cbn [hd chain]. rewrite X1, X2, W1, W2.
      split; [|repeat split; auto].
      revert D1. apply chain_frame. intros n Hn.
      assert (In n (L1' ++ [x])) as Hn' by (apply in_or_app; left; exact Hn).
      apply all_apart_app in Ap1. destruct Ap1 as (_ & _ & Apy).
      destruct (Fr n (Ok1 n Hn') (Ba1 n Hn')) as [Y1 Y2]. rewrite Y1, Y2.
      apply V3.
      * intros _. apply Apy; [exact Hn|left; reflexivity].
      * intros Hne. destruct L2 as [|y L2]; [contradiction Hne; reflexivity|].
        cbn [hd]. apply Apx; [exact Hn'|right; left; reflexivity].
      * apply Ba1, Hn'.
    + destruct L2 as [|y L2]; [exact I|]. cbn [hd chain] in *.
      destruct C2 as (Dp & Dn & C3).
      assert (In y (y :: L2)) as Hy by (left; reflexivity).
      destruct (V2 (node_ok_neq_null y (Ok2 y Hy))) as [W1 W2].
      destruct (Fr y (Ok2 y Hy) (Ba2 y Hy)) as [X1 X2].
      rewrite X1, X2, W1, W2. repeat split; auto.
      revert C3. apply chain_frame. intros n Hn.
      assert (In n (y :: L2)) as Hn' by (right; exact Hn).
      destruct (Fr n (Ok2 n Hn') (Ba2 n Hn')) as [Y1 Y2]. rewrite Y1, Y2.
      apply V3.
      * intros Hne. apply node_apart_sym.
        destruct (list_snoc_cases L1) as [->|(L1' & x & ->)]; [contradiction Hne; reflexivity|].
        rewrite last_last. apply Apx; [apply in_or_app; right; left; reflexivity|right; exact Hn'].
      * intros _. cbn [all_apart] in Ap2. destruct Ap2 as [Apn _].
        rewrite Forall_forall in Apn. apply node_apart_sym, Apn, Hn.
      * apply Ba2, Hn'.
  - apply Forall_app. split; apply Forall_forall; assumption.
  - apply Forall_app. split; apply Forall_forall; assumption.
  - apply all_apart_app. split; [exact Ap1|]. split; [exact Ap2|].
    intros a b Ha1 Hb2. apply Apx; [exact Ha1|right; exact Hb2].
Qed.

(** ** The functions keep the list invariant *)

Lemma node_ok_link_ok a : node_ok a -> link_ok a.
Proof. intros [_ [H _]]. right. exact H. Qed.

Lemma link_ok_null : link_ok fil_addr_null.
Proof. left. reflexivity. Qed.

Lemma link_ok_hd L : Forall node_ok L -> link_ok (hd fil_addr_null L).
Proof.
  intros H. destruct L as [|x L]; [apply link_ok_null|].
  apply node_ok_link_ok. inversion H. assumption.
Qed.

Lemma link_ok_last L : Forall node_ok L -> link_ok (last L fil_addr_null).
Proof.
  intros H. destruct (list_snoc_cases L) as [->|(L' & x & ->)]; [apply link_ok_null|].
  rewrite last_last. apply node_ok_link_ok.
  apply Forall_app in H. destruct H as [_ H]. inversion H. assumption.
Qed.

Lemma flst_inv_links f base L1 cur L2 :
  flst_inv f base (L1 ++ cur :: L2) ->
  node_ok cur /\
  flst_get_prev_addr f (node_ptr cur) = last L1 fil_addr_null /\
  flst_get_next_addr f (node_ptr cur) = hd fil_addr_null L2 /\
  link_ok (last L1 fil_addr_null) /\ link_ok (hd fil_addr_null L2).
Proof.
  intros [Hb Hlen Hfirst Hlast Hchain Hok Hba Hap].
  apply chain_app in Hchain. destruct Hchain as [C1 C2].
  cbn [hd chain] in C2. destruct C2 as (Cp & Cn & C2).
  apply Forall_app in Hok. destruct Hok as [Ok1 Ok2].
  apply Forall_cons_iff in Ok2. destruct Ok2 as [Okc Ok2].
  split; [exact Okc|]. split; [exact Cp|]. split; [exact Cn|].
  split; [apply link_ok_last, Ok1|apply link_ok_hd, Ok2].
Qed.

Lemma wp_inv_insert_after io base L1 cur L2 add m f0 :
  frames_eq (m_frames m) f0 ->
  flst_inv f0 base (L1 ++ cur :: L2) ->
  fresh base (L1 ++ cur :: L2) add ->
  Z.of_nat (length (L1 ++ cur :: L2)) + 1 < 2 ^ 32 ->
  wp (flst_insert_after io base (node_ptr cur) (node_ptr add)) m
     (fun e m' =>
        e = (if page (hd fil_addr_null L2) =? FIL_NULL then DB_SUCCESS
             else io (page (hd fil_addr_null L2))) /\
        (e = DB_SUCCESS -> flst_inv (m_frames m') base (L1 ++ cur :: add :: L2))).
Proof.
  intros E Hinv Hfr Hbound.
  destruct (flst_inv_links _ _ _ _ _ Hinv) as (Okc & Cp & Cn & Lp & Ln).
  apply (wp_flst_insert_after io _ _ _ _ f0 _ E).
  - exact (inv_base _ _ _ Hinv).
  - exact (proj2 Okc).
  - exact (proj2 (proj1 Hfr)).
  - rewrite Cn. exact Ln.
  - intros m' F'. unfold insert_after_err at 1. rewrite Cn. split; [reflexivity|].
    intros He. apply (flst_inv_ext _ _ _ _ (frames_eq_sym _ _ F')).
    apply flst_inv_insert_after; assumption.
Qed.

Lemma wp_inv_insert_before io base L1 cur L2 add m f0 :
  frames_eq (m_frames m) f0 ->
  flst_inv f0 base (L1 ++ cur :: L2) ->
  fresh base (L1 ++ cur :: L2) add ->
  Z.of_nat (length (L1 ++ cur :: L2)) + 1 < 2 ^ 32 ->
  wp (flst_insert_before io base (node_ptr cur) (node_ptr add)) m
     (fun e m' =>
        e = (if page (last L1 fil_addr_null) =? FIL_NULL then DB_SUCCESS
             else io (page (last L1 fil_addr_null))) /\
        (e = DB_SUCCESS -> flst_inv (m_frames m') base (L1 ++ add :: cur :: L2))).
Proof.
  intros E Hinv Hfr Hbound.
  destruct (flst_inv_links _ _ _ _ _ Hinv) as (Okc & Cp & Cn & Lp & Ln).
  apply (wp_flst_insert_before io _ _ _ _ f0 _ E).
  - exact (inv_base _ _ _ Hinv).
  - exact (proj2 Okc).
  - exact (proj2 (proj1 Hfr)).
  - rewrite Cp. exact Lp.
  - intros m' F'. unfold insert_before_err at 1. rewrite Cp. split; [reflexivity|].
    intros He. apply (flst_inv_ext _ _ _ _ (frames_eq_sym _ _ F')).
    apply flst_inv_insert_before; assumption.
Qed.

Lemma wp_inv_remove io base L1 cur L2 m f0 :
  frames_eq (m_frames m) f0 ->
  flst_inv f0 base (L1 ++ cur :: L2) ->
  wp (flst_remove io base (node_ptr cur)) m
     (fun e m' =>
        (remove_fetch_err io f0 (node_ptr cur) = DB_SUCCESS -> e = DB_SUCCESS) /\
        (e = DB_SUCCESS -> flst_inv (m_frames m') base (L1 ++ L2))).
Proof.
  intros E Hinv.
  destruct (flst_inv_links _ _ _ _ _ Hinv) as (Okc & Cp & Cn & Lp & Ln).
  apply (wp_flst_remove io _ _ _ f0 _ E).
  - exact (inv_base _ _ _ Hinv).
  - rewrite Cp. exact Lp.
  - rewrite Cn. exact Ln.
  - intros m' F'. split.
    + intros He. apply (flst_inv_remove io _ _ _ _ _ Hinv He).
    + intros He. apply (flst_inv_ext _ _ _ _ (frames_eq_sym _ _ F')).
      apply (flst_inv_remove io); [exact Hinv|].
      unfold remove_err in He.
      destruct (mach_read_from_4 (remove_links io f0 base (node_ptr cur)) (base +! FLST_LEN) =? 0);
        [discriminate|exact He].
Qed.

Lemma wp_inv_add_to_empty base add m f0 :
  frames_eq (m_frames m) f0 ->
  flst_inv f0 base [] -> fresh base [] add ->
  wp (flst_add_to_empty base (node_ptr add)) m
     (fun _ m' => flst_inv (m_frames m') base [add]).
Proof.
  intros E Hinv Hfr.
  apply (wp_flst_add_to_empty _ _ _ f0 _ E).
  - pose proof (inv_base _ _ _ Hinv). sep.
  - rewrite addr_of_node_ptr by apply Hfr. apply node_ok_link_ok, Hfr.
  - intros m' F'. apply (flst_inv_ext _ _ _ _ (frames_eq_sym _ _ F')).
    apply flst_inv_add_to_empty; assumption.
Qed.

Lemma same_page_node_ptr add x :
  page x = page add -> page_align (node_ptr add) +! boffset x = node_ptr x.
Proof. intros E. unfold page_align, node_ptr, ptr_add. cbn [blk pos]. rewrite E. reflexivity. Qed.

Lemma wp_inv_add_last io base L add m f0 :
  frames_eq (m_frames m) f0 ->
  flst_inv f0 base L -> fresh base L add ->
  Z.of_nat (length L) + 1 < 2 ^ 32 ->
  wp (flst_add_last io base (node_ptr add)) m
     (fun e m' =>
        (L = [] \/ page (last L fil_addr_null) = page add \/
         io (page (last L fil_addr_null)) = DB_SUCCESS -> e = DB_SUCCESS) /\
        (e = DB_SUCCESS -> flst_inv (m_frames m') base (L ++ [add]))).
Proof.
  intros E Hinv Hfr Hbound. unfold flst_add_last.
  apply wp_bind. apply (wp_gets _ _ f0 _ E).
  { intros f f' Hf. apply mach_read_from_4_ext, Hf. }
  rewrite (inv_len _ _ _ Hinv).
  destruct (list_snoc_cases L) as [->|(L' & x & ->)].
  - cbn [length Z.of_nat Z.eqb]. apply wp_bind.
    apply (wp_mono _ _ _ _ (wp_inv_add_to_empty _ _ _ _ E Hinv Hfr)). intros _ m' H'.
    apply wp_ret. split; [reflexivity|intros _; exact H'].
  - replace (Z.of_nat (length (L' ++ [x])) =? 0) with false
      by (symmetry; apply Z.eqb_neq; rewrite length_app; cbn [length]; lia).
    apply wp_bind. apply (wp_gets _ _ f0 _ E).
    { intros f f' Hf. apply flst_read_addr_ext, Hf. }
    rewrite (inv_last _ _ _ Hinv). rewrite last_last.
    change (page_no (node_ptr add)) with (page add).
    pose proof (wp_inv_insert_after io base L' x [] add m f0 E Hinv Hfr Hbound) as W.
    cbn [hd] in W. change (page fil_addr_null =? FIL_NULL) with true in W. cbv iota in W.
    destruct (Z.eqb_spec (page x) (page add)) as [Ex|Ex]; cbn [negb].
    + rewrite (same_page_node_ptr _ _ Ex).
      apply (wp_mono _ _ _ _ W). intros e m' [-> H2].
      split; [reflexivity|]. intros _. rewrite <- app_assoc. apply H2. reflexivity.
    + apply wp_bind. apply wp_buf_page_get_gen.
      destruct (io (page x)) eqn:Eio.
      1:{ rewrite node_ptr_frame.
          apply (wp_mono _ _ _ _ W). intros e m' [-> H2].
          split; [reflexivity|]. intros _. rewrite <- app_assoc. apply H2. reflexivity. }
      all: apply wp_ret; split; [|discriminate];
        intros [H|[H|H]];
        [ destruct L'; discriminate | contradiction | discriminate ].
Qed.

Lemma wp_inv_add_first io base L add m f0 :
  frames_eq (m_frames m) f0 ->
  flst_inv f0 base L -> fresh base L add ->
  Z.of_nat (length L) + 1 < 2 ^ 32 ->
  wp (flst_add_first io base (node_ptr add)) m
     (fun e m' =>
        (L = [] \/ page (hd fil_addr_null L) = page add \/
         io (page (hd fil_addr_null L)) = DB_SUCCESS -> e = DB_SUCCESS) /\
        (e = DB_SUCCESS -> flst_inv (m_frames m') base (add :: L))).
Proof.
  intros E Hinv Hfr Hbound. unfold flst_add_first.
  apply wp_bind. apply (wp_gets _ _ f0 _ E).
  { intros f f' Hf. apply mach_read_from_4_ext, Hf. }
  rewrite (inv_len _ _ _ Hinv).
  destruct L as [|x L].
  - cbn [length Z.of_nat Z.eqb]. apply wp_bind.
    apply (wp_mono _ _ _ _ (wp_inv_add_to_empty _ _ _ _ E Hinv Hfr)). intros _ m' H'.
    apply wp_ret. split; [reflexivity|intros _; exact H'].
  - replace (Z.of_nat (length (x :: L)) =? 0) with false
      by (symmetry; apply Z.eqb_neq; cbn [length]; lia).
    apply wp_bind. apply (wp_gets _ _ f0 _ E).
    { intros f f' Hf. apply flst_read_addr_ext, Hf. }
    rewrite (inv_first _ _ _ Hinv). cbn [hd].
    change (page_no (node_ptr add)) with (page add).
    pose proof (wp_inv_insert_before io base [] x L add m f0 E Hinv Hfr Hbound) as W.
    cbn [last app] in W. change (page fil_addr_null =? FIL_NULL) with true in W. cbv iota in W.
    destruct (Z.eqb_spec (page x) (page add)) as [Ex|Ex]; cbn [negb].
    + rewrite (same_page_node_ptr _ _ Ex).
      apply (wp_mono _ _ _ _ W). intros e m' [-> H2].
      split; [reflexivity|]. intros _. apply H2. reflexivity.
    + apply wp_bind. apply wp_buf_page_get_gen.
      destruct (io (page x)) eqn:Eio.
      1:{ rewrite node_ptr_frame.
          apply (wp_mono _ _ _ _ W). intros e m' [-> H2].
          split; [reflexivity|]. intros _. apply H2. reflexivity. }
      all: apply wp_ret; split; [|discriminate];
        intros [H|[H|H]];
        [ discriminate | contradiction | discriminate ].
Qed.

(** ** Walking a list *)

Lemma walk_next f p L q fuel :
  chain f p L q -> page q = FIL_NULL -> Forall node_ok L ->
  (length L <= fuel)%nat ->
  walk flst_get_next_addr f fuel (hd q L) = Some L.
Proof.
  revert p fuel. induction L as [|n L IH]; intros p fuel C Hq Hok Hf.
  - cbn [hd]. destruct fuel; cbn [walk]; rewrite Hq; reflexivity.
  - cbn [hd chain length] in *. destruct C as (_ & Cn & C).
    inversion Hok as [|? ? On Ok']; subst.
    destruct fuel as [|fuel]; [lia|]. cbn [walk].
    rewrite (node_ok_not_null _ On). rewrite node_ptr_frame, Cn.
    rewrite (IH n fuel C Hq Ok') by lia. reflexivity.
Qed.

Lemma walk_prev f p L q fuel :
  chain f p L q -> page p = FIL_NULL -> Forall node_ok L ->
  (length L <= fuel)%nat ->
  walk flst_get_prev_addr f fuel (last L p) = Some (rev L).
Proof.
  revert q fuel. induction L as [|n L IH] using rev_ind; intros q fuel C Hp Hok Hf.
  - cbn [last rev]. destruct fuel; cbn [walk]; rewrite Hp; reflexivity.
  - rewrite last_last, rev_unit. rewrite length_app in Hf. cbn [length] in Hf.
    apply chain_app in C. cbn [hd chain] in C. destruct C as (C & Cp & _).
    apply Forall_app in Hok. destruct Hok as [Ok' On]. inversion On as [|? ? On' _]; subst.
    destruct fuel as [|fuel]; [lia|]. cbn [walk].
    rewrite (node_ok_not_null _ On'). rewrite node_ptr_frame, Cp.
    rewrite (IH n fuel C Hp Ok') by lia. reflexivity.
Qed.

Lemma flst_inv_walks f base L fuel :
  flst_inv f base L -> (length L <= fuel)%nat ->
  walk flst_get_next_addr f fuel (flst_get_first f base) = Some L /\
  walk flst_get_prev_addr f fuel (flst_get_last f base) = Some (rev L).
Proof.
  intros [Hb Hlen Hfirst Hlast Hchain Hok Hba Hap] Hf.
  rewrite Hfirst, Hlast. split.
  - eapply walk_next; eauto.
  - eapply walk_prev; eauto.
Qed.

(** ** Sequences of operations keep the invariant *)

Lemma node_apart_irrefl a : ~ node_apart a a.
Proof. unfold node_apart, apart, FLST_NODE_SIZE, FIL_ADDR_SIZE. lia. Qed.

Lemma fil_addr_eqb_eq a b : fil_addr_eqb a b = true <-> a = b.
Proof.
  unfold fil_addr_eqb. rewrite andb_true_iff, !Z.eqb_eq.
  destruct a as [pa oa], b as [pb ob]; cbn [page boffset]. split.
  - intros [-> ->]. reflexivity.
  - intros E. inversion E. auto.
Qed.

Lemma fil_addr_eqb_refl a : fil_addr_eqb a a = true.
Proof. apply fil_addr_eqb_eq. reflexivity. Qed.

Lemma fil_addr_eqb_apart a b : node_apart a b -> fil_addr_eqb a b = false.
Proof.
  intros H. destruct (fil_addr_eqb a b) eqn:E; [|reflexivity].
  apply fil_addr_eqb_eq in E. subst. contradiction (node_apart_irrefl _ H).
Qed.

Lemma list_insert_after_split cur add L1 L2 :
  (forall a, In a L1 -> node_apart a cur) ->
  list_insert_after cur add (L1 ++ cur :: L2) = L1 ++ cur :: add :: L2.
Proof.
  induction L1 as [|x L1 IH]; intros H; cbn [app list_insert_after].
  - rewrite fil_addr_eqb_refl. reflexivity.
  - rewrite (fil_addr_eqb_apart x cur) by (apply H; left; reflexivity).
    rewrite IH by (intros a Ha; apply H; right; exact Ha). reflexivity.
Qed.

Lemma list_insert_before_split cur add L1 L2 :
  (forall a, In a L1 -> node_apart a cur) ->
  list_insert_before cur add (L1 ++ cur :: L2) = L1 ++ add :: cur :: L2.
Proof.
  induction L1 as [|x L1 IH]; intros H; cbn [app list_insert_before].
  - rewrite fil_addr_eqb_refl. reflexivity.
  - rewrite (fil_addr_eqb_apart x cur) by (apply H; left; reflexivity).
    rewrite IH by (intros a Ha; apply H; right; exact Ha). reflexivity.
Qed.

Lemma list_remove_split cur L1 L2 :
  (forall a, In a L1 -> node_apart a cur) ->
  list_remove cur (L1 ++ cur :: L2) = L1 ++ L2.
Proof.
  induction L1 as [|x L1 IH]; intros H; cbn [app list_remove].
  - rewrite fil_addr_eqb_refl. reflexivity.
  - rewrite (fil_addr_eqb_apart x cur) by (apply H; left; reflexivity).
    rewrite IH by (intros a Ha; apply H; right; exact Ha). reflexivity.
Qed.

Lemma flst_inv_split f base L1 cur L2 :
  flst_inv f base (L1 ++ cur :: L2) -> forall a, In a L1 -> node_apart a cur.
Proof.
  intros H a Ha. pose proof (inv_apart _ _ _ H) as Hap.
  apply all_apart_app in Hap. destruct Hap as (_ & _ & Apx).
  apply Apx; [exact Ha|left; reflexivity].
Qed.

Lemma run_op_inv io base L op m f0 :
  frames_eq (m_frames m) f0 ->
  flst_inv f0 base L -> op_ok base L op ->
  wp (run_op io base op) m
     (fun e m' => e = DB_SUCCESS -> flst_inv (m_frames m') base (apply_op op L)).
Proof.
  intros E Hinv Hop. destruct op as [add|add|cur add|cur add|cur]; cbn [run_op apply_op op_ok] in *.
  - destruct Hop as [Hfr Hb].
    apply (wp_mono _ _ _ _ (wp_inv_add_first io _ _ _ _ _ E Hinv Hfr Hb)).
    intros e m' [_ H]. exact H.
  - destruct Hop as [Hfr Hb].
    apply (wp_mono _ _ _ _ (wp_inv_add_last io _ _ _ _ _ E Hinv Hfr Hb)).
    intros e m' [_ H]. exact H.
  - destruct Hop as (Hin & Hfr & Hb).
    apply in_split in Hin. destruct Hin as (L1 & L2 & ->).
    rewrite (list_insert_before_split _ _ _ _ (flst_inv_split _ _ _ _ _ Hinv)).
    apply (wp_mono _ _ _ _ (wp_inv_insert_before io _ _ _ _ _ _ _ E Hinv Hfr Hb)).
    intros e m' [_ H]. exact H.
  - destruct Hop as (Hin & Hfr & Hb).
    apply in_split in Hin. destruct Hin as (L1 & L2 & ->).
    rewrite (list_insert_after_split _ _ _ _ (flst_inv_split _ _ _ _ _ Hinv)).
    apply (wp_mono _ _ _ _ (wp_inv_insert_after io _ _ _ _ _ _ _ E Hinv Hfr Hb)).
    intros e m' [_ H]. exact H.
  - apply in_split in Hop. destruct Hop as (L1 & L2 & ->).
    rewrite (list_remove_split _ _ _ (flst_inv_split _ _ _ _ _ Hinv)).
    apply (wp_mono _ _ _ _ (wp_inv_remove io _ _ _ _ _ _ E Hinv)).
    intros e m' [_ H]. exact H.
Qed.

Lemma reachable_inv io base m L :
  reachable io base m L -> flst_inv (m_frames m) base L.
Proof.
  induction 1 as [m0 m Hb Hrun|m L op m' _ IH Hop Hrun].
  - pose proof (wp_flst_init base m0 (m_frames m0)
                  (fun _ m' => flst_inv (m_frames m') base [])
                  (frames_eq_refl _)) as W.
    unfold wp in W. rewrite Hrun in W. apply W.
    intros m' F'. apply (flst_inv_ext _ _ _ _ (frames_eq_sym _ _ F')).
    apply flst_inv_init, Hb.
  - pose proof (run_op_inv io base L op m (m_frames m) (frames_eq_refl _) IH Hop) as W.
    unfold wp in W. rewrite Hrun in W. apply W. reflexivity.
Qed.

(** ** The length invariant *)

(** C2: after [flst_init] and any sequence of [flst_add_first],
    [flst_add_last], [flst_insert_before], [flst_insert_after] and
    [flst_remove] that each returned [DB_SUCCESS] (the counter not
    wrapping around), the length field of the base node is the number of
    nodes of the list, it is the number of hops from FIRST to a null
    address by NEXT, and the number of hops from LAST to a null address by
    PREV. *)
Theorem flst_length_invariant io base m L :
  reachable io base m L ->
  let f := m_frames m in
  let len := flst_get_len f base in
  len = Z.of_nat (length L) /\
  hops flst_get_next_addr f (Z.to_nat len) (flst_get_first f base) = Some (Z.to_nat len) /\
  hops flst_get_prev_addr f (Z.to_nat len) (flst_get_last f base) = Some (Z.to_nat len).
Proof.
  intros R f len. pose proof (reachable_inv _ _ _ _ R) as Hinv. fold f in Hinv.
  assert (E : len = Z.of_nat (length L)) by exact (inv_len _ _ _ Hinv).
  split; [exact E|]. rewrite E, Nat2Z.id.
  destruct (flst_inv_walks f base L (length L) Hinv (le_n _)) as [W1 W2].
  unfold hops. rewrite W1, W2. cbn [option_map]. rewrite length_rev. auto.
Qed.

(** Side conditions of the operations, at concrete addresses. *)
Ltac ex_ok :=
  cbv [op_ok fresh node_ok ptr_ok link_ok base_apart node_apart apart node_ptr
       addr_of page_no page_offset
       ex_base ex_A ex_B ex_C FIL_NULL FIL_PAGE_DATA FLST_BASE_NODE_SIZE
       FLST_NODE_SIZE FIL_ADDR_SIZE blk pos page boffset length In];
  repeat match goal with
    | |- _ /\ _ => split
    | |- Forall _ (_ :: _) => apply Forall_cons
    | |- Forall _ [] => apply Forall_nil
    | |- _ = _ \/ _ => left; reflexivity
    end;
  try lia.

Lemma ex_reachable : reachable ex_io ex_base ex_m3 [ex_A; ex_C; ex_B].
Proof.
  assert (R0 : reachable ex_io ex_base ex_m0 []).
  { apply (reach_init ex_io ex_base ex_mtr); [ex_ok|reflexivity]. }
  assert (R1 : reachable ex_io ex_base ex_m1 [ex_A]).
  { apply (reach_step ex_io ex_base ex_m0 [] (AddLast ex_A) ex_m1 R0);
      [ex_ok|vm_compute; reflexivity]. }
  assert (R2 : reachable ex_io ex_base ex_m2 [ex_A; ex_B]).
  { apply (reach_step ex_io ex_base ex_m1 [ex_A] (AddLast ex_B) ex_m2 R1);
      [ex_ok|vm_compute; reflexivity]. }
  apply (reach_step ex_io ex_base ex_m2 [ex_A; ex_B] (InsertAfter ex_A ex_C) ex_m3 R2);
    [ex_ok|vm_compute; reflexivity].
Defined.

Lemma flst_length_invariant_witness :
  flst_get_len (m_frames ex_m3) ex_base = 3 /\
  hops flst_get_next_addr (m_frames ex_m3) 3 (flst_get_first (m_frames ex_m3) ex_base) = Some 3%nat /\
  hops flst_get_prev_addr (m_frames ex_m3) 3 (flst_get_last (m_frames ex_m3) ex_base) = Some 3%nat.
Proof.
  exact (flst_length_invariant ex_io ex_base ex_m3 [ex_A; ex_C; ex_B] ex_reachable).
Defined.

(** ** The scenarios of the specification *)







(** ** The address codec *)



(** ** Page fetches that fail *)




(** ** Removing a node: what is written, what is returned *)

Lemma dberr_eqb_eq a b : dberr_eqb a b = true <-> a = b.
Proof. destruct a, b; cbn; split; congruence. Qed.

Lemma remove_links_nf io f base c :
  let cur := node_ptr c in
  let pv := flst_get_prev_addr f cur in
  let nx := flst_get_next_addr f cur in
  remove_links io f base cur =
  (let f1 := if page pv =? FIL_NULL then put_addr f (base +! FLST_FIRST) nx
             else if fetch_fails io cur pv then f
             else put_addr f (node_ptr pv +! FLST_NEXT) nx in
   if page nx =? FIL_NULL then put_addr f1 (base +! FLST_LAST) pv
   else if fetch_fails io cur nx then f1
   else put_addr f1 (node_ptr nx +! FLST_PREV) pv).
Proof.
  intros cur pv nx. unfold remove_links, fetch_fails. fold cur pv nx. cbv zeta.
  assert (P : forall f' nb field a,
             (page nb =? FIL_NULL) = false ->
             (if negb (page nb =? page_no cur)
              then fetch_put io f' nb field a
              else put_addr f' (page_align cur +! boffset nb +! field) a)
             = (if negb (page nb =? FIL_NULL) && negb (page nb =? page_no cur) &&
                   negb (dberr_eqb (io (page nb)) DB_SUCCESS)
                then f' else put_addr f' (node_ptr nb +! field) a)).
  { intros f' nb field a Hn. rewrite Hn. cbn [negb andb].
    subst cur. change (page_no (node_ptr c)) with (page c).
    destruct (Z.eqb_spec (page nb) (page c)) as [E|E]; cbn [negb andb].
    - unfold page_align, node_ptr, ptr_add. cbn [blk pos]. rewrite E. reflexivity.
    - unfold fetch_put. destruct (io (page nb)); reflexivity. }
  destruct (page pv =? FIL_NULL) eqn:Ep; destruct (page nx =? FIL_NULL) eqn:En;
    rewrite ?P by assumption; rewrite ?Ep, ?En; reflexivity.
Qed.


Lemma put_addr_out f p a pg o :
  ~ in_range p FIL_ADDR_SIZE pg o -> put_addr f p a pg o = f pg o.
Proof. intros H. rewrite put_addr_unfold. apply store_bytes_out. exact H. Qed.


Lemma remove_links_out io f base c pg o :
  Forall (fun r => ~ in_range (fst r) (snd r) pg o)
         (tl (remove_writes f base (node_ptr c))) ->
  remove_links io f base (node_ptr c) pg o = f pg o.
Proof.
  intros H. rewrite remove_links_nf. unfold remove_writes in H.
  set (pv := flst_get_prev_addr f (node_ptr c)) in *.
  set (nx := flst_get_next_addr f (node_ptr c)) in *.
  clearbody pv nx. cbv zeta in *. unfold tl in H.
  inversion H as [|? ? H1 H']; subst. inversion H' as [|? ? H2 _]; subst.
  unfold fst, snd in H1, H2.
  destruct (page pv =? FIL_NULL); destruct (page nx =? FIL_NULL);
    destruct (fetch_fails io (node_ptr c) pv);
    destruct (fetch_fails io (node_ptr c) nx);
    rewrite ?put_addr_out by assumption; reflexivity.
Qed.

Lemma remove_frames_out io f base c pg o :
  Forall (fun r => ~ in_range (fst r) (snd r) pg o)
         (remove_writes f base (node_ptr c)) ->
  remove_frames io f base (node_ptr c) pg o = f pg o.
Proof.
  intros H. unfold remove_writes in H. cbv zeta in H.
  inversion H as [|? ? H0 H']; subst. unfold fst, snd in H0.
  unfold remove_frames.
  destruct (mach_read_from_4 (remove_links io f base (node_ptr c)) (base +! FLST_LEN) =? 0).
  - apply remove_links_out. exact H'.
  - unfold bump_len, put_len. rewrite store_bytes_out by exact H0.
    apply remove_links_out. exact H'.
Qed.








(** ** Removing from an empty list *)





(** ** Null addresses *)

Lemma pinned_null : pinned fil_addr_null.
Proof. intros _. reflexivity. Qed.

Lemma pinned_node a : node_ok a -> pinned a.
Proof. intros [H _] E. lia. Qed.

Lemma pinned_hd L : Forall node_ok L -> pinned (hd fil_addr_null L).
Proof.
  intros H. destruct L as [|x L]; [apply pinned_null|].
  apply pinned_node. inversion H. assumption.
Qed.

Lemma pinned_last L : Forall node_ok L -> pinned (last L fil_addr_null).
Proof.
  intros H. destruct (list_snoc_cases L) as [->|(L' & x & ->)]; [apply pinned_null|].
  rewrite last_last. apply pinned_node.
  apply Forall_app in H. destruct H as [_ H]. inversion H. assumption.
Qed.

Lemma chain_pinned f p L q :
  chain f p L q -> pinned p -> pinned q -> Forall node_ok L ->
  Forall (fun fld => pinned (flst_read_addr f fld))
         (flat_map (fun n => [node_ptr n +! FLST_PREV; node_ptr n +! FLST_NEXT]) L).
Proof.
  revert p. induction L as [|n L IH]; intros p C Hp Hq Hok; [apply Forall_nil|].
  cbn [chain flat_map app] in *. destruct C as (Cp & Cn & C).
  apply Forall_cons_iff in Hok. destruct Hok as [On Ok'].
  apply Forall_cons; [|apply Forall_cons].
  - unfold flst_get_prev_addr in Cp. rewrite Cp. exact Hp.
  - unfold flst_get_next_addr in Cn. rewrite Cn.
    destruct L as [|x L]; [exact Hq|]. cbn [hd]. apply pinned_node.
    inversion Ok'. assumption.
  - apply (IH n C (pinned_node _ On) Hq Ok').
Qed.

(** [flst_zero_both] leaves two null addresses, each with offset 0. *)
Lemma flst_zero_both_null addr m :
  exists m',
    flst_zero_both addr m = Done tt m' /\
    flst_read_addr (m_frames m') addr = fil_addr_null /\
    flst_read_addr (m_frames m') (addr +! FIL_ADDR_SIZE) = fil_addr_null.
Proof.
  pose proof (wp_flst_zero_both addr m (m_frames m)
                (fun _ m' => frames_eq (m_frames m') (zero_both_frames (m_frames m) addr))
                (frames_eq_refl _) (fun m' F' => F')) as W.
  apply wp_done in W. destruct W as ([] & m' & R & F').
  exists m'. split; [exact R|].
  rewrite !(flst_read_addr_ext _ _ _ F'). unfold zero_both_frames.
  split; rd; rfl.
Qed.

(** C8: in every state a list goes through, each address field of the list
    (FIRST and LAST of the base node, PREV and NEXT of every node) whose
    page number is [FIL_NULL] has offset 0. *)
Theorem null_offset_pinned io base m L :
  reachable io base m L ->
  Forall (fun fld => pinned (flst_read_addr (m_frames m) fld)) (list_fields base L).
Proof.
  intros R. pose proof (reachable_inv _ _ _ _ R) as [Hb _ Hfirst Hlast Hchain Hok _ _].
  unfold list_fields.
  apply Forall_cons; [|apply Forall_cons].
  - unfold flst_get_first in Hfirst. rewrite Hfirst. apply pinned_hd, Hok.
  - unfold flst_get_last in Hlast. rewrite Hlast. apply pinned_last, Hok.
  - apply (chain_pinned _ _ _ _ Hchain pinned_null pinned_null Hok).
Qed.

Lemma null_offset_pinned_witness :
  Forall (fun fld => pinned (flst_read_addr (m_frames ex_m3) fld))
         (list_fields ex_base [ex_A; ex_C; ex_B]).
Proof.
  exact (null_offset_pinned ex_io ex_base ex_m3 [ex_A; ex_C; ex_B] ex_reachable).
Defined.

(** ** The log of [flst_add_to_empty] *)









(** ** The validator accepts the lists of the invariant *)

Lemma validate_hops_next io f p L q :
  chain f p L q -> Forall node_ok L ->
  (forall n, In n L -> io (page n) = DB_SUCCESS) ->
  validate_hops io flst_get_next_addr f (length L) (hd q L) = Some q.
Proof.
  revert p. induction L as [|n L IH]; intros p C Hok Hio; [reflexivity|].
  cbn [hd chain length validate_hops] in *. destruct C as (_ & Cn & C).
  apply Forall_cons_iff in Hok. destruct Hok as [_ Ok'].
  rewrite (Hio n (or_introl eq_refl)), node_ptr_frame, Cn.
  apply (IH n C Ok'). intros x Hx. apply Hio. right. exact Hx.
Qed.

Lemma validate_hops_prev io f p L q :
  chain f p L q -> Forall node_ok L ->
  (forall n, In n L -> io (page n) = DB_SUCCESS) ->
  validate_hops io flst_get_prev_addr f (length L) (last L p) = Some p.
Proof.
  revert q. induction L as [|n L IH] using rev_ind; intros q C Hok Hio; [reflexivity|].
  rewrite last_last, length_app. cbn [length]. rewrite Nat.add_1_r.
  cbn [validate_hops].
  apply chain_app in C. cbn [hd chain] in C. destruct C as (C & Cp & _).
  apply Forall_app in Hok. destruct Hok as [Ok' _].
  assert (In n (L ++ [n])) as Hn by (apply in_or_app; right; left; reflexivity).
  rewrite (Hio n Hn), node_ptr_frame, Cp.
  apply (IH n C Ok'). intros x Hx. apply Hio, in_or_app. left. exact Hx.
Qed.

(** X9: on a list built by [flst_init] and operations that returned
    [DB_SUCCESS], and with the pages of its nodes there to be fetched, no
    assertion of [flst_validate] fails: every fetch gives a block, and
    after as many hops as the length says, by NEXT from FIRST and by PREV
    from LAST, the address reached is null. *)
Theorem flst_validate_reachable io base m L :
  reachable io base m L ->
  (forall n, In n L -> io (page n) = DB_SUCCESS) ->
  flst_validate io (m_frames m) base = true.
Proof.
  intros R Hio. destruct (reachable_inv _ _ _ _ R) as [_ Hlen Hfirst Hlast Hchain Hok _ _].
  unfold flst_validate. rewrite Hlen, Nat2Z.id, Hfirst, Hlast.
  rewrite (validate_hops_next io _ _ _ _ Hchain Hok Hio).
  rewrite (validate_hops_prev io _ _ _ _ Hchain Hok Hio).
  reflexivity.
Qed.

Lemma flst_validate_reachable_witness :
  flst_validate ex_io (m_frames ex_m3) ex_base = true.
Proof.
  apply (flst_validate_reachable ex_io ex_base ex_m3 [ex_A; ex_C; ex_B] ex_reachable).
  intros n _. reflexivity.
Defined.

(** ** Initialising: what is written, what is logged *)

Lemma mach_read_from_2_of_bytes f p v :
  0 <= v < 2 ^ 16 -> load_bytes f p 2 = mach_write_to_2 v -> mach_read_from_2 f p = v.
Proof.
  intros Hv E.
  rewrite <- (mach_read_write_2 f p v Hv). symmetry.
  apply mach_read_from_2_ext, store_bytes_same. exact E.
Qed.

Lemma mach_read_from_4_of_bytes f p v :
  0 <= v < 2 ^ 32 -> load_bytes f p 4 = mach_write_to_4 v -> mach_read_from_4 f p = v.
Proof.
  intros Hv E.
  rewrite <- (mach_read_write_4 f p v Hv). symmetry.
  apply mach_read_from_4_ext, store_bytes_same. exact E.
Qed.

Lemma bytes_eqb_load_2 f p v :
  0 <= v < 2 ^ 16 ->
  bytes_eqb (load_bytes f p 2) (mach_write_to_2 v) = (mach_read_from_2 f p =? v).
Proof.
  intros Hv. destruct (Z.eqb_spec (mach_read_from_2 f p) v) as [E|E].
  - apply bytes_eqb_eq, load_bytes_2_of_read, E.
  - destruct (bytes_eqb (load_bytes f p 2) (mach_write_to_2 v)) eqn:B; [|reflexivity].
    apply bytes_eqb_eq in B. contradiction E.
    apply mach_read_from_2_of_bytes; assumption.
Qed.

Lemma bytes_eqb_load_4 f p v :
  0 <= v < 2 ^ 32 ->
  bytes_eqb (load_bytes f p 4) (mach_write_to_4 v) = (mach_read_from_4 f p =? v).
Proof.
  intros Hv. destruct (Z.eqb_spec (mach_read_from_4 f p) v) as [E|E].
  - apply bytes_eqb_eq, load_bytes_4_of_read, E.
  - destruct (bytes_eqb (load_bytes f p 4) (mach_write_to_4 v)) eqn:B; [|reflexivity].
    apply bytes_eqb_eq in B. contradiction E.
    apply mach_read_from_4_of_bytes; assumption.
Qed.

Lemma zero_both_frames_out f addr pg o :
  ~ in_range addr (2 * FIL_ADDR_SIZE) pg o -> zero_both_frames f addr pg o = f pg o.
Proof.
  intros H. unfold zero_both_frames.
  rewrite !put_addr_out; [reflexivity| |];
    unfold in_range, FIL_ADDR_SIZE in *; cbn [ptr_add blk pos]; lia.
Qed.

(** The log [flst_zero_both] appends. *)
Lemma wp_flst_zero_both_exact addr m (Q : unit -> mtr_t -> Prop) :
  (forall m',
      frames_eq (m_frames m') (zero_both_frames (m_frames m) addr) ->
      m_log m' = m_log m ++
        (if page (flst_read_addr (m_frames m) addr) =? FIL_NULL then []
         else [LogMemset (addr +! FIL_ADDR_PAGE) 4 (byte.of_Z 255)]) ++
        (if boffset (flst_read_addr (m_frames m) addr) =? 0 then []
         else [LogWrite (addr +! FIL_ADDR_BYTE) (mach_write_to_2 0)]) ++
        [LogMemmove (addr +! FIL_ADDR_SIZE) addr (Z.to_nat FIL_ADDR_SIZE)] ->
      Q tt m') ->
  wp (flst_zero_both addr) m Q.
Proof.
  intros H.
  pose proof (wp_flst_zero_both addr m (m_frames m)
                (fun _ m' => frames_eq (m_frames m') (zero_both_frames (m_frames m) addr))
                (frames_eq_refl _) (fun m' F' => F')) as WF.
  assert (WL : wp (flst_zero_both addr) m
                 (fun _ m' => m_log m' = m_log m ++
        (if page (flst_read_addr (m_frames m) addr) =? FIL_NULL then []
         else [LogMemset (addr +! FIL_ADDR_PAGE) 4 (byte.of_Z 255)]) ++
        (if boffset (flst_read_addr (m_frames m) addr) =? 0 then []
         else [LogWrite (addr +! FIL_ADDR_BYTE) (mach_write_to_2 0)]) ++
        [LogMemmove (addr +! FIL_ADDR_SIZE) addr (Z.to_nat FIL_ADDR_SIZE)])).
  { unfold flst_zero_both. cbn [flst_read_addr page boffset].
    apply wp_bind. apply (wp_gets _ _ _ _ (frames_eq_refl _)).
    { intros f f' Hf. apply mach_read_from_4_ext, Hf. }
    set (f := m_frames m).
    apply wp_bind.
    assert (S1 : forall (Q1 : unit -> mtr_t -> Prop),
               (forall m1,
                   frames_eq (m_frames m1)
                     (store_bytes f (addr +! FIL_ADDR_PAGE) (mach_write_to_4 FIL_NULL)) ->
                   m_log m1 = m_log m ++
                     (if mach_read_from_4 f (addr +! FIL_ADDR_PAGE) =? FIL_NULL then []
                      else [LogMemset (addr +! FIL_ADDR_PAGE) 4 (byte.of_Z 255)]) ->
                   Q1 tt m1) ->
               wp (if negb (mach_read_from_4 f (addr +! FIL_ADDR_PAGE) =? FIL_NULL)
                   then mtr_memset (addr +! FIL_ADDR_PAGE) 4 (byte.of_Z 255)
                   else ret tt) m Q1).
    { intros Q1 H1.
      destruct (Z.eqb_spec (mach_read_from_4 f (addr +! FIL_ADDR_PAGE)) FIL_NULL) as [En|En];
        cbn [negb].
      - apply wp_ret. apply H1; [|rewrite app_nil_r; reflexivity].
        apply frames_eq_sym, store_bytes_same. apply load_bytes_4_of_read. exact En.
      - apply (wp_mtr_memset _ _ _ _ f _ (frames_eq_refl _)). intros m1 F1 L1.
        apply H1; [exact F1|exact L1]. }
    apply S1. intros m1 F1 L1.
    apply wp_bind. apply (wp_mtr_write_maybe_nop _ _ _ _ _ F1). intros m2 F2 L2.
    apply wp_bind. apply (wp_memcpy _ _ _ _ _ _ F2). intros m3 F3 L3.
    apply (wp_mtr_memmove _ _ _ _ _ _ F3). intros m4 F4 L4.
    rewrite L4, L3, L2, L1. rewrite <- !app_assoc. do 2 f_equal.
    change (length (mach_write_to_2 0)) with 2%nat.
    rewrite load_bytes_apart
      by (unfold apart, FIL_ADDR_PAGE, FIL_ADDR_BYTE; cbn [ptr_add blk pos length mach_write_to_4]; lia).
    rewrite bytes_eqb_load_2 by (split; [lia|reflexivity]). reflexivity. }
  unfold wp in *. destruct (flst_zero_both addr m) as [[] m'|]; [|exact WF].
  apply H; assumption.
Qed.

(** X1: [flst_zero_both] always returns; it leaves two null addresses with
    offset 0, leaves every byte outside the twelve as it was, and logs at
    most three records: a MEMSET when the first page number was not
    [FIL_NULL], a 2-byte write when the first offset was not 0, and the
    MEMMOVE that copies the first address onto the second. *)
Theorem flst_zero_both_effect addr m :
  exists m',
    flst_zero_both addr m = Done tt m' /\
    flst_read_addr (m_frames m') addr = fil_addr_null /\
    flst_read_addr (m_frames m') (addr +! FIL_ADDR_SIZE) = fil_addr_null /\
    (forall pg o, ~ in_range addr (2 * FIL_ADDR_SIZE) pg o ->
                  m_frames m' pg o = m_frames m pg o) /\
    m_log m' = m_log m ++
      (if page (flst_read_addr (m_frames m) addr) =? FIL_NULL then []
       else [LogMemset (addr +! FIL_ADDR_PAGE) 4 (byte.of_Z 255)]) ++
      (if boffset (flst_read_addr (m_frames m) addr) =? 0 then []
       else [LogWrite (addr +! FIL_ADDR_BYTE) (mach_write_to_2 0)]) ++
      [LogMemmove (addr +! FIL_ADDR_SIZE) addr 6].
Proof.
  pose proof (wp_flst_zero_both_exact addr m
                (fun _ m' => frames_eq (m_frames m') (zero_both_frames (m_frames m) addr) /\
                             m_log m' = m_log m ++ _)
                (fun m' F' L' => conj F' L')) as W.
  apply wp_done in W. destruct W as ([] & m' & R & F' & L').
  exists m'. split; [exact R|].
  rewrite !(flst_read_addr_ext _ _ _ F').
  split; [unfold zero_both_frames; rd; rfl|].
  split; [unfold zero_both_frames; rd; rfl|].
  split; [|exact L'].
  intros pg o H. rewrite F'. apply zero_both_frames_out, H.
Qed.

Lemma put_addr_same f p a :
  flst_read_addr f p = a -> frames_eq (put_addr f p a) f.
Proof.
  intros E. pose proof (frames_eq_put_addr f p (page a) (boffset a)) as H.
  cbv zeta in H. rewrite E, !Z.eqb_refl, fil_addr_eta in H.
  apply frames_eq_sym, H.
Qed.

Lemma init_frames_out f base pg o :
  ~ in_range base FLST_BASE_NODE_SIZE pg o -> init_frames f base pg o = f pg o.
Proof.
  intros H. unfold init_frames.
  rewrite zero_both_frames_out
    by (unfold in_range, FLST_BASE_NODE_SIZE, FLST_FIRST, FIL_ADDR_SIZE in *;
        cbn [ptr_add blk pos]; lia).
  unfold put_len. apply store_bytes_out.
  unfold in_range, FLST_BASE_NODE_SIZE, FLST_LEN, FIL_ADDR_SIZE in *.
  cbn [ptr_add blk pos length mach_write_to_4]. lia.
Qed.

Lemma wp_flst_init_exact base m :
  wp (flst_init base) m
     (fun _ m' =>
        frames_eq (m_frames m') (init_frames (m_frames m) base) /\
        m_log m' = m_log m ++
      (if flst_get_len (m_frames m) base =? 0 then []
       else [LogWrite (base +! FLST_LEN) (mach_write_to_4 0)]) ++
      (if page (flst_get_first (m_frames m) base) =? FIL_NULL then []
       else [LogMemset (base +! FLST_FIRST +! FIL_ADDR_PAGE) 4 (byte.of_Z 255)]) ++
      (if boffset (flst_get_first (m_frames m) base) =? 0 then []
       else [LogWrite (base +! FLST_FIRST +! FIL_ADDR_BYTE) (mach_write_to_2 0)]) ++
      [LogMemmove (base +! FLST_FIRST +! FIL_ADDR_SIZE) (base +! FLST_FIRST) 6]).
Proof.
  unfold flst_init. apply wp_bind.
  apply (wp_mtr_write_maybe_nop _ _ _ _ _ (frames_eq_refl _)). intros m1 F1 L1.
  apply wp_flst_zero_both_exact. intros m2 F2 L2. split.
  - eapply frames_eq_trans; [exact F2|]. apply zero_both_frames_ext. exact F1.
  - rewrite L2, L1. rewrite <- !app_assoc. f_equal.
    change (length (mach_write_to_4 0)) with 4%nat.
    rewrite bytes_eqb_load_4 by (split; [lia|reflexivity]).
    unfold flst_get_len, flst_get_first. f_equal.
    rewrite !(flst_read_addr_ext _ _ _ F1).
    rewrite !(read_store_miss (m_frames m)) by sep1. reflexivity.
Qed.

(** X2: [flst_init] always returns, for every base node and every content
    of the frames: the length is then 0 and FIRST and LAST are null
    addresses with offset 0; no byte outside the sixteen of the base node
    changes; the log gets a 4-byte write of the length unless it was 0
    already, then the records of [flst_zero_both]. *)
Theorem flst_init_effect base m :
  exists m',
    flst_init base m = Done tt m' /\
    flst_get_len (m_frames m') base = 0 /\
    flst_get_first (m_frames m') base = fil_addr_null /\
    flst_get_last (m_frames m') base = fil_addr_null /\
    (forall pg o, ~ in_range base FLST_BASE_NODE_SIZE pg o ->
                  m_frames m' pg o = m_frames m pg o) /\
    m_log m' = m_log m ++
      (if flst_get_len (m_frames m) base =? 0 then []
       else [LogWrite (base +! FLST_LEN) (mach_write_to_4 0)]) ++
      (if page (flst_get_first (m_frames m) base) =? FIL_NULL then []
       else [LogMemset (base +! FLST_FIRST +! FIL_ADDR_PAGE) 4 (byte.of_Z 255)]) ++
      (if boffset (flst_get_first (m_frames m) base) =? 0 then []
       else [LogWrite (base +! FLST_FIRST +! FIL_ADDR_BYTE) (mach_write_to_2 0)]) ++
      [LogMemmove (base +! FLST_FIRST +! FIL_ADDR_SIZE) (base +! FLST_FIRST) 6].
Proof.
  pose proof (wp_flst_init_exact base m) as W.
  apply wp_done in W. destruct W as ([] & m' & R & F' & L').
  exists m'. split; [exact R|].
  unfold flst_get_len at 1. unfold flst_get_first at 1. unfold flst_get_last.
  rewrite !(flst_read_addr_ext _ _ _ F'), (mach_read_from_4_ext _ _ _ F').
  unfold init_frames.
  split; [rd; reflexivity|]. split; [rd; rfl|]. split; [rd; rfl|].
  split; [|exact L'].
  intros pg o H. rewrite F'. apply init_frames_out, H.
Qed.

(** X3: [flst_init] on a base node that is an empty list already (length 0,
    FIRST and LAST null with offset 0) changes no byte of any frame and
    logs one record only, the MEMMOVE of FIRST onto LAST. *)
Theorem flst_init_again base m :
  flst_get_len (m_frames m) base = 0 ->
  flst_get_first (m_frames m) base = fil_addr_null ->
  flst_get_last (m_frames m) base = fil_addr_null ->
  exists m',
    flst_init base m = Done tt m' /\
    (forall pg o, m_frames m' pg o = m_frames m pg o) /\
    m_log m' = m_log m ++
      [LogMemmove (base +! FLST_FIRST +! FIL_ADDR_SIZE) (base +! FLST_FIRST) 6].
Proof.
  intros Hl Hf Hla.
  pose proof (wp_flst_init_exact base m) as W.
  apply wp_done in W. destruct W as ([] & m' & R & F' & L).
  exists m'. split; [exact R|]. split.
  - intros pg o. rewrite F'. unfold init_frames.
    assert (E0 : frames_eq (put_len (m_frames m) base 0) (m_frames m)).
    { unfold put_len. apply store_bytes_same. apply load_bytes_4_of_read. exact Hl. }
    rewrite zero_both_frames_base.
    assert (E1 : frames_eq (put_addr (put_len (m_frames m) base 0) (base +! FLST_FIRST)
                                     fil_addr_null) (m_frames m)).
    { eapply frames_eq_trans; [apply put_addr_ext, E0|]. apply put_addr_same, Hf. }
    assert (E2 : frames_eq
                   (put_addr (put_addr (put_len (m_frames m) base 0) (base +! FLST_FIRST)
                                       fil_addr_null) (base +! FLST_LAST) fil_addr_null)
                   (m_frames m)).
    { eapply frames_eq_trans; [apply put_addr_ext, E1|]. apply put_addr_same, Hla. }
    apply E2.
  - rewrite L, Hl, Hf. reflexivity.
Qed.

Lemma flst_init_again_witness :
  exists m',
    flst_init ex_base ex_m0 = Done tt m' /\
    (forall pg o, m_frames m' pg o = m_frames ex_m0 pg o) /\
    m_log m' = m_log ex_m0 ++
      [LogMemmove (ex_base +! FLST_FIRST +! FIL_ADDR_SIZE) (ex_base +! FLST_FIRST) 6].
Proof.
  apply (flst_init_again ex_base ex_m0); vm_compute; reflexivity.
Defined.

(** ** Writing an address: round trip, repetition, assertions *)




(** ** Operations on a list always return *)




(** ** The order of the nodes *)

(** X7: after [flst_init] and operations that each returned [DB_SUCCESS],
    the walk from FIRST by NEXT meets the nodes in the order the operations
    define ([flst_add_first] puts the node in front, [flst_add_last] at the
    end, [flst_insert_before] and [flst_insert_after] next to the node
    given, [flst_remove] takes the node out), and the walk from LAST by
    PREV meets them in the reverse order. *)
Theorem flst_traversal io base m L :
  reachable io base m L ->
  walk flst_get_next_addr (m_frames m) (length L) (flst_get_first (m_frames m) base)
    = Some L /\
  walk flst_get_prev_addr (m_frames m) (length L) (flst_get_last (m_frames m) base)
    = Some (rev L).
Proof.
  intros R. apply flst_inv_walks; [apply (reachable_inv _ _ _ _ R)|apply le_n].
Qed.

Lemma flst_traversal_witness :
  walk flst_get_next_addr (m_frames ex_m3) 3 (flst_get_first (m_frames ex_m3) ex_base)
    = Some [ex_A; ex_C; ex_B] /\
  walk flst_get_prev_addr (m_frames ex_m3) 3 (flst_get_last (m_frames ex_m3) ex_base)
    = Some [ex_B; ex_C; ex_A].
Proof.
  exact (flst_traversal ex_io ex_base ex_m3 [ex_A; ex_C; ex_B] ex_reachable).
Defined.

(** X8: in every state of a list, the length is 0 exactly when FIRST is a
    null address, and exactly when LAST is one: the test [!flst_get_len] of
    [flst_add_first] and [flst_add_last] decides whether there is a first
    and a last node. *)
Theorem flst_empty_iff io base m L :
  reachable io base m L ->
  (flst_get_len (m_frames m) base = 0 <->
   page (flst_get_first (m_frames m) base) = FIL_NULL) /\
  (flst_get_len (m_frames m) base = 0 <->
   page (flst_get_last (m_frames m) base) = FIL_NULL).
Proof.
  intros R. destruct (reachable_inv _ _ _ _ R) as [_ Hlen Hfirst Hlast _ Hok _ _].
  rewrite Hlen, Hfirst, Hlast.
  destruct (list_snoc_cases L) as [->|(L' & x & ->)].
  - cbn. split; split; reflexivity.
  - rewrite last_last, length_app. cbn [length].
    apply Forall_app in Hok. destruct Hok as [Ok1 Okx].
    apply Forall_cons_iff in Okx. destruct Okx as [[Hx _] _].
    assert (Hh : page (hd fil_addr_null (L' ++ [x])) <> FIL_NULL).
    { destruct L' as [|y L']; cbn [app hd]; [lia|].
      apply Forall_cons_iff in Ok1. destruct Ok1 as [[Hy _] _]. lia. }
    split; split; intros H; try lia; contradiction.
Qed.

Lemma flst_empty_iff_witness :
  (flst_get_len (m_frames ex_m3) ex_base = 0 <->
   page (flst_get_first (m_frames ex_m3) ex_base) = FIL_NULL) /\
  (flst_get_len (m_frames ex_m3) ex_base = 0 <->
   page (flst_get_last (m_frames ex_m3) ex_base) = FIL_NULL).
Proof.
  exact (flst_empty_iff ex_io ex_base ex_m3 [ex_A; ex_C; ex_B] ex_reachable).
Defined.

(** ** Both directions agree *)

(** X10: in every state of a list, the two directions agree at every
    node: a node whose PREV is null is the one FIRST names, and otherwise
    its PREV names a node of the list whose NEXT names it back; a node
    whose NEXT is null is the one LAST names, and otherwise its NEXT names
    a node of the list whose PREV names it back. *)
Theorem flst_links_agree io base m L n :
  reachable io base m L -> In n L ->
  let f := m_frames m in
  let pv := flst_get_prev_addr f (node_ptr n) in
  let nx := flst_get_next_addr f (node_ptr n) in
  (if page pv =? FIL_NULL then flst_get_first f base = n
   else In pv L /\ flst_get_next_addr f (node_ptr pv) = n) /\
  (if page nx =? FIL_NULL then flst_get_last f base = n
   else In nx L /\ flst_get_prev_addr f (node_ptr nx) = n).
Proof.
  intros R Hin f pv nx. pose proof (reachable_inv _ _ _ _ R) as Hinv. fold f in Hinv.
  apply in_split in Hin. destruct Hin as (L1 & L2 & ->).
  destruct (flst_inv_links _ _ _ _ _ Hinv) as (_ & Hp & Hn & _ & _).
  fold pv in Hp. fold nx in Hn.
  destruct Hinv as [_ _ Hfirst Hlast Hchain Hok _ _].
  split.
  - rewrite Hp. destruct (list_snoc_cases L1) as [->|(L1' & x & ->)].
    + cbn. rewrite Hfirst. reflexivity.
    + rewrite last_last.
      assert (Okx : node_ok x).
      { rewrite Forall_forall in Hok. apply Hok.
        apply in_or_app. left. apply in_or_app. right. left. reflexivity. }
      rewrite (node_ok_not_null _ Okx). split.
      * apply in_or_app. left. apply in_or_app. right. left. reflexivity.
      * rewrite <- app_assoc in Hchain. cbn [app] in Hchain.
        apply chain_app in Hchain. destruct Hchain as [_ Hc].
        cbn [chain hd] in Hc. destruct Hc as (_ & Hx & _). exact Hx.
  - rewrite Hn. destruct L2 as [|y L2].
    + cbn. rewrite Hlast, last_last. reflexivity.
    + cbn [hd].
      assert (Oky : node_ok y).
      { rewrite Forall_forall in Hok. apply Hok.
        apply in_or_app. right. right. left. reflexivity. }
      rewrite (node_ok_not_null _ Oky). split.
      * apply in_or_app. right. right. left. reflexivity.
      * apply chain_app in Hchain. destruct Hchain as [_ Hc].
        cbn [chain hd] in Hc. destruct Hc as (_ & _ & Hy & _). exact Hy.
Qed.

Lemma flst_links_agree_witness :
  (if page (flst_get_prev_addr (m_frames ex_m3) (node_ptr ex_C)) =? FIL_NULL
   then flst_get_first (m_frames ex_m3) ex_base = ex_C
   else In (flst_get_prev_addr (m_frames ex_m3) (node_ptr ex_C)) [ex_A; ex_C; ex_B] /\
        flst_get_next_addr (m_frames ex_m3)
          (node_ptr (flst_get_prev_addr (m_frames ex_m3) (node_ptr ex_C))) = ex_C) /\
  (if page (flst_get_next_addr (m_frames ex_m3) (node_ptr ex_C)) =? FIL_NULL
   then flst_get_last (m_frames ex_m3) ex_base = ex_C
   else In (flst_get_next_addr (m_frames ex_m3) (node_ptr ex_C)) [ex_A; ex_C; ex_B] /\
        flst_get_prev_addr (m_frames ex_m3)
          (node_ptr (flst_get_next_addr (m_frames ex_m3) (node_ptr ex_C))) = ex_C).
Proof.
  apply (flst_links_agree ex_io ex_base ex_m3 [ex_A; ex_C; ex_B] ex_C ex_reachable).
  right. left. reflexivity.
Defined.

(** ** Adding at an end: the fetch of the end node *)






(** ** Inserting: what is written, what is returned *)

Lemma fetch_put_out io f nb field a pg o :
  ~ in_range (node_ptr nb +! field) FIL_ADDR_SIZE pg o ->
  fetch_put io f nb field a pg o = f pg o.
Proof.
  intros H. unfold fetch_put. rewrite node_ptr_frame.
  destruct (io (page nb)); try reflexivity. apply put_addr_out. exact H.
Qed.

Lemma node_halves_out p pg o :
  ~ in_range (p +! FLST_PREV) FLST_NODE_SIZE pg o ->
  ~ in_range (p +! FLST_PREV) FIL_ADDR_SIZE pg o /\
  ~ in_range (p +! FLST_NEXT) FIL_ADDR_SIZE pg o.
Proof.
  unfold in_range, ptr_add, FLST_PREV, FLST_NEXT, FLST_NODE_SIZE, FIL_ADDR_SIZE.
  cbn. lia.
Qed.

Lemma insert_after_frames_out io f base cur add pg o :
  Forall (fun r => ~ in_range (fst r) (snd r) pg o) (insert_after_writes f base cur add) ->
  insert_after_frames io f base cur add pg o = f pg o.
Proof.
  intros H. unfold insert_after_writes in H. unfold insert_after_frames.
  set (nx := flst_get_next_addr f cur) in *. clearbody nx. cbv zeta in *.
  apply Forall_cons_iff in H. destruct H as [H0 H].
  apply Forall_cons_iff in H. destruct H as [H1 H].
  apply Forall_cons_iff in H. destruct H as [H2 H].
  apply Forall_cons_iff in H. destruct H as [H3 _].
  unfold fst, snd in *. apply node_halves_out in H1. destruct H1 as [H1 H1'].
  unfold bump_len, put_len. rewrite store_bytes_out by exact H0.
  rewrite put_addr_out by exact H2.
  destruct (page nx =? FIL_NULL).
  - rewrite !put_addr_out by assumption. reflexivity.
  - rewrite fetch_put_out by exact H3. rewrite !put_addr_out by assumption. reflexivity.
Qed.

Lemma insert_before_frames_out io f base cur add pg o :
  Forall (fun r => ~ in_range (fst r) (snd r) pg o) (insert_before_writes f base cur add) ->
  insert_before_frames io f base cur add pg o = f pg o.
Proof.
  intros H. unfold insert_before_writes in H. unfold insert_before_frames.
  set (pv := flst_get_prev_addr f cur) in *. clearbody pv. cbv zeta in *.
  apply Forall_cons_iff in H. destruct H as [H0 H].
  apply Forall_cons_iff in H. destruct H as [H1 H].
  apply Forall_cons_iff in H. destruct H as [H2 H].
  apply Forall_cons_iff in H. destruct H as [H3 _].
  unfold fst, snd in *. apply node_halves_out in H1. destruct H1 as [H1 H1'].
  unfold bump_len, put_len. rewrite store_bytes_out by exact H0.
  rewrite put_addr_out by exact H2.
  destruct (page pv =? FIL_NULL).
  - rewrite !put_addr_out by assumption. reflexivity.
  - rewrite fetch_put_out by exact H3. rewrite !put_addr_out by assumption. reflexivity.
Qed.







(** ** The page cache is asked for the neighbours only *)

(** X16: [flst_remove] asks the page cache for the page of the predecessor
    and for the page of the successor, each only when there is one and it
    is on another page than the node removed: two page caches that answer
    alike for these pages give the same result, frames and log, whatever
    they answer for any other page. *)
Theorem flst_remove_fetches io io' base cur m :
  let pv := flst_get_prev_addr (m_frames m) cur in
  let nx := flst_get_next_addr (m_frames m) cur in
  (page pv <> FIL_NULL -> page pv <> page_no cur -> io (page pv) = io' (page pv)) ->
  (page nx <> FIL_NULL -> page nx <> page_no cur -> io (page nx) = io' (page nx)) ->
  flst_remove io base cur m = flst_remove io' base cur m.
Proof.
  intros pv nx Hp Hn.
  unfold flst_remove, bind, gets, buf_page_get_gen. fold pv nx. clearbody pv nx.
  destruct (Z.eqb_spec (page pv) FIL_NULL) as [Ep|Ep];
    destruct (Z.eqb_spec (page pv) (page_no cur)) as [Ep'|Ep'];
    destruct (Z.eqb_spec (page nx) FIL_NULL) as [En|En];
    destruct (Z.eqb_spec (page nx) (page_no cur)) as [En'|En'];
    cbn [negb];
    try rewrite (Hp Ep Ep'); try rewrite (Hn En En'); reflexivity.
Qed.

Lemma flst_remove_fetches_witness :
  flst_remove ex_io_fail ex_base (node_ptr ex_A) ex_m3
  = flst_remove ex_io ex_base (node_ptr ex_A) ex_m3.
Proof.
  apply (flst_remove_fetches ex_io_fail ex_io ex_base (node_ptr ex_A) ex_m3).
  - intros H. exfalso. apply H. vm_compute. reflexivity.
  - intros _ H. exfalso. apply H. vm_compute. reflexivity.
Defined.

(** X17: [flst_insert_after] asks the page cache for the page of the
    successor of the node inserted after, when there is one, and for no
    other page; [flst_insert_before] for the page of the predecessor of
    the node inserted before, when there is one, and for no other page. *)
Theorem flst_insert_fetches io io' base cur add m :
  let pv := flst_get_prev_addr (m_frames m) cur in
  let nx := flst_get_next_addr (m_frames m) cur in
  ((page nx <> FIL_NULL -> io (page nx) = io' (page nx)) ->
   flst_insert_after io base cur add m = flst_insert_after io' base cur add m) /\
  ((page pv <> FIL_NULL -> io (page pv) = io' (page pv)) ->
   flst_insert_before io base cur add m = flst_insert_before io' base cur add m).
Proof.
  intros pv nx. split; intros H.
  - unfold flst_insert_after, bind, gets, buf_page_get_gen. fold nx. clearbody nx.
    destruct (Z.eqb_spec (page nx) FIL_NULL) as [En|En]; [reflexivity|].
    rewrite (H En). reflexivity.
  - unfold flst_insert_before, bind, gets, buf_page_get_gen. fold pv. clearbody pv.
    destruct (Z.eqb_spec (page pv) FIL_NULL) as [En|En]; [reflexivity|].
    rewrite (H En). reflexivity.
Qed.

Lemma flst_insert_fetches_witness :
  flst_insert_after ex_io_fail ex_base (node_ptr ex_B) (node_ptr ex_C) ex_m2
  = flst_insert_after ex_io ex_base (node_ptr ex_B) (node_ptr ex_C) ex_m2 /\
  flst_insert_before ex_io_fail ex_base (node_ptr ex_A) (node_ptr ex_C) ex_m2
  = flst_insert_before ex_io ex_base (node_ptr ex_A) (node_ptr ex_C) ex_m2.
Proof.
  split.
  - apply (proj1 (flst_insert_fetches ex_io_fail ex_io ex_base (node_ptr ex_B)
                    (node_ptr ex_C) ex_m2)).
    intros H. exfalso. apply H. vm_compute. reflexivity.
  - apply (proj2 (flst_insert_fetches ex_io_fail ex_io ex_base (node_ptr ex_A)
                    (node_ptr ex_C) ex_m2)).
    intros H. exfalso. apply H. vm_compute. reflexivity.
Defined.

(** ** Every change to a frame is in the log *)

Lemma redo_ext r f g : frames_eq f g -> frames_eq (redo r f) (redo r g).
Proof.
  intros H. destruct r as [d bs|d n b|d s n]; cbn [redo].
  - apply store_bytes_ext, H.
  - apply store_bytes_ext, H.
  - rewrite (load_bytes_ext f g s n H). apply store_bytes_ext, H.
Qed.

Lemma replay_ext l f g : frames_eq f g -> frames_eq (replay l f) (replay l g).
Proof.
  revert f g. induction l as [|r l IH]; intros f g H; [exact H|].
  cbn [replay fold_left]. apply IH, redo_ext, H.
Qed.

Lemma replay_app l1 l2 f : replay (l1 ++ l2) f = replay l2 (replay l1 f).
Proof. unfold replay. apply fold_left_app. Qed.

Lemma logged_ret {A} (a : A) : logged (ret a).
Proof.
  intros m a' m' R. inversion R; subst. exists []. split.
  - symmetry. apply app_nil_r.
  - apply frames_eq_refl.
Qed.

Lemma logged_gets {A} (g : frames -> A) : logged (gets g).
Proof.
  intros m a' m' R. inversion R; subst. exists []. split.
  - symmetry. apply app_nil_r.
  - apply frames_eq_refl.
Qed.

Lemma logged_ut_a c : logged (ut_a c).
Proof.
  intros m a' m' R. unfold ut_a in R. destruct c; [|discriminate].
  inversion R; subst. exists []. split.
  - symmetry. apply app_nil_r.
  - apply frames_eq_refl.
Qed.

Lemma logged_bind {A B} (c : M A) (k : A -> M B) :
  logged c -> (forall a, logged (k a)) -> logged (bind c k).
Proof.
  intros Hc Hk m b m2 R. unfold bind in R.
  destruct (c m) as [a m1|] eqn:E; [|discriminate].
  destruct (Hc _ _ _ E) as (l1 & L1 & F1).
  destruct (Hk a _ _ _ R) as (l2 & L2 & F2).
  exists (l1 ++ l2). split.
  - rewrite L2, L1. symmetry. apply app_assoc.
  - rewrite replay_app. eapply frames_eq_trans; [exact F2|]. apply replay_ext, F1.
Qed.

Lemma logged_mtr_memcpy dst bs : logged (mtr_memcpy dst bs).
Proof.
  intros m a m' R. inversion R; subst. exists [LogWrite dst bs]. split.
  - reflexivity.
  - apply frames_eq_refl.
Qed.

Lemma logged_mtr_write bs dst : logged (mtr_write bs dst).
Proof. apply logged_mtr_memcpy. Qed.

Lemma logged_mtr_write_maybe_nop bs dst : logged (mtr_write_maybe_nop bs dst).
Proof.
  unfold mtr_write_maybe_nop. apply logged_bind; [apply logged_gets|].
  intros old. destruct (bytes_eqb old bs); [apply logged_ret|apply logged_mtr_memcpy].
Qed.

Lemma logged_mtr_memset dst len fill : logged (mtr_memset dst len fill).
Proof.
  intros m a m' R. inversion R; subst. exists [LogMemset dst len fill]. split.
  - reflexivity.
  - apply frames_eq_refl.
Qed.

(** A plain [memcpy] is not logged, and [mtr_t::memmove] writes nothing:
    the two together are a logged copy. *)
Lemma logged_copy_then {B} dst src len (k : M B) :
  logged k -> logged (memcpy dst src len ;;; mtr_memmove dst src len ;;; k).
Proof.
  intros Hk m b m' R.
  unfold bind at 1 2, memcpy, mtr_memmove, bind at 1, gets, poke, log_append in R.
  destruct (Hk _ _ _ R) as (l & L & F). cbn [m_frames m_log] in L, F.
  exists (LogMemmove dst src len :: l). split.
  - rewrite L, <- app_assoc. reflexivity.
  - exact F.
Qed.

Lemma logged_copy dst src len :
  logged (memcpy dst src len ;;; mtr_memmove dst src len).
Proof.
  intros m b m' R.
  unfold bind, memcpy, mtr_memmove, gets, poke, log_append in R.
  inversion R; subst. exists [LogMemmove dst src len]. split.
  - reflexivity.
  - apply frames_eq_refl.
Qed.

Lemma logged_buf_page_get_gen io pg : logged (buf_page_get_gen io pg).
Proof. unfold buf_page_get_gen. destruct (io pg); apply logged_ret. Qed.

Ltac lg :=
  repeat first
    [ apply logged_ret | apply logged_gets | apply logged_ut_a
    | apply logged_mtr_memcpy | apply logged_mtr_write
    | apply logged_mtr_write_maybe_nop | apply logged_mtr_memset
    | apply logged_buf_page_get_gen
    | apply logged_copy | apply logged_copy_then
    | assumption
    | apply logged_bind; [|intros ?]
    | match goal with
      | |- logged (if ?b then _ else _) => destruct b
      | |- logged (match ?r with (_, _) => _ end) => destruct r as [[?|] ?]
      | |- logged (match ?r with Some _ => _ | None => _ end) => destruct r
      end ].

Lemma logged_flst_write_addr faddr pg bo : logged (flst_write_addr faddr pg bo).
Proof. unfold flst_write_addr. lg. Qed.

Lemma logged_flst_zero_both addr : logged (flst_zero_both addr).
Proof. unfold flst_zero_both. lg. Qed.

Lemma logged_flst_add_to_empty base add : logged (flst_add_to_empty base add).
Proof.
  pose proof logged_flst_write_addr. pose proof logged_flst_zero_both.
  unfold flst_add_to_empty. lg.
Qed.

Lemma logged_flst_init base : logged (flst_init base).
Proof. pose proof logged_flst_zero_both. unfold flst_init. lg. Qed.

Lemma logged_flst_insert_after io base cur add :
  logged (flst_insert_after io base cur add).
Proof.
  pose proof logged_flst_write_addr as Hw.
  unfold flst_insert_after. cbv zeta. lg; apply Hw.
Qed.

Lemma logged_flst_insert_before io base cur add :
  logged (flst_insert_before io base cur add).
Proof.
  pose proof logged_flst_write_addr as Hw.
  unfold flst_insert_before. cbv zeta. lg; apply Hw.
Qed.

Lemma logged_flst_add_last io base add : logged (flst_add_last io base add).
Proof.
  pose proof logged_flst_add_to_empty. pose proof logged_flst_insert_after.
  unfold flst_add_last. lg.
Qed.

Lemma logged_flst_add_first io base add : logged (flst_add_first io base add).
Proof.
  pose proof logged_flst_add_to_empty. pose proof logged_flst_insert_before.
  unfold flst_add_first. lg.
Qed.

Lemma logged_flst_remove io base cur : logged (flst_remove io base cur).
Proof.
  pose proof logged_flst_write_addr as Hw.
  unfold flst_remove. lg; apply Hw.
Qed.

(** X18: whatever [flst_add_first], [flst_add_last], [flst_insert_before],
    [flst_insert_after] and [flst_remove] change in the frames is in the
    records they append to the log, also when they return an error:
    replaying the new records on the frames as they were before the call
    gives the frames as they are after it.  The copies made with a plain
    [memcpy] are covered by the MEMMOVE records that follow them. *)
Theorem flst_log_complete io base op m e m' :
  run_op io base op m = Done e m' ->
  exists l,
    m_log m' = m_log m ++ l /\
    forall pg o, m_frames m' pg o = replay l (m_frames m) pg o.
Proof.
  assert (H : logged (run_op io base op)).
  { destruct op; cbn [run_op].
    - apply logged_flst_add_first.
    - apply logged_flst_add_last.
    - apply logged_flst_insert_before.
    - apply logged_flst_insert_after.
    - apply logged_flst_remove. }
  intros R. exact (H m e m' R).
Qed.

Lemma flst_log_complete_witness :
  exists l,
    m_log ex_m3 = m_log ex_m2 ++ l /\
    forall pg o, m_frames ex_m3 pg o = replay l (m_frames ex_m2) pg o.
Proof.
  apply (flst_log_complete ex_io ex_base (InsertAfter ex_A ex_C) ex_m2 DB_SUCCESS ex_m3).
  vm_compute. reflexivity.
Defined.

(** X19: [flst_init] returns, and what it changes in the frames is in the
    records it appends to the log: replaying them on the frames as they
    were gives the frames as they are. *)
Theorem flst_init_log_complete base m :
  exists m' l,
    flst_init base m = Done tt m' /\
    m_log m' = m_log m ++ l /\
    forall pg o, m_frames m' pg o = replay l (m_frames m) pg o.
Proof.
  pose proof (wp_flst_init_exact base m) as W.
  apply wp_done in W. destruct W as ([] & m' & R & _).
  destruct (logged_flst_init base m tt m' R) as (l & L & F).
  exists m', l. split; [exact R|]. split; [exact L|exact F].
Qed.

(** ** Operations write to the base node and to nodes only *)

Ltac offr :=
  match goal with
  | H : ~ in_range _ _ _ _ |- ~ in_range _ _ _ _ =>
      solve [ revert H; clear;
              unfold in_range, ptr_add, FLST_BASE_NODE_SIZE, FLST_NODE_SIZE, FLST_LEN,
                FLST_FIRST, FLST_LAST, FLST_PREV, FLST_NEXT, FIL_ADDR_SIZE, node_ptr;
              cbn; lia ]
  end.

Lemma add_to_empty_frames_out f base add pg o :
  ~ in_range base FLST_BASE_NODE_SIZE pg o ->
  ~ in_range add FLST_NODE_SIZE pg o ->
  add_to_empty_frames f base add pg o = f pg o.
Proof.
  intros Hb Ha. unfold add_to_empty_frames. cbv zeta.
  rewrite zero_both_frames_out by offr.
  rewrite !put_addr_out by offr.
  apply store_bytes_out. cbn [length mach_write_to_1]. offr.
Qed.

Lemma wp_frame_insert_after io base L1 cur L2 add m :
  flst_inv (m_frames m) base (L1 ++ cur :: L2) -> node_ok add ->
  wp (flst_insert_after io base (node_ptr cur) (node_ptr add)) m
     (fun _ m' => forall pg o,
        ~ in_range base FLST_BASE_NODE_SIZE pg o ->
        Forall (fun n => ~ in_range (node_ptr n) FLST_NODE_SIZE pg o)
               (add :: L1 ++ cur :: L2) ->
        m_frames m' pg o = m_frames m pg o).
Proof.
  intros Hinv Oka.
  destruct (flst_inv_links _ _ _ _ _ Hinv) as (Okc & _ & Cn & _ & Ln).
  apply (wp_flst_insert_after io _ _ _ _ (m_frames m) _ (frames_eq_refl _)).
  - exact (inv_base _ _ _ Hinv).
  - exact (proj2 Okc).
  - exact (proj2 Oka).
  - rewrite Cn. exact Ln.
  - intros m' F' pg o Hb HL. rewrite F'. apply insert_after_frames_out.
    unfold insert_after_writes. rewrite Cn. cbv zeta.
    apply Forall_cons_iff in HL. destruct HL as [Ha HL].
    apply Forall_app in HL. destruct HL as [_ HL].
    apply Forall_cons_iff in HL. destruct HL as [Hc HL].
    apply Forall_cons; [cbn [fst snd]; offr|].
    apply Forall_cons; [cbn [fst snd]; offr|].
    apply Forall_cons; [cbn [fst snd]; offr|].
    apply Forall_cons; [|apply Forall_nil]. cbn [fst snd].
    destruct L2 as [|y L2]; cbn [hd].
    + change (page fil_addr_null =? FIL_NULL) with true. cbv iota. offr.
    + apply Forall_cons_iff in HL. destruct HL as [Hy _].
      assert (Oky : node_ok y).
      { pose proof (inv_nodes _ _ _ Hinv) as Hok. rewrite Forall_forall in Hok.
        apply Hok, in_or_app. right. right. left. reflexivity. }
      rewrite (node_ok_not_null _ Oky). offr.
Qed.

Lemma wp_frame_insert_before io base L1 cur L2 add m :
  flst_inv (m_frames m) base (L1 ++ cur :: L2) -> node_ok add ->
  wp (flst_insert_before io base (node_ptr cur) (node_ptr add)) m
     (fun _ m' => forall pg o,
        ~ in_range base FLST_BASE_NODE_SIZE pg o ->
        Forall (fun n => ~ in_range (node_ptr n) FLST_NODE_SIZE pg o)
               (add :: L1 ++ cur :: L2) ->
        m_frames m' pg o = m_frames m pg o).
Proof.
  intros Hinv Oka.
  destruct (flst_inv_links _ _ _ _ _ Hinv) as (Okc & Cp & _ & Lp & _).
  apply (wp_flst_insert_before io _ _ _ _ (m_frames m) _ (frames_eq_refl _)).
  - exact (inv_base _ _ _ Hinv).
  - exact (proj2 Okc).
  - exact (proj2 Oka).
  - rewrite Cp. exact Lp.
  - intros m' F' pg o Hb HL. rewrite F'. apply insert_before_frames_out.
    unfold insert_before_writes. rewrite Cp. cbv zeta.
    apply Forall_cons_iff in HL. destruct HL as [Ha HL].
    apply Forall_app in HL. destruct HL as [HL1 HL].
    apply Forall_cons_iff in HL. destruct HL as [Hc _].
    apply Forall_cons; [cbn [fst snd]; offr|].
    apply Forall_cons; [cbn [fst snd]; offr|].
    apply Forall_cons; [cbn [fst snd]; offr|].
    apply Forall_cons; [|apply Forall_nil]. cbn [fst snd].
    destruct (list_snoc_cases L1) as [->|(L1' & x & ->)].
    + cbn [last]. change (page fil_addr_null =? FIL_NULL) with true. cbv iota. offr.
    + rewrite last_last.
      apply Forall_app in HL1. destruct HL1 as [_ Hx].
      apply Forall_cons_iff in Hx. destruct Hx as [Hx _].
      assert (Okx : node_ok x).
      { pose proof (inv_nodes _ _ _ Hinv) as Hok. rewrite Forall_forall in Hok.
        apply Hok, in_or_app. left. apply in_or_app. right. left. reflexivity. }
      rewrite (node_ok_not_null _ Okx). offr.
Qed.

Lemma wp_frame_remove io base L1 cur L2 m :
  flst_inv (m_frames m) base (L1 ++ cur :: L2) ->
  wp (flst_remove io base (node_ptr cur)) m
     (fun _ m' => forall pg o,
        ~ in_range base FLST_BASE_NODE_SIZE pg o ->
        Forall (fun n => ~ in_range (node_ptr n) FLST_NODE_SIZE pg o) (L1 ++ L2) ->
        m_frames m' pg o = m_frames m pg o).
Proof.
  intros Hinv.
  destruct (flst_inv_links _ _ _ _ _ Hinv) as (Okc & Cp & Cn & Lp & Ln).
  apply (wp_flst_remove io _ _ _ (m_frames m) _ (frames_eq_refl _)).
  - exact (inv_base _ _ _ Hinv).
  - rewrite Cp. exact Lp.
  - rewrite Cn. exact Ln.
  - intros m' F' pg o Hb HL. rewrite F'. apply remove_frames_out.
    unfold remove_writes. rewrite Cp, Cn. cbv zeta.
    apply Forall_app in HL. destruct HL as [HL1 HL2].
    pose proof (inv_nodes _ _ _ Hinv) as Hok. rewrite Forall_forall in Hok.
    apply Forall_cons; [cbn [fst snd]; offr|].
    apply Forall_cons; [|apply Forall_cons; [|apply Forall_nil]]; cbn [fst snd].
    + destruct (list_snoc_cases L1) as [->|(L1' & x & ->)].
      * cbn [last]. change (page fil_addr_null =? FIL_NULL) with true. cbv iota. offr.
      * rewrite last_last.
        apply Forall_app in HL1. destruct HL1 as [_ Hx].
        apply Forall_cons_iff in Hx. destruct Hx as [Hx _].
        assert (Okx : node_ok x).
        { apply Hok, in_or_app. left. apply in_or_app. right. left. reflexivity. }
        rewrite (node_ok_not_null _ Okx). offr.
    + destruct L2 as [|y L2]; cbn [hd].
      * change (page fil_addr_null =? FIL_NULL) with true. cbv iota. offr.
      * apply Forall_cons_iff in HL2. destruct HL2 as [Hy _].
        assert (Oky : node_ok y).
        { apply Hok, in_or_app. right. right. left. reflexivity. }
        rewrite (node_ok_not_null _ Oky). offr.
Qed.

Lemma wp_frame_add_to_empty base add m :
  flst_inv (m_frames m) base [] -> node_ok add ->
  wp (flst_add_to_empty base (node_ptr add)) m
     (fun _ m' => forall pg o,
        ~ in_range base FLST_BASE_NODE_SIZE pg o ->
        ~ in_range (node_ptr add) FLST_NODE_SIZE pg o ->
        m_frames m' pg o = m_frames m pg o).
Proof.
  intros Hinv Oka.
  apply (wp_flst_add_to_empty _ _ _ (m_frames m) _ (frames_eq_refl _)).
  - pose proof (inv_base _ _ _ Hinv). sep.
  - rewrite addr_of_node_ptr by exact Oka. apply node_ok_link_ok, Oka.
  - intros m' F' pg o Hb Ha. rewrite F'. apply add_to_empty_frames_out; assumption.
Qed.

Lemma wp_frame_add_last io base L add m :
  flst_inv (m_frames m) base L -> node_ok add ->
  wp (flst_add_last io base (node_ptr add)) m
     (fun _ m' => forall pg o,
        ~ in_range base FLST_BASE_NODE_SIZE pg o ->
        Forall (fun n => ~ in_range (node_ptr n) FLST_NODE_SIZE pg o) (add :: L) ->
        m_frames m' pg o = m_frames m pg o).
Proof.
  intros Hinv Oka. unfold flst_add_last.
  apply wp_bind. apply (wp_gets _ _ (m_frames m) _ (frames_eq_refl _)).
  { intros f f' Hf. apply mach_read_from_4_ext, Hf. }
  rewrite (inv_len _ _ _ Hinv).
  destruct (list_snoc_cases L) as [->|(L' & x & ->)].
  - cbn [length Z.of_nat Z.eqb]. apply wp_bind.
    apply (wp_mono _ _ _ _ (wp_frame_add_to_empty _ _ _ Hinv Oka)). intros _ m' H'.
    apply wp_ret. intros pg o Hb HL. apply Forall_cons_iff in HL. apply H'; tauto.
  - replace (Z.of_nat (length (L' ++ [x])) =? 0) with false
      by (symmetry; apply Z.eqb_neq; rewrite length_app; cbn [length]; lia).
    apply wp_bind. apply (wp_gets _ _ (m_frames m) _ (frames_eq_refl _)).
    { intros f f' Hf. apply flst_read_addr_ext, Hf. }
    rewrite (inv_last _ _ _ Hinv). rewrite last_last.
    change (page_no (node_ptr add)) with (page add).
    pose proof (wp_frame_insert_after io base L' x [] add m Hinv Oka) as W.
    destruct (Z.eqb_spec (page x) (page add)) as [Ex|Ex]; cbn [negb].
    + rewrite (same_page_node_ptr _ _ Ex). exact W.
    + apply wp_bind. apply wp_buf_page_get_gen.
      destruct (io (page x)) eqn:Eio.
      1:{ rewrite node_ptr_frame. exact W. }
      all: apply wp_ret; intros; reflexivity.
Qed.

Lemma wp_frame_add_first io base L add m :
  flst_inv (m_frames m) base L -> node_ok add ->
  wp (flst_add_first io base (node_ptr add)) m
     (fun _ m' => forall pg o,
        ~ in_range base FLST_BASE_NODE_SIZE pg o ->
        Forall (fun n => ~ in_range (node_ptr n) FLST_NODE_SIZE pg o) (add :: L) ->
        m_frames m' pg o = m_frames m pg o).
Proof.
  intros Hinv Oka. unfold flst_add_first.
  apply wp_bind. apply (wp_gets _ _ (m_frames m) _ (frames_eq_refl _)).
  { intros f f' Hf. apply mach_read_from_4_ext, Hf. }
  rewrite (inv_len _ _ _ Hinv).
  destruct L as [|x L'].
  - cbn [length Z.of_nat Z.eqb]. apply wp_bind.
    apply (wp_mono _ _ _ _ (wp_frame_add_to_empty _ _ _ Hinv Oka)). intros _ m' H'.
    apply wp_ret. intros pg o Hb HL. apply Forall_cons_iff in HL. apply H'; tauto.
  - replace (Z.of_nat (length (x :: L')) =? 0) with false
      by (symmetry; apply Z.eqb_neq; cbn [length]; lia).
    apply wp_bind. apply (wp_gets _ _ (m_frames m) _ (frames_eq_refl _)).
    { intros f f' Hf. apply flst_read_addr_ext, Hf. }
    rewrite (inv_first _ _ _ Hinv). cbn [hd].
    change (page_no (node_ptr add)) with (page add).
    pose proof (wp_frame_insert_before io base [] x L' add m Hinv Oka) as W.
    destruct (Z.eqb_spec (page x) (page add)) as [Ex|Ex]; cbn [negb].
    + rewrite (same_page_node_ptr _ _ Ex). exact W.
    + apply wp_bind. apply wp_buf_page_get_gen.
      destruct (io (page x)) eqn:Eio.
      1:{ rewrite node_ptr_frame. exact W. }
      all: apply wp_ret; intros; reflexivity.
Qed.

Lemma wp_frame_run_op io base L op m :
  flst_inv (m_frames m) base L -> op_ok base L op ->
  wp (run_op io base op) m
     (fun _ m' => forall pg o,
        ~ in_range base FLST_BASE_NODE_SIZE pg o ->
        Forall (fun n => ~ in_range (node_ptr n) FLST_NODE_SIZE pg o) (added op ++ L) ->
        m_frames m' pg o = m_frames m pg o).
Proof.
  intros Hinv Hop.
  destruct op as [add|add|cur add|cur add|cur]; cbn [run_op op_ok added app] in *.
  - apply wp_frame_add_first; [exact Hinv|apply Hop].
  - apply wp_frame_add_last; [exact Hinv|apply Hop].
  - destruct Hop as (Hin & Hfr & _).
    apply in_split in Hin. destruct Hin as (L1 & L2 & ->).
    apply wp_frame_insert_before; [exact Hinv|apply Hfr].
  - destruct Hop as (Hin & Hfr & _).
    apply in_split in Hin. destruct Hin as (L1 & L2 & ->).
    apply wp_frame_insert_after; [exact Hinv|apply Hfr].
  - apply in_split in Hop. destruct Hop as (L1 & L2 & ->).
    apply (wp_mono _ _ _ _ (wp_frame_remove io _ _ _ _ _ Hinv)).
    intros _ m' H pg o Hb HL. apply H; [exact Hb|].
    apply Forall_app in HL. destruct HL as [H1 H2].
    apply Forall_cons_iff in H2. apply Forall_app. tauto.
Qed.

(** X20: an operation on a list writes to the base node, to nodes of the
    list and to the node it adds, and to nothing else: every other byte of
    every frame is as it was, whatever the operation returns. *)
Theorem run_op_frame io base m L op e m' :
  reachable io base m L -> op_ok base L op ->
  run_op io base op m = Done e m' ->
  forall pg o,
    ~ in_range base FLST_BASE_NODE_SIZE pg o ->
    Forall (fun n => ~ in_range (node_ptr n) FLST_NODE_SIZE pg o) (added op ++ L) ->
    m_frames m' pg o = m_frames m pg o.
Proof.
  intros R Hop Hrun.
  pose proof (wp_frame_run_op io base L op m (reachable_inv _ _ _ _ R) Hop) as W.
  unfold wp in W. rewrite Hrun in W. exact W.
Qed.

Lemma run_op_frame_witness : m_frames ex_m3 2 70 = m_frames ex_m2 2 70.
Proof.
  apply (run_op_frame ex_io ex_base ex_m2 [ex_A; ex_B] (InsertAfter ex_A ex_C)
           DB_SUCCESS ex_m3).
  - apply (reach_step ex_io ex_base ex_m1 [ex_A] (AddLast ex_B) ex_m2).
    + apply (reach_step ex_io ex_base ex_m0 [] (AddLast ex_A) ex_m1).
      * apply (reach_init ex_io ex_base ex_mtr); [ex_ok|reflexivity].
      * ex_ok.
      * vm_compute. reflexivity.
    + ex_ok.
    + vm_compute. reflexivity.
  - ex_ok.
  - vm_compute. reflexivity.
  - unfold in_range. cbn. lia.
  - cbn [added app].
    apply Forall_cons; [unfold in_range; cbn; lia|].
    apply Forall_cons; [unfold in_range; cbn; lia|].
    apply Forall_cons; [unfold in_range; cbn; lia|apply Forall_nil].
Defined.

(** ** Adding a node and removing it again *)

Lemma in_range_dec p n pg o : {in_range p n pg o} + {~ in_range p n pg o}.
Proof.
  unfold in_range.
  destruct (Z.eq_dec pg (blk p)); [|right; lia].
  destruct (Z_le_dec (pos p) o); [|right; lia].
  destruct (Z_lt_dec o (pos p + n)); [left; lia|right; lia].
Qed.

Lemma load_bytes_eq_get f g p n o :
  load_bytes f p n = load_bytes g p n ->
  pos p <= o < pos p + Z.of_nat n -> f (blk p) o = g (blk p) o.
Proof.
  intros E Ho.
  pose proof (nth_load_bytes f p n (Z.to_nat (o - pos p)) ltac:(lia)) as Hf.
  pose proof (nth_load_bytes g p n (Z.to_nat (o - pos p)) ltac:(lia)) as Hg.
  rewrite E, Hg in Hf. unfold load, ptr_add in Hf. cbn [blk pos] in Hf.
  replace (pos p + Z.of_nat (Z.to_nat (o - pos p))) with o in Hf by lia.
  symmetry. exact Hf.
Qed.

Lemma same_bytes_4 f g p o :
  mach_read_from_4 f p = mach_read_from_4 g p ->
  pos p <= o < pos p + 4 -> f (blk p) o = g (blk p) o.
Proof.
  intros E Ho. apply (load_bytes_eq_get f g p 4); [|lia].
  rewrite (load_bytes_4_of_read f p _ E), (load_bytes_4_of_read g p _ eq_refl).
  reflexivity.
Qed.

Lemma same_bytes_2 f g p o :
  mach_read_from_2 f p = mach_read_from_2 g p ->
  pos p <= o < pos p + 2 -> f (blk p) o = g (blk p) o.
Proof.
  intros E Ho. apply (load_bytes_eq_get f g p 2); [|lia].
  rewrite (load_bytes_2_of_read f p _ E), (load_bytes_2_of_read g p _ eq_refl).
  reflexivity.
Qed.

Lemma same_bytes_addr f g p o :
  flst_read_addr f p = flst_read_addr g p ->
  pos p <= o < pos p + FIL_ADDR_SIZE -> f (blk p) o = g (blk p) o.
Proof.
  unfold flst_read_addr, FIL_ADDR_SIZE. intros E Ho. inversion E as [[E4 E2]].
  destruct (Z_lt_dec o (pos p + 4)).
  - apply (same_bytes_4 f g (p +! FIL_ADDR_PAGE) o E4).
    unfold ptr_add, FIL_ADDR_PAGE. cbn [pos]. lia.
  - apply (same_bytes_2 f g (p +! FIL_ADDR_BYTE) o E2).
    unfold ptr_add, FIL_ADDR_BYTE. cbn [pos]. lia.
Qed.

(** Two frame maps that hold the same list hold the same bytes in the base
    node and in every node. *)
Lemma flst_inv_same_base f g base L pg o :
  flst_inv f base L -> flst_inv g base L ->
  in_range base FLST_BASE_NODE_SIZE pg o -> f pg o = g pg o.
Proof.
  intros [_ Lf Ff Af _ _ _ _] [_ Lg Fg Ag _ _ _ _] [-> Ho].
  unfold FLST_BASE_NODE_SIZE, FIL_ADDR_SIZE in Ho.
  destruct (Z_lt_dec o (pos base + 4)).
  - apply (same_bytes_4 f g (base +! FLST_LEN) o).
    + unfold flst_get_len in Lf, Lg. rewrite Lf, Lg. reflexivity.
    + unfold ptr_add, FLST_LEN. cbn [pos]. lia.
  - destruct (Z_lt_dec o (pos base + 10)).
    + apply (same_bytes_addr f g (base +! FLST_FIRST) o).
      * unfold flst_get_first in Ff, Fg. rewrite Ff, Fg. reflexivity.
      * unfold ptr_add, FLST_FIRST, FIL_ADDR_SIZE. cbn [pos]. lia.
    + apply (same_bytes_addr f g (base +! FLST_LAST) o).
      * unfold flst_get_last in Af, Ag. rewrite Af, Ag. reflexivity.
      * unfold ptr_add, FLST_LAST, FIL_ADDR_SIZE. cbn [pos]. lia.
Qed.

Lemma flst_inv_same_node f g base L n pg o :
  flst_inv f base L -> flst_inv g base L -> In n L ->
  in_range (node_ptr n) FLST_NODE_SIZE pg o -> f pg o = g pg o.
Proof.
  intros Hf Hg Hin [-> Ho].
  apply in_split in Hin. destruct Hin as (L1 & L2 & ->).
  destruct (flst_inv_links _ _ _ _ _ Hf) as (_ & Pf & Nf & _).
  destruct (flst_inv_links _ _ _ _ _ Hg) as (_ & Pg & Ng & _).
  unfold FLST_NODE_SIZE, FIL_ADDR_SIZE in Ho.
  destruct (Z_lt_dec o (pos (node_ptr n) + 6)).
  - apply (same_bytes_addr f g (node_ptr n +! FLST_PREV) o).
    + unfold flst_get_prev_addr in Pf, Pg. rewrite Pf, Pg. reflexivity.
    + unfold ptr_add, FLST_PREV, FIL_ADDR_SIZE. cbn [pos]. cbn [pos] in Ho. lia.
  - apply (same_bytes_addr f g (node_ptr n +! FLST_NEXT) o).
    + unfold flst_get_next_addr in Nf, Ng. rewrite Nf, Ng. reflexivity.
    + unfold ptr_add, FLST_NEXT, FIL_ADDR_SIZE. cbn [pos]. cbn [pos] in Ho. lia.
Qed.

Lemma apply_op_added f base L op add :
  flst_inv f base L -> op_ok base L op -> added op = [add] ->
  In add (apply_op op L) /\ list_remove add (apply_op op L) = L.
Proof.
  intros Hinv Hop Hadd.
  destruct op as [a|a|cur a|cur a|cur]; cbn [added] in Hadd; inversion Hadd; subst a;
    cbn [op_ok apply_op] in *.
  - split; [left; reflexivity|]. cbn [list_remove]. rewrite fil_addr_eqb_refl. reflexivity.
  - destruct Hop as [(_ & _ & Hap) _]. split; [apply in_or_app; right; left; reflexivity|].
    rewrite list_remove_split; [apply app_nil_r|].
    intros x Hx. rewrite Forall_forall in Hap. apply node_apart_sym, Hap, Hx.
  - destruct Hop as (Hin & (_ & _ & Hap) & _).
    apply in_split in Hin. destruct Hin as (L1 & L2 & ->).
    rewrite (list_insert_before_split _ _ _ _ (flst_inv_split _ _ _ _ _ Hinv)).
    split; [apply in_or_app; right; left; reflexivity|].
    apply list_remove_split.
    intros x Hx. rewrite Forall_forall in Hap.
    apply node_apart_sym, Hap, in_or_app. left. exact Hx.
  - destruct Hop as (Hin & (_ & _ & Hap) & _).
    apply in_split in Hin. destruct Hin as (L1 & L2 & ->).
    rewrite (list_insert_after_split _ _ _ _ (flst_inv_split _ _ _ _ _ Hinv)).
    split; [apply in_or_app; right; right; left; reflexivity|].
    change (L1 ++ cur :: add :: L2) with (L1 ++ [cur] ++ add :: L2).
    rewrite app_assoc. rewrite list_remove_split.
    + rewrite <- app_assoc. reflexivity.
    + intros x Hx. rewrite Forall_forall in Hap.
      apply node_apart_sym, Hap. apply in_app_or in Hx. apply in_or_app.
      destruct Hx as [Hx|[<-|[]]]; [left; exact Hx|right; left; reflexivity].
Qed.

(** X21: a node added to a list by [flst_add_first], [flst_add_last],
    [flst_insert_before] or [flst_insert_after] and then removed by
    [flst_remove], both with [DB_SUCCESS], leaves the list with the nodes
    it had, and every byte of every frame outside the twelve bytes of that
    node as it was before the node was added. *)
Theorem flst_add_remove_round_trip io base m L op add m1 m2 :
  reachable io base m L -> op_ok base L op -> added op = [add] ->
  run_op io base op m = Done DB_SUCCESS m1 ->
  run_op io base (Remove add) m1 = Done DB_SUCCESS m2 ->
  reachable io base m2 L /\
  forall pg o,
    ~ in_range (node_ptr add) FLST_NODE_SIZE pg o ->
    m_frames m2 pg o = m_frames m pg o.
Proof.
  intros R Hop Hadd R1 R2.
  pose proof (reachable_inv _ _ _ _ R) as Hinv.
  destruct (apply_op_added _ _ _ _ _ Hinv Hop Hadd) as [Hin Hrm].
  pose proof (reach_step io base m L op m1 R Hop R1) as Reach1.
  pose proof (reach_step io base m1 _ (Remove add) m2 Reach1 Hin R2) as Reach2.
  cbn [apply_op] in Reach2. rewrite Hrm in Reach2.
  split; [exact Reach2|].
  pose proof (reachable_inv _ _ _ _ Reach2) as Hinv2.
  intros pg o Ha.
  destruct (in_range_dec base FLST_BASE_NODE_SIZE pg o) as [Hb|Hb].
  { exact (flst_inv_same_base _ _ _ _ _ _ Hinv2 Hinv Hb). }
  destruct (Exists_dec (fun n => in_range (node_ptr n) FLST_NODE_SIZE pg o) L
              (fun n => in_range_dec (node_ptr n) FLST_NODE_SIZE pg o)) as [Hx|Hx].
  { apply Exists_exists in Hx. destruct Hx as (n & Hn & Hr).
    exact (flst_inv_same_node _ _ _ _ _ _ _ Hinv2 Hinv Hn Hr). }
  apply Forall_Exists_neg in Hx.
  pose proof (wp_frame_run_op io base L op m Hinv Hop) as W1.
  unfold wp in W1. rewrite R1 in W1.
  pose proof (wp_frame_run_op io base _ (Remove add) m1 (reachable_inv _ _ _ _ Reach1) Hin)
    as W2.
  unfold wp in W2. rewrite R2 in W2. cbn [added app] in W2.
  rewrite W2, W1; [reflexivity|exact Hb| |exact Hb|].
  - rewrite Hadd. apply Forall_cons; assumption.
  - rewrite Forall_forall. intros n Hn.
    assert (Hn' : In n (add :: L)).
    { destruct op as [a|a|cur a|cur a|cur]; cbn [added] in Hadd; inversion Hadd; subst a;
        cbn [apply_op op_ok] in *.
      - exact Hn.
      - apply in_app_or in Hn. destruct Hn as [Hn|[<-|[]]];
          [right; exact Hn|left; reflexivity].
      - destruct Hop as (Hc & _).
        apply in_split in Hc. destruct Hc as (L1 & L2 & ->).
        rewrite (list_insert_before_split _ _ _ _ (flst_inv_split _ _ _ _ _ Hinv)) in Hn.
        apply in_app_or in Hn. destruct Hn as [Hn|[<-|Hn]].
        + right. apply in_or_app. left. exact Hn.
        + left. reflexivity.
        + right. apply in_or_app. right. exact Hn.
      - destruct Hop as (Hc & _).
        apply in_split in Hc. destruct Hc as (L1 & L2 & ->).
        rewrite (list_insert_after_split _ _ _ _ (flst_inv_split _ _ _ _ _ Hinv)) in Hn.
        apply in_app_or in Hn. destruct Hn as [Hn|[<-|[<-|Hn]]].
        + right. apply in_or_app. left. exact Hn.
        + right. apply in_or_app. right. left. reflexivity.
        + left. reflexivity.
        + right. apply in_or_app. right. right. exact Hn. }
    destruct Hn' as [<-|Hn']; [exact Ha|].
    rewrite Forall_forall in Hx. apply Hx, Hn'.
Qed.

Lemma flst_add_remove_round_trip_witness :
  reachable ex_io ex_base ex_m4 [ex_A; ex_B] /\
  forall pg o,
    ~ in_range (node_ptr ex_C) FLST_NODE_SIZE pg o ->
    m_frames ex_m4 pg o = m_frames ex_m2 pg o.
Proof.
  apply (flst_add_remove_round_trip ex_io ex_base ex_m2 [ex_A; ex_B]
           (InsertAfter ex_A ex_C) ex_C ex_m3 ex_m4).
  - apply (reach_step ex_io ex_base ex_m1 [ex_A] (AddLast ex_B) ex_m2).
    + apply (reach_step ex_io ex_base ex_m0 [] (AddLast ex_A) ex_m1).
      * apply (reach_init ex_io ex_base ex_mtr); [ex_ok|reflexivity].
      * ex_ok.
      * vm_compute. reflexivity.
    + ex_ok.
    + vm_compute. reflexivity.
  - ex_ok.
  - reflexivity.
  - vm_compute. reflexivity.
  - vm_compute. reflexivity.
Defined.

(** ** The length is a 32-bit counter *)


